(** * Local-Cocoa: the chunking pipeline and the index orchestrator

    A shallow embedding of [services/local_rag_agent/chunker.py] and of the
    run / per-file logic of [services/local_rag_agent/indexer.py], with the
    properties of the specification stated and settled against it.

    Conventions.
    - A Python [str] is a list of Unicode code points ([str]); a Python
      [int] is a [Z]; [len] is [Z.of_nat (length _)].
    - Every regular expression of the source is written out as the scanner
      it denotes under Python's leftmost, greedy, backtracking semantics;
      the comment on each scanner names the pattern.
    - Collaborators whose code is outside the repository (the xxhash
      digest, the Unicode decimal-digit table behind [\d], the optional
      tokenizer, the embedding client, the vector store) are parameters. *)

From Stdlib Require Import ZArith Lia Bool.
From stdpp Require Import base option list gmap strings.

Local Open Scope Z_scope.

(** ** Text primitives *)

Module Text.

Definition char := N.
Definition str := list char.

Definition len (s : str) : Z := Z.of_nat (length s).

Definition of_string (s : string) : str :=
  (fun a => Ascii.N_of_ascii a) <$> String.list_ascii_of_string s.

Definition nl : char := 10%N.
Definition sp : char := 32%N.

(** [str.isspace] / the class [\s] of a [str] pattern: the code points
    Python treats as white space. *)
Definition isspace (c : char) : bool :=
  ((9 <=? c) && (c <=? 13) || (28 <=? c) && (c <=? 32)
   || (c =? 133) || (c =? 160) || (c =? 5760)
   || (8192 <=? c) && (c <=? 8202)
   || (c =? 8232) || (c =? 8233) || (c =? 8239) || (c =? 8287)
   || (c =? 12288))%N.

Fixpoint take_while (p : char → bool) (s : str) : str :=
  match s with
  | c :: t => if p c then c :: take_while p t else []
  | [] => []
  end.

Fixpoint drop_while (p : char → bool) (s : str) : str :=
  match s with
  | c :: t => if p c then drop_while p t else s
  | [] => []
  end.

Definition lstrip (s : str) : str := drop_while isspace s.
Definition rstrip (s : str) : str := reverse (drop_while isspace (reverse s)).
Definition strip (s : str) : str := rstrip (lstrip s).

(** Truthiness of a string: [if s:] *)
Definition nonempty (s : str) : bool :=
  match s with [] => false | _ => true end.

(** [s.strip()] used as a condition *)
Definition nonblank (s : str) : bool := nonempty (lstrip s).

(** A slice bound, clamped the way Python clamps it. *)
Definition clamp (n i : Z) : Z :=
  if i <? 0 then Z.max (i + n) 0 else Z.min i n.

(** [s[lo:hi]] *)
Definition slice (s : str) (lo hi : Z) : str :=
  let a := clamp (len s) lo in
  let b := clamp (len s) hi in
  take (Z.to_nat (b - a)) (drop (Z.to_nat a) s).

(** [s[lo:]] and [s[:hi]] *)
Definition slice_from (s : str) (lo : Z) : str := slice s lo (len s).
Definition slice_to (s : str) (hi : Z) : str := slice s 0 hi.

Fixpoint starts_with (needle hay : str) : bool :=
  match needle, hay with
  | [], _ => true
  | a :: n', b :: h' => (a =? b)%N && starts_with n' h'
  | _ :: _, [] => false
  end.

Fixpoint find_in (needle hay : str) (i : Z) : Z :=
  if starts_with needle hay then i
  else match hay with
       | [] => -1
       | _ :: t => find_in needle t (i + 1)
       end.

(** [hay.find(needle, start)] for [start >= 0] *)
Definition find (hay needle : str) (start : Z) : Z :=
  if len hay <? start then -1
  else find_in needle (drop (Z.to_nat start) hay) start.

(** [needle in hay] *)
Definition contains (hay needle : str) : bool := 0 <=? find hay needle 0.

(** [sep.join(parts)] *)
Fixpoint join (sep : str) (parts : list str) : str :=
  match parts with
  | [] => []
  | [p] => p
  | p :: rest => p ++ sep ++ join sep rest
  end.

(** [s.split('\n')]: always at least one field *)
Fixpoint split_lines_aux (s : str) (cur : str) : list str :=
  match s with
  | [] => [reverse cur]
  | c :: t => if (c =? nl)%N then reverse cur :: split_lines_aux t []
              else split_lines_aux t (c :: cur)
  end.
Definition split_lines (s : str) : list str := split_lines_aux s [].

(** Decimal rendering of an [int] inside an f-string. *)
Fixpoint dec_digits (fuel : nat) (n : N) (acc : str) : str :=
  match fuel with
  | O => acc
  | S f =>
      let acc' := (48 + n mod 10)%N :: acc in
      if (n <? 10)%N then acc' else dec_digits f (n / 10)%N acc'
  end.

Definition str_of_int (z : Z) : str :=
  let digits := dec_digits (S (N.to_nat (N.log2 (Z.to_N (Z.abs z))))) (Z.to_N (Z.abs z)) [] in
  if z <? 0 then 45%N :: digits else digits.

End Text.

Import Text.

(** ** The regular expressions of chunker.py, as scanners *)

Module Regex.

(** [pattern.finditer(s)] for a pattern that never matches the empty string.
    [m bol rest] is the length of the match that starts at the head of
    [rest], if there is one; [bol] tells whether that position is the start
    of a line ([^] under [re.MULTILINE]). Matches do not overlap: after a
    match the search resumes at its end. Results are [(start, end)]. *)
Fixpoint finditer_aux (m : bool → str → option nat) (rest : str)
    (i : nat) (bol : bool) (skip : nat) : list (nat * nat) :=
  match rest with
  | [] => []
  | c :: t =>
      let bol' := (c =? nl)%N in
      match skip with
      | S k => finditer_aux m t (S i) bol' k
      | O =>
          match m bol rest with
          | Some (S k) => (i, (i + S k)%nat) :: finditer_aux m t (S i) bol' k
          | _ => finditer_aux m t (S i) bol' O
          end
      end
  end.

Definition finditer (m : bool → str → option nat) (s : str) : list (nat * nat) :=
  finditer_aux m s O true O.

(** [pattern.split(s)]; with [keep] the pattern is wrapped in a capture
    group and the separators are returned between the fields. *)
Fixpoint split_aux (m : str → option nat) (keep : bool) (rest cur : str)
    (skip : nat) : list str :=
  match rest with
  | [] => [reverse cur]
  | c :: t =>
      match skip with
      | S k => split_aux m keep t cur k
      | O =>
          match m rest with
          | Some (S k) =>
              reverse cur ::
                (if keep then [take (S k) rest] else []) ++ split_aux m keep t [] k
          | _ => split_aux m keep t (c :: cur) O
          end
      end
  end.

Definition split (m : str → option nat) (keep : bool) (s : str) : list str :=
  split_aux m keep s [] O.

Definition hash : char := 35%N.
Definition backtick : char := 96%N.
Definition pipe : char := 124%N.
Definition dash : char := 45%N.
Definition dot : char := 46%N.

(** SECTION_PATTERN under [re.MULTILINE]: at a line start, group 1 is a run
    of [#], then [\s+], then group 2 is the rest of the line, then [$].
    The greedy [\s+] takes the whole white-space run (new lines included),
    group 2 the rest of the line it lands on, and [$] then holds; nothing
    backtracks.
    The result is [(len(group 1), len of the white space, len(group 2))]. *)
Definition section_groups (rest : str) : option (nat * nat * nat) :=
  let hashes := take_while (fun c => (c =? hash)%N) rest in
  let after := drop (length hashes) rest in
  let ws := take_while isspace after in
  let heading := take_while (fun c => negb (c =? nl)%N) (drop (length ws) after) in
  match hashes, ws with
  | _ :: _, _ :: _ => Some (length hashes, length ws, length heading)
  | _, _ => None
  end.

Definition section_match (bol : bool) (rest : str) : option nat :=
  if bol then
    match section_groups rest with
    | Some (h, w, t) => Some (h + w + t)%nat
    | None => None
    end
  else None.

(** CODE_BLOCK_PATTERN = [```[\s\S]*?```]: an opening fence and the nearest
    closing fence after it. *)
Definition fence : str := [backtick; backtick; backtick].

Definition code_block_match (_ : bool) (rest : str) : option nat :=
  if starts_with fence rest then
    let k := find_in fence (drop 3 rest) 0 in
    if k <? 0 then None else Some (3 + Z.to_nat k + 3)%nat
  else None.

(** PARAGRAPH_SPLIT = [\n\s*\n+] and the splitter [(\n\s*\n)] of
    [_split_at_blank_lines]: a new line, then the white-space run after it
    up to and including its last new line. Both patterns match the same
    extent: the greedy [\s*] gives back characters until a new line
    follows, and after that last new line of the run no new line is left
    for [\n+] to take. *)
Definition blank_line_match (rest : str) : option nat :=
  match rest with
  | c :: t =>
      if (c =? nl)%N then
        let run := take_while isspace t in
        match drop_while (fun c => negb (c =? nl)%N) (reverse run) with
        | [] => None
        | upto => Some (S (length upto))
        end
      else None
  | [] => None
  end.

(** The sentence splitter of [_split_into_sentences]: a run of the
    terminators . ! ? and the full-width 。 ！ ？ ； followed by any white
    space. *)
Definition sentence_punct (c : char) : bool :=
  ((c =? 46) || (c =? 33) || (c =? 63)
   || (c =? 12290) || (c =? 65281) || (c =? 65311) || (c =? 65307))%N.

Definition sentence_end_match (_ : bool) (rest : str) : option nat :=
  match take_while sentence_punct rest with
  | [] => None
  | p => Some (length p + length (take_while isspace (drop (length p) rest)))%nat
  end.

Section ListItem.
(** The class [\d] of a [str] pattern is the Unicode category Nd, a table
    of the interpreter. *)
Variable unicode_decimal : char → bool.

Definition bullet (c : char) : bool :=
  ((c =? 45) || (c =? 42) || (c =? 43))%N.

(** LIST_ITEM_PATTERN.match(s): optional white space, then a bullet
    (one of - * +) or digits and a dot, then white space; anchored at the
    start of [s]. *)
Definition list_item_match (s : str) : bool :=
  let body := drop_while isspace s in
  let after_marker :=
    match body with
    | c :: t =>
        if bullet c then Some t
        else
          match take_while unicode_decimal body with
          | [] => None
          | ds =>
              match drop (length ds) body with
              | d :: t' => if (d =? dot)%N then Some t' else None
              | [] => None
              end
          end
    | [] => None
    end in
  match after_marker with
  | Some (c :: _) => isspace c
  | _ => false
  end.
End ListItem.

End Regex.

Import Regex.

Definition ascii_decimal (c : char) : bool := ((48 <=? c) && (c <=? 57))%N.

(** ** chunker.py *)

Module Chunker.

Inductive BlockType := paragraph | list_block | code | table.

Global Instance BlockType_eq_dec : EqDecision BlockType.
Proof. solve_decision. Defined.

(** [SemanticBlock] *)
Record SemanticBlock := {
  sb_text : str;
  block_type : BlockType;
  start_offset : Z;
  end_offset : Z;
}.

(** The [metadata] dict of a payload. [build] always writes [section_path],
    [start_char] and [end_char]; [page_numbers], [page_start] and [page_end]
    are written together or not at all, the last two being the first and
    the last element of the first. The float [list_density], which nothing
    else reads, is left out. *)
Record Metadata := {
  md_section_path : option str;
  start_char : Z;
  end_char : Z;
  page_numbers : option (list Z);
}.

Definition page_start (m : Metadata) : option Z := page_numbers m ≫= head.
Definition page_end (m : Metadata) : option Z := page_numbers m ≫= last.

(** [ChunkPayload]; [created_at] is a reading of the clock. *)
Record ChunkPayload := {
  chunk_id : str;
  file_id : str;
  ordinal : Z;
  text : str;
  snippet : str;
  token_count : Z;
  char_count : Z;
  section_path : option str;
  metadata : Metadata;
  created_at : Z;
}.

(** The instance attributes of [ChunkingPipeline]. An installed tokenizer
    is a function that may raise ([None]). *)
Record ChunkingPipeline := {
  chunk_tokens : Z;
  overlap_tokens : Z;
  min_chunk_tokens : Z;
  char_ratio : Z;
  tokenizer : option (str → option Z);
}.

(** [ChunkingPipeline.__init__]; [tok] is what the tiktoken lookup gave. *)
Definition init (tok : option (str → option Z))
    (chunk_tokens overlap_tokens min_chunk_tokens : Z) : ChunkingPipeline :=
  let ct := Z.max chunk_tokens 64 in
  {| chunk_tokens := ct;
     overlap_tokens := Z.max (Z.min overlap_tokens (ct / 4)) 0;
     min_chunk_tokens := Z.max min_chunk_tokens 20;
     char_ratio := 4;
     tokenizer := tok |}.

(** The defaults of the constructor's keyword arguments. *)
Definition init_default (tok : option (str → option Z)) : ChunkingPipeline :=
  init tok 480 80 50.

(** A [(text, start, end)] triple *)
Definition Span : Type := str * Z * Z.

Definition whole (s : str) : list Span := [(s, 0, len s)].

(** [_find_table_ranges]: the loop over [text.split('\n')] *)
Fixpoint find_table_loop (total : Z) (lines : list str) (in_table : bool)
    (table_start current_pos : Z) : list (Z * Z) :=
  match lines with
  | [] => if in_table then [(table_start, total)] else []
  | line :: rest =>
      let line_stripped := strip line in
      let is_table_row :=
        starts_with [pipe] line_stripped
        && contains (slice_from line_stripped 1) [pipe] in
      let is_separator :=
        contains line_stripped [dash; dash; dash] && contains line_stripped [pipe] in
      let next := current_pos + len line + 1 in
      if is_table_row || (in_table && is_separator) then
        find_table_loop total rest true
          (if in_table then table_start else current_pos) next
      else if in_table then
        (table_start, current_pos) :: find_table_loop total rest false table_start next
      else find_table_loop total rest false table_start next
  end.

Definition _find_table_ranges (s : str) : list (Z * Z) :=
  find_table_loop (len s) (split_lines s) false 0 0.

(** [_split_into_sentences] *)
Fixpoint sentences_loop (s : str) (matches : list (nat * nat)) (last_end : Z)
    : list Span * Z :=
  match matches with
  | [] => ([], last_end)
  | (_, e) :: rest =>
      let sentence_end := Z.of_nat e in
      let sentence := slice s last_end sentence_end in
      let '(more, final) := sentences_loop s rest sentence_end in
      ((if nonblank sentence then [(sentence, last_end, sentence_end)] else []) ++ more,
       final)
  end.

Definition _split_into_sentences (s : str) : list Span :=
  let '(found, last_end) := sentences_loop s (finditer sentence_end_match s) 0 in
  let remaining := slice_from s last_end in
  let sentences :=
    found ++ (if (last_end <? len s) && nonblank remaining
              then [(remaining, last_end, len s)] else []) in
  match sentences with
  | [] => whole s
  | _ => sentences
  end.

(** The loop state shared by the three accumulating splitters *)
Record Acc := {
  chunks : list Span;
  current_chunk : str;
  current_start : Z;
}.

Definition close_stripped (a : Acc) : Span :=
  (strip (current_chunk a), current_start a,
   current_start a + len (rstrip (current_chunk a))).

Definition close_raw (a : Acc) : Span :=
  (current_chunk a, current_start a, current_start a + len (current_chunk a)).

(** [_split_at_sentences] *)
Definition sentence_step (max_chars min_chars : Z) (a : Acc) (sent : Span) : Acc :=
  let '(sentence, sent_start, _) := sent in
  if negb (nonblank sentence) then a
  else if nonempty (current_chunk a)
          && (max_chars <? len (current_chunk a) + len sentence) then
    if min_chars <=? len (strip (current_chunk a)) then
      {| chunks := chunks a ++ [close_stripped a];
         current_chunk := sentence;
         current_start := sent_start |}
    else
      {| chunks := chunks a;
         current_chunk := current_chunk a ++ sentence;
         current_start := current_start a |}
  else
    {| chunks := chunks a;
       current_chunk := current_chunk a ++ sentence;
       current_start := if nonempty (current_chunk a) then current_start a else sent_start |}.

Definition _split_at_sentences (s : str) (max_chars min_chars : Z) : list Span :=
  let a := foldl (sentence_step max_chars min_chars)
             {| chunks := []; current_chunk := []; current_start := 0 |}
             (_split_into_sentences s) in
  let out := if nonblank (current_chunk a) then chunks a ++ [close_stripped a]
             else chunks a in
  match out with
  | [] => whole s
  | _ => out
  end.

(** [_split_at_blank_lines]; the second component is [current_pos]. *)
Definition blank_step (max_chars min_chars : Z) (st : Acc * Z) (part : str) : Acc * Z :=
  let '(a, current_pos) := st in
  let a' :=
    if nonempty (current_chunk a)
       && (max_chars <? len (current_chunk a) + len part) then
      if min_chars <=? len (strip (current_chunk a)) then
        {| chunks := chunks a ++ [close_raw a];
           current_chunk := part;
           current_start := current_pos |}
      else
        {| chunks := chunks a;
           current_chunk := current_chunk a ++ part;
           current_start := current_start a |}
    else
      {| chunks := chunks a;
         current_chunk := current_chunk a ++ part;
         current_start := if nonempty (current_chunk a) then current_start a
                          else current_pos |} in
  (a', current_pos + len part).

Definition _split_at_blank_lines (s : str) (max_chars min_chars : Z) : list Span :=
  let '(a, _) := foldl (blank_step max_chars min_chars)
                   ({| chunks := []; current_chunk := []; current_start := 0 |}, 0)
                   (split blank_line_match true s) in
  let out := if nonblank (current_chunk a) then chunks a ++ [close_raw a]
             else chunks a in
  match out with
  | [] => whole s
  | _ => out
  end.

(** [_split_large_block] *)
Definition _split_large_block (block : SemanticBlock) (max_chars min_chars : Z)
    : list Span :=
  match block_type block with
  | code | table => _split_at_blank_lines (sb_text block) max_chars min_chars
  | _ => _split_at_sentences (sb_text block) max_chars min_chars
  end.

(** [_get_overlap_text] *)
Definition _get_overlap_text (s : str) (overlap_chars : Z) : str :=
  if (overlap_chars <=? 0) || (len s <=? overlap_chars) then []
  else
    let overlap_region := slice_from s (- overlap_chars) in
    let sentences := _split_into_sentences overlap_region in
    if 1 <? Z.of_nat (length sentences)
    then strip (concat ((fun x : Span => x.1.1) <$> drop 1 sentences))
    else
      let space_pos := find overlap_region [sp] 0 in
      if (0 <? space_pos) && (space_pos <? len overlap_region / 2)
      then strip (slice_from overlap_region (space_pos + 1))
      else strip overlap_region.

(** [_window], kept in the source as the legacy splitter: the triples the
    generator yields, in order. The pointer moves forward in every round,
    so [len(text)] rounds run the loop to its end (lemma
    [window_loop_fuel] below). *)
Fixpoint window_loop (fuel : nat) (s : str) (window overlap pointer : Z) : list Span :=
  match fuel with
  | O => []
  | S fuel' =>
      if pointer <? len s then
        let end_ := Z.min (pointer + window) (len s) in
        (slice s pointer end_, pointer, end_)
        :: (if len s <=? end_ then []
            else window_loop fuel' s window overlap (Z.max (end_ - overlap) (pointer + 1)))
      else []
  end.

Definition _window (p : ChunkingPipeline) (s : str)
    (chunk_tokens_arg overlap_tokens_arg : option Z) : list Span :=
  if negb (nonempty s) then []
  else
    let window := default (chunk_tokens p) chunk_tokens_arg * char_ratio p in
    let overlap := default (overlap_tokens p) overlap_tokens_arg * char_ratio p in
    window_loop (length s) s window overlap 0.

Section Externals.

(** The Unicode table behind [\d] and [xxhash.xxh64(...).hexdigest()]. *)
Variable unicode_decimal : char → bool.
Variable xxh64_hexdigest : str → str.

Definition is_list_item (s : str) : bool := list_item_match unicode_decimal s.

Definition sep2 : str := [nl; nl].

Definition list_block_of (base_offset part_start : Z) (list_parts : list str)
    : SemanticBlock * Z :=
  let list_text := join sep2 list_parts in
  let list_end := part_start + len list_text in
  ({| sb_text := list_text; block_type := list_block;
      start_offset := base_offset + part_start;
      end_offset := base_offset + list_end |}, list_end).

(** The [while i < len(parts)] loop of [_parse_paragraphs_and_lists].
    [open_list] is the state of the inner [while j < len(parts)] loop: the
    start of the list being collected and the items collected so far. When
    the inner loop stops at a part, the outer loop resumes at that part. *)
Fixpoint paragraphs_loop (s : str) (base_offset : Z) (parts : list str)
    (current_pos : Z) (open_list : option (Z * list str)) : list SemanticBlock :=
  match parts with
  | [] =>
      match open_list with
      | Some (part_start, items) => [(list_block_of base_offset part_start items).1]
      | None => []
      end
  | part :: rest =>
      let outer (current_pos : Z) : list SemanticBlock :=
        if negb (nonblank part) then
          paragraphs_loop s base_offset rest (current_pos + len part + 2) None
        else
          let found := find s part current_pos in
          let part_start := if found =? -1 then current_pos else found in
          if is_list_item part then
            paragraphs_loop s base_offset rest current_pos (Some (part_start, [part]))
          else
            {| sb_text := part; block_type := paragraph;
               start_offset := base_offset + part_start;
               end_offset := base_offset + part_start + len part |}
            :: paragraphs_loop s base_offset rest (part_start + len part) None in
      match open_list with
      | Some (part_start, items) =>
          if is_list_item (if nonempty part then strip part else []) then
            paragraphs_loop s base_offset rest current_pos
              (Some (part_start, items ++ [part]))
          else
            let '(blk, list_end) := list_block_of base_offset part_start items in
            blk :: outer list_end
      | None => outer current_pos
      end
  end.

(** [_parse_paragraphs_and_lists] *)
Definition _parse_paragraphs_and_lists (s : str) (base_offset : Z)
    : list SemanticBlock :=
  if negb (nonblank s) then []
  else paragraphs_loop s base_offset (split blank_line_match false s) 0 None.

(** [sorted(ranges, key=lambda x: x[0])]: a stable sort *)
Fixpoint insert_by_start (r : Z * Z) (sorted : list (Z * Z)) : list (Z * Z) :=
  match sorted with
  | [] => [r]
  | x :: rest => if r.1 <? x.1 then r :: sorted else x :: insert_by_start r rest
  end.

Definition sort_by_start (ranges : list (Z * Z)) : list (Z * Z) :=
  foldl (fun acc r => insert_by_start r acc) [] ranges.

(** The [for start, end in protected_ranges] scan at the head of the main
    loop: the first range that contains the position ([true]) or lies
    ahead of it ([false]). *)
Fixpoint first_protected (ranges : list (Z * Z)) (pos : Z) : option (Z * Z * bool) :=
  match ranges with
  | [] => None
  | (s, e) :: rest =>
      if (s <=? pos) && (pos <? e) then Some (s, e, true)
      else if pos <? s then Some (s, e, false)
      else first_protected rest pos
  end.

Definition range_mem (r : Z * Z) (l : list (Z * Z)) : bool :=
  existsb (fun x => (x.1 =? r.1) && (x.2 =? r.2)) l.

(** The [while current_pos < len(text)] loop of [_parse_semantic_blocks].
    Every round moves [current_pos] forward, so [fuel] rounds with
    [fuel > len(text) - current_pos] run the loop to its end (lemma
    [parse_loop_fuel] below). *)
Fixpoint parse_loop (fuel : nat) (s : str) (code_ranges protected_ranges : list (Z * Z))
    (current_pos : Z) : list SemanticBlock :=
  match fuel with
  | O => []
  | S fuel' =>
      if current_pos <? len s then
        match first_protected protected_ranges current_pos with
        | Some (start, end_, true) =>
            {| sb_text := slice s start end_;
               block_type := if range_mem (start, end_) code_ranges then code else table;
               start_offset := start; end_offset := end_ |}
            :: parse_loop fuel' s code_ranges protected_ranges end_
        | Some (start, _, false) =>
            _parse_paragraphs_and_lists (slice s current_pos start) current_pos
            ++ parse_loop fuel' s code_ranges protected_ranges start
        | None =>
            let next_protected :=
              match List.find (fun r : Z * Z => current_pos <? r.1) protected_ranges with
              | Some r => r.1
              | None => len s
              end in
            _parse_paragraphs_and_lists (slice s current_pos next_protected) current_pos
            ++ parse_loop fuel' s code_ranges protected_ranges next_protected
        end
      else []
  end.

(** [_parse_semantic_blocks] *)
Definition _parse_semantic_blocks (s : str) : list SemanticBlock :=
  let code_ranges :=
    (fun m : nat * nat => (Z.of_nat m.1, Z.of_nat m.2)) <$> finditer code_block_match s in
  let table_ranges := _find_table_ranges s in
  let protected_ranges := sort_by_start (code_ranges ++ table_ranges) in
  parse_loop (S (length s)) s code_ranges protected_ranges 0.

(** [_semantic_chunk]: one round of the loop over the blocks *)
Definition chunk_step (max_chars min_chars overlap_chars : Z) (a : Acc)
    (block : SemanticBlock) : Acc :=
  let block_text := sb_text block in
  if max_chars <? len block_text then
    let flushed :=
      if nonblank (current_chunk a) then chunks a ++ [close_raw a] else chunks a in
    let kept := if nonblank (current_chunk a) then [] else current_chunk a in
    let sub_chunks := _split_large_block block max_chars min_chars in
    let chunks' :=
      flushed ++ ((fun x : Span =>
                     (x.1.1, start_offset block + x.1.2, start_offset block + x.2))
                  <$> sub_chunks) in
    {| chunks := chunks';
       current_chunk := kept;
       current_start := match last chunks' with
                        | Some x => x.2
                        | None => current_start a
                        end |}
  else if nonempty (current_chunk a)
          && (max_chars <? len (current_chunk a) + len block_text + 2) then
    if min_chars <=? len (strip (current_chunk a)) then
      let overlap_text := _get_overlap_text (current_chunk a) overlap_chars in
      {| chunks := chunks a ++ [close_raw a];
         current_chunk := if nonempty overlap_text
                          then overlap_text ++ sep2 ++ block_text else block_text;
         current_start := if nonempty overlap_text
                          then start_offset block - len overlap_text
                          else start_offset block |}
    else
      {| chunks := chunks a;
         current_chunk := current_chunk a ++ sep2 ++ block_text;
         current_start := current_start a |}
  else if nonempty (current_chunk a) then
    {| chunks := chunks a;
       current_chunk := current_chunk a ++ sep2 ++ block_text;
       current_start := current_start a |}
  else
    {| chunks := chunks a;
       current_chunk := block_text;
       current_start := start_offset block |}.

(** [_semantic_chunk] *)
Definition _semantic_chunk (s : str) (max_chars min_chars overlap_chars : Z)
    : list Span :=
  if negb (nonempty s) then []
  else
    match _parse_semantic_blocks s with
    | [] => whole s
    | blocks =>
        let a := foldl (chunk_step max_chars min_chars overlap_chars)
                   {| chunks := []; current_chunk := []; current_start := 0 |} blocks in
        let out := if nonblank (current_chunk a) then chunks a ++ [close_raw a]
                   else chunks a in
        match out with
        | [] => whole s
        | _ => out
        end
    end.

(** A section: [(section_path, section_body, section_start_offset)] *)
Definition Sec : Type := option str * str * Z.

Definition colon : char := 58%N.

(** [f"{heading_level}:{heading_text}"] for the match that starts at [start] *)
Definition section_marker (s : str) (start : nat) : str :=
  match section_groups (drop start s) with
  | Some (h, w, t) =>
      str_of_int (Z.of_nat h) ++ [colon] ++ strip (take t (drop (start + h + w) s))
  | None => []
  end.

(** The [for index, match in enumerate(matches)] loop of [_split_sections];
    [first] is [index == 0]. *)
Fixpoint raw_sections_loop (s : str) (matches : list (nat * nat)) (first : bool)
    (preamble : str) (preamble_start : Z) : list Sec :=
  match matches with
  | [] => []
  | m :: rest =>
      let start := Z.of_nat m.1 in
      let end_ := match rest with
                  | m' :: _ => Z.of_nat m'.1
                  | [] => len s
                  end in
      let section_marker := Some (section_marker s m.1) in
      (if first && nonempty preamble
       then (section_marker, preamble ++ slice s start end_, preamble_start)
       else (section_marker, slice s start end_, start))
      :: raw_sections_loop s rest false preamble preamble_start
  end.

(** The state of the merging loop of [_split_sections] *)
Record SecAcc := {
  merged_sections : list Sec;
  pending_body : str;
  pending_path : option str;
  pending_start : Z;
}.

Definition section_merge_step (min_section_chars : Z) (a : SecAcc) (sec : Sec)
    : SecAcc :=
  let '(section_path, section_body, section_start) := sec in
  if nonempty (pending_body a) then
    let combined_body := pending_body a ++ [nl] ++ section_body in
    if min_section_chars <=? len (strip combined_body) then
      {| merged_sections :=
           merged_sections a ++ [(pending_path a, combined_body, pending_start a)];
         pending_body := []; pending_path := None;
         pending_start := pending_start a |}
    else
      {| merged_sections := merged_sections a;
         pending_body := combined_body; pending_path := pending_path a;
         pending_start := pending_start a |}
  else if len (strip section_body) <? min_section_chars then
    {| merged_sections := merged_sections a;
       pending_body := section_body; pending_path := section_path;
       pending_start := section_start |}
  else
    {| merged_sections := merged_sections a ++ [sec];
       pending_body := pending_body a; pending_path := pending_path a;
       pending_start := pending_start a |}.

(** [merged_sections[-1] = (last_path, last_body + "\n" + pending_body, last_start)] *)
Fixpoint append_to_last (secs : list Sec) (extra : str) : list Sec :=
  match secs with
  | [] => []
  | [(last_path, last_body, last_start)] =>
      [(last_path, last_body ++ [nl] ++ extra, last_start)]
  | x :: rest => x :: append_to_last rest extra
  end.

(** [_split_sections] *)
Definition _split_sections (p : ChunkingPipeline) (s : str) : list Sec :=
  if negb (nonempty s) then [(None, [], 0)]
  else
    match finditer section_match s with
    | [] => [(None, s, 0)]
    | (m0 :: _) as matches =>
        let first_match_start := Z.of_nat m0.1 in
        let preamble0 := slice_to s first_match_start in
        let substantial :=
          (0 <? first_match_start) && nonblank preamble0 && (300 <? len preamble0) in
        let raw_sections :=
          (if substantial then [(None, preamble0, 0)] else [])
          ++ raw_sections_loop s matches true
               (if (0 <? first_match_start) && negb substantial then preamble0 else [])
               0 in
        let min_section_chars := min_chunk_tokens p * char_ratio p in
        let a := foldl (section_merge_step min_section_chars)
                   {| merged_sections := []; pending_body := [];
                      pending_path := None; pending_start := 0 |} raw_sections in
        let merged :=
          if nonempty (pending_body a) then
            match merged_sections a with
            | [] => [(pending_path a, pending_body a, pending_start a)]
            | secs => append_to_last secs (pending_body a)
            end
          else merged_sections a in
        match merged with
        | [] => [(None, s, 0)]
        | _ => merged
        end
    end.

(** [_token_count] *)
Definition estimate (p : ChunkingPipeline) (s : str) : Z :=
  Z.max (len s / char_ratio p) 1.

Definition _token_count (p : ChunkingPipeline) (s : str) : Z :=
  match tokenizer p with
  | None => estimate p s
  | Some encode =>
      match encode s with
      | Some n => n
      | None => estimate p s
      end
  end.

(** [_chunk_id] *)
Definition _chunk_id (file_id : str) (ordinal start_offset : Z) : str :=
  xxh64_hexdigest
    (file_id ++ [colon] ++ str_of_int ordinal ++ [colon] ++ str_of_int start_offset).

(** [sorted(pages)] for the set [pages] *)
Fixpoint insert_page (n : Z) (sorted : list Z) : list Z :=
  match sorted with
  | [] => [n]
  | x :: rest =>
      if n <? x then n :: sorted
      else if n =? x then sorted
      else x :: insert_page n rest
  end.

(** [_get_pages_for_range] *)
Definition _get_pages_for_range (start end_ : Z) (page_mapping : list (Z * Z * Z))
    : list Z :=
  foldl (fun pages '(page_start, page_end, page_num) =>
           if (start <? page_end) && (page_start <? end_)
           then insert_page page_num pages else pages)
        [] page_mapping.

(** The page keys written under [if page_mapping:] and [if pages:];
    [None] when nothing is written. *)
Definition page_keys (page_mapping : option (list (Z * Z * Z))) (start end_ : Z)
    : option (list Z) :=
  match page_mapping with
  | Some ((_ :: _) as pm) =>
      match _get_pages_for_range start end_ pm with
      | [] => None
      | pages => Some pages
      end
  | _ => None
  end.

Definition or_else {A} (new old : option A) : option A :=
  match new with Some _ => new | None => old end.

(** The body of the inner [for chunk_text, rel_start, rel_end in chunks]
    loop of [build]; the state is the payload list and [ordinal]. *)
Definition payload_step (p : ChunkingPipeline) (now : Z) (fid : str)
    (page_mapping : option (list (Z * Z * Z)))
    (section_path : option str) (section_start_offset : Z) (n_chunks : nat)
    (st : list ChunkPayload * Z) (c : Span) : list ChunkPayload * Z :=
  let '(payloads, ordinal) := st in
  let '(chunk_text, rel_start, rel_end) := c in
  let clean_text := strip chunk_text in
  if negb (nonempty clean_text) then st
  else
    let token_count := _token_count p clean_text in
    if (token_count <? min_chunk_tokens p) && (1 <? n_chunks)%nat then st
    else
      let abs_start := section_start_offset + rel_start in
      let abs_end := section_start_offset + rel_end in
      (payloads ++
         [{| chunk_id := _chunk_id fid ordinal abs_start;
             file_id := fid;
             ordinal := ordinal;
             text := clean_text;
             snippet := slice_to clean_text 400;
             token_count := token_count;
             char_count := len clean_text;
             section_path := section_path;
             metadata := {| md_section_path := section_path;
                            start_char := abs_start;
                            end_char := abs_end;
                            page_numbers := page_keys page_mapping abs_start abs_end |};
             created_at := now |}],
       ordinal + 1).

(** The body of the outer [for ... in sections] loop of [build] *)
Definition section_step (p : ChunkingPipeline) (now : Z) (fid : str)
    (page_mapping : option (list (Z * Z * Z)))
    (max_chunk_chars min_chunk_chars overlap_chars : Z)
    (st : list ChunkPayload * Z) (sec : Sec) : list ChunkPayload * Z :=
  let '(section_path, section_body, section_start_offset) := sec in
  if negb (nonblank section_body) then st
  else
    let chunks :=
      _semantic_chunk section_body max_chunk_chars min_chunk_chars overlap_chars in
    foldl (payload_step p now fid page_mapping section_path section_start_offset
             (length chunks)) st chunks.

(** [pending.section_path or ""] *)
Definition path_or_empty (o : option str) : str := default [] o.

(** The payload built in the [if should_merge:] branch *)
Definition merge_forward (p : ChunkingPipeline)
    (page_mapping : option (list (Z * Z * Z))) (pending payload : ChunkPayload)
    : ChunkPayload :=
  let combined_text := text pending ++ sep2 ++ text payload in
  let pending_section := path_or_empty (section_path pending) in
  let current_section := path_or_empty (section_path payload) in
  let combined_section :=
    if nonempty pending_section && nonempty current_section
       && negb (bool_decide (pending_section = current_section))
    then pending_section ++ of_string " | " ++ current_section
    else if nonempty pending_section then pending_section else current_section in
  let start := start_char (metadata pending) in
  let end_ := end_char (metadata payload) in
  {| chunk_id := chunk_id pending;
     file_id := file_id pending;
     ordinal := ordinal pending;
     text := combined_text;
     snippet := slice_to combined_text 400;
     token_count := _token_count p combined_text;
     char_count := len combined_text;
     section_path := Some combined_section;
     metadata := {| md_section_path := md_section_path (metadata pending);
                    start_char := start;
                    end_char := end_;
                    page_numbers := or_else (page_keys page_mapping start end_)
                                      (page_numbers (metadata pending)) |};
     created_at := created_at pending |}.

(** The payload built when the dangling [pending] joins [merged[-1]] *)
Definition merge_backward (p : ChunkingPipeline)
    (page_mapping : option (list (Z * Z * Z))) (last_ pending : ChunkPayload)
    : ChunkPayload :=
  let combined_text := text last_ ++ sep2 ++ text pending in
  let start := start_char (metadata last_) in
  let end_ := end_char (metadata pending) in
  {| chunk_id := chunk_id last_;
     file_id := file_id last_;
     ordinal := ordinal last_;
     text := combined_text;
     snippet := slice_to combined_text 400;
     token_count := _token_count p combined_text;
     char_count := len combined_text;
     section_path := section_path last_;
     metadata := {| md_section_path := md_section_path (metadata last_);
                    start_char := start;
                    end_char := end_;
                    page_numbers := or_else (page_keys page_mapping start end_)
                                      (page_numbers (metadata last_)) |};
     created_at := created_at last_ |}.

(** [should_merge]. The source compares with the float [max_chars * 1.5];
    on integers that is [2 * combined_chars <= 3 * max_chars]. *)
Definition should_merge (min_chars max_chars : Z) (pending payload : ChunkPayload)
    : bool :=
  let combined_chars := char_count pending + char_count payload + 2 in
  (combined_chars <=? max_chars)
  || ((char_count payload <? min_chars) && (2 * combined_chars <=? 3 * max_chars)).

(** One round of the [for payload in payloads] loop of
    [_merge_small_chunks]; the state is [(merged, pending)]. *)
Definition merge_step (p : ChunkingPipeline)
    (page_mapping : option (list (Z * Z * Z))) (min_chars max_chars : Z)
    (st : list ChunkPayload * option ChunkPayload) (payload : ChunkPayload)
    : list ChunkPayload * option ChunkPayload :=
  let '(merged, pending) := st in
  match pending with
  | None =>
      if char_count payload <? min_chars then (merged, Some payload)
      else (merged ++ [payload], None)
  | Some pending =>
      if should_merge min_chars max_chars pending payload then
        let merged_payload := merge_forward p page_mapping pending payload in
        if char_count merged_payload <? min_chars then (merged, Some merged_payload)
        else (merged ++ [merged_payload], None)
      else if char_count payload <? min_chars then (merged ++ [pending], Some payload)
      else (merged ++ [pending; payload], None)
  end.

(** The handling of the remaining [pending] chunk *)
Definition merge_finish (p : ChunkingPipeline)
    (page_mapping : option (list (Z * Z * Z))) (max_chars : Z)
    (st : list ChunkPayload * option ChunkPayload) : list ChunkPayload :=
  let '(merged, pending) := st in
  match pending with
  | None => merged
  | Some pending =>
      match last merged with
      | Some last_ =>
          if char_count last_ + char_count pending + 2 <=? max_chars
          then removelast merged ++ [merge_backward p page_mapping last_ pending]
          else merged ++ [pending]
      | None => merged ++ [pending]
      end
  end.

Definition set_ordinal (i : Z) (c : ChunkPayload) : ChunkPayload :=
  {| chunk_id := chunk_id c; file_id := file_id c; ordinal := i; text := text c;
     snippet := snippet c; token_count := token_count c;
     char_count := char_count c; section_path := section_path c;
     metadata := metadata c; created_at := created_at c |}.

(** [for i, payload in enumerate(merged): payload.ordinal = i] *)
Definition renumber (l : list ChunkPayload) : list ChunkPayload :=
  imap (fun i c => set_ordinal (Z.of_nat i) c) l.

(** [_merge_small_chunks] *)
Definition _merge_small_chunks (p : ChunkingPipeline) (payloads : list ChunkPayload)
    (min_chars max_chars : Z) (page_mapping : option (list (Z * Z * Z)))
    : list ChunkPayload :=
  if (length payloads <=? 1)%nat then payloads
  else
    renumber
      (merge_finish p page_mapping max_chars
         (foldl (merge_step p page_mapping min_chars max_chars) ([], None) payloads)).

(** The payloads [build] has collected when it reaches the merge pass *)
Definition build_payloads (p : ChunkingPipeline) (now : Z) (fid : str) (s : str)
    (page_mapping : option (list (Z * Z * Z)))
    (max_chunk_chars min_chunk_chars overlap_chars : Z) : list ChunkPayload :=
  (foldl (section_step p now fid page_mapping
            max_chunk_chars min_chunk_chars overlap_chars)
         ([], 0) (_split_sections p s)).1.

Definition max_chunk_chars (p : ChunkingPipeline) (chunk_tokens_arg : option Z) : Z :=
  default (chunk_tokens p) chunk_tokens_arg * char_ratio p.

Definition min_chunk_chars (p : ChunkingPipeline) : Z :=
  min_chunk_tokens p * char_ratio p.

Definition overlap_chars (p : ChunkingPipeline) (overlap_tokens_arg : option Z) : Z :=
  default (overlap_tokens p) overlap_tokens_arg * char_ratio p.

(** [ChunkingPipeline.build]. [now] is the clock reading taken on entry;
    an argument left at its default [None] is [None] here. *)
Definition build (p : ChunkingPipeline) (now : Z) (fid : str) (s : str)
    (page_mapping : option (list (Z * Z * Z)))
    (chunk_tokens_arg overlap_tokens_arg : option Z) : list ChunkPayload :=
  if negb (nonempty s) || negb (nonblank s) then []
  else
    let max_chars := max_chunk_chars p chunk_tokens_arg in
    let min_chars := min_chunk_chars p in
    let payloads :=
      build_payloads p now fid s page_mapping max_chars min_chars
        (overlap_chars p overlap_tokens_arg) in
    _merge_small_chunks p payloads min_chars max_chars page_mapping.

End Externals.

End Chunker.

Import Chunker.

(** A digest for worked examples: the key itself. No statement below
    depends on what the digest of a key is. *)
Definition key_digest (key : str) : str := key.

Definition build_ascii := build ascii_decimal key_digest.

(** ** indexer.py: change detection, embedding and the store stage *)

Module Indexer.

(** A value held in a [metadata] dict *)
Inductive Value :=
  | VNone
  | VBool (b : bool)
  | VInt (z : Z)
  | VStr (s : str)
  | VList (l : list str).

Global Instance Value_eq_dec : EqDecision Value.
Proof. solve_decision. Defined.

(** [bool(v)] *)
Definition truthy (v : Value) : bool :=
  match v with
  | VNone => false
  | VBool b => b
  | VInt z => negb (z =? 0)
  | VStr s => nonempty s
  | VList l => match l with [] => false | _ => true end
  end.

Inductive FileIndexStatus := pending | indexed | error.

Definition key_vector_chunks : str := of_string "vector_chunks".
Definition key_chunk_strategy : str := of_string "chunk_strategy".

Section Store.

(** An embedding vector ([list[float]]); only its identity matters here. *)
Variable Vector : Type.

(** [FileRecord]. Times are microseconds since the epoch, UTC. The fields
    [name], [extension], [created_at], [kind], [hash], [mime_type],
    [duration_seconds] and [page_count], which the functions below only
    carry along, are left out. *)
Record FileRecord := {
  id : str;
  folder_id : str;
  path : str;
  size : Z;
  modified_at : Z;
  checksum_sha256 : option str;
  summary : option str;
  preview_image : option str;
  metadata : gmap str Value;
  embedding_vector : option Vector;
  embedding_determined_at : option Z;
  index_status : FileIndexStatus;
  error_reason : option str;
  error_at : option Z;
}.

(** [ChunkSnapshot], as far as the store stage reads it *)
Record ChunkSnapshot := {
  chunk_id : str;
  text : str;
  snippet : str;
  section_path : option str;
}.

(** [IngestArtifact] *)
Record IngestArtifact := {
  record : FileRecord;
  chunks : list ChunkSnapshot;
}.

(** [VectorDocument]; of its metadata dict only [file_id] is kept. *)
Record VectorDocument := {
  doc_id : str;
  vector : Vector;
  doc_file_id : str;
}.

(** Calls made on the vector store *)
Inductive VsCall :=
  | VsDelete (ids : Value)
  | VsUpsert (docs : list VectorDocument)
  | VsFlush.

Inductive Exn :=
  | RuntimeError (returned expected : nat)
  | ClientError.

(** [settings] *)
Record Settings := {
  reuse_embeddings : bool;
  embed_batch_size : Z;
  embed_max_chars : Z;
}.

(** What the orchestrator's collaborators hold and have been asked:
    the [files] and [chunks] tables of the storage, the calls received by
    the vector store and the batches sent to the embedding client. *)
Record World := {
  files : gmap str FileRecord;
  stored_chunks : gmap str (list ChunkSnapshot);
  vs_calls : list VsCall;
  embed_calls : list (list str);
}.

(** The embedding client: what the [n]-th call of [encode] answers to a
    batch of texts, a list of vectors of any length or an exception. *)
Variable encode : nat → list str → Exn + list Vector.

(** Whether a call on the vector store raises, given the calls before it. *)
Variable vs_raises : list VsCall → VsCall → bool.

Variable settings : Settings.

Definition set_files (w : World) (f : gmap str FileRecord) : World :=
  {| files := f; stored_chunks := stored_chunks w;
     vs_calls := vs_calls w; embed_calls := embed_calls w |}.

(** [storage.upsert_file], [storage.replace_chunks], [storage.get_file] *)
Definition upsert_file (w : World) (r : FileRecord) : World :=
  set_files w (<[id r := r]> (files w)).

Definition replace_chunks (w : World) (fid : str) (cs : list ChunkSnapshot) : World :=
  {| files := files w; stored_chunks := <[fid := cs]> (stored_chunks w);
     vs_calls := vs_calls w; embed_calls := embed_calls w |}.

Definition get_file (w : World) (fid : str) : option FileRecord := files w !! fid.

Definition set_status (r : FileRecord) (st : FileIndexStatus)
    (reason : option str) (at_ : option Z) : FileRecord :=
  {| id := id r; folder_id := folder_id r; path := path r; size := size r;
     modified_at := modified_at r; checksum_sha256 := checksum_sha256 r;
     summary := summary r; preview_image := preview_image r;
     metadata := metadata r; embedding_vector := embedding_vector r;
     embedding_determined_at := embedding_determined_at r;
     index_status := st; error_reason := reason; error_at := at_ |}.

(** [storage.mark_file_indexed] and [storage.mark_file_error]: an UPDATE
    of the row with that id, if there is one *)
Definition mark_file_indexed (w : World) (fid : str) : World :=
  set_files w (alter (fun r => set_status r indexed None None) fid (files w)).

Definition mark_file_error (w : World) (fid : str) (reason : str) (now : Z) : World :=
  set_files w (alter (fun r => set_status r error (Some reason) (Some now)) fid (files w)).

(** A call on the vector store: it is recorded, and it raises or not. *)
Definition vs_call (w : World) (c : VsCall) : World * bool :=
  ({| files := files w; stored_chunks := stored_chunks w;
      vs_calls := vs_calls w ++ [c]; embed_calls := embed_calls w |},
   vs_raises (vs_calls w) c).

(** [await self.embedding_client.encode(texts)] *)
Definition call_encode (w : World) (texts : list str) : World * (Exn + list Vector) :=
  ({| files := files w; stored_chunks := stored_chunks w;
      vs_calls := vs_calls w; embed_calls := embed_calls w ++ [texts] |},
   encode (length (embed_calls w)) texts).

(** [range(0, len(l), batch_size)] with [l[start:start + batch_size]] *)
Fixpoint batches_of {A} (fuel : nat) (batch_size : nat) (l : list A) : list (list A) :=
  match fuel, l with
  | S f, _ :: _ => take batch_size l :: batches_of f batch_size (drop batch_size l)
  | _, _ => []
  end.

(** [texts = [text[:max_chars] for _, text in batch]] *)
Definition batch_texts (batch : list str) : list str :=
  (fun t => slice_to t (embed_max_chars settings)) <$> batch.

(** The [for batch_index, start in ...] loop of [_embed_chunks] *)
Fixpoint embed_loop (w : World) (batches : list (list str)) (vectors : list Vector)
    : World * (Exn + list Vector) :=
  match batches with
  | [] => (w, inr vectors)
  | batch :: rest =>
      let '(w1, response) := call_encode w (batch_texts batch) in
      match response with
      | inl e => (w1, inl e)
      | inr response_vectors =>
          if bool_decide (length response_vectors = length batch)
          then embed_loop w1 rest (vectors ++ response_vectors)
          else (w1, inl (RuntimeError (length response_vectors) (length batch)))
      end
  end.

(** The stripped, non-empty chunk texts and the batches they are sent in *)
Definition chunk_payloads (cs : list ChunkSnapshot) : list str :=
  filter (fun t => nonempty t = true) ((fun c => strip (text c)) <$> cs).

Definition embed_batches (cs : list ChunkSnapshot) : list (list str) :=
  let batch_size := Z.to_nat (Z.max (embed_batch_size settings) 1) in
  batches_of (length (chunk_payloads cs)) batch_size (chunk_payloads cs).

(** [_embed_chunks] *)
Definition _embed_chunks (w : World) (cs : list ChunkSnapshot)
    : World * (Exn + list Vector) :=
  match chunk_payloads cs with
  | [] => (w, inr [])
  | _ => embed_loop w (embed_batches cs) []
  end.

(** [previous_chunk_ids] in [_store_artifact] *)
Definition previous_chunk_ids (existing : option FileRecord) : Value :=
  match existing with
  | Some e => default VNone (metadata e !! key_vector_chunks)
  | None => VList []
  end.

(** The test [reuse_vectors] of [_store_artifact]; when it holds, the
    stored record the fast path copies from. *)
Definition reuse_vectors (existing : option FileRecord) (a : IngestArtifact)
    (refresh_embeddings : bool) : option FileRecord :=
  match existing with
  | None => None
  | Some e =>
      if bool_decide (checksum_sha256 e = checksum_sha256 (record a))
         && bool_decide (is_Some (embedding_vector e))
         && truthy (previous_chunk_ids existing)
         && reuse_embeddings settings
         && negb refresh_embeddings
         && bool_decide (metadata e !! key_chunk_strategy
                         = metadata (record a) !! key_chunk_strategy)
      then Some e else None
  end.

(** [x or y] on optional bytes *)
Definition bytes_or (x y : option str) : option str :=
  match x with
  | Some (_ :: _) => x
  | _ => y
  end.

(** [dict.setdefault] *)
Definition setdefault (m : gmap str Value) (k : str) (v : Value) : gmap str Value :=
  match m !! k with
  | Some _ => m
  | None => <[k := v]> m
  end.

(** The record written on the reuse fast path *)
Definition reused_record (e r : FileRecord) : FileRecord :=
  {| id := id r; folder_id := folder_id r; path := path r; size := size r;
     modified_at := modified_at r; checksum_sha256 := checksum_sha256 r;
     summary := summary e;
     preview_image := bytes_or (preview_image r) (preview_image e);
     metadata := setdefault (metadata r) key_vector_chunks (previous_chunk_ids (Some e));
     embedding_vector := embedding_vector e;
     embedding_determined_at := embedding_determined_at e;
     index_status := indexed; error_reason := None; error_at := None |}.

(** The record written at the end of the full path *)
Definition stored_record (r : FileRecord) (doc_ids : list str)
    (vectors : list Vector) (now : Z) : FileRecord :=
  {| id := id r; folder_id := folder_id r; path := path r; size := size r;
     modified_at := modified_at r; checksum_sha256 := checksum_sha256 r;
     summary := summary r; preview_image := preview_image r;
     metadata := <[key_vector_chunks := VList doc_ids]> (metadata r);
     embedding_vector := match vectors with
                         | v :: _ => Some v
                         | [] => embedding_vector r
                         end;
     embedding_determined_at := match vectors with
                                | _ :: _ => Some now
                                | [] => embedding_determined_at r
                                end;
     index_status := indexed; error_reason := None; error_at := None |}.

(** [_store_artifact] below the fast path: embed, replace the vectors,
    persist. An exception of [_embed_chunks] is caught and leaves no
    vectors; one of the vector store is caught too. *)
Definition store_full (w : World) (a : IngestArtifact) (previous : Value) (now : Z)
    : World :=
  let chunk_snapshots := chunks a in
  let '(w1, embedded) := _embed_chunks w chunk_snapshots in
  let vectors := match embedded with inr vs => vs | inl _ => [] end in
  let documents :=
    (fun cv : ChunkSnapshot * Vector =>
       {| doc_id := chunk_id cv.1; vector := cv.2; doc_file_id := id (record a) |})
    <$> zip chunk_snapshots vectors in
  let w2 := if truthy previous then (vs_call w1 (VsDelete previous)).1 else w1 in
  let '(w3, documents) :=
    match documents with
    | [] => (w2, documents)
    | _ =>
        let '(w', raised) := vs_call w2 (VsUpsert documents) in
        if raised then (w', [])
        else
          let '(w'', raised') := vs_call w' VsFlush in
          (w'', if raised' then [] else documents)
    end in
  let r := stored_record (record a) (doc_id <$> documents) vectors now in
  replace_chunks (upsert_file w3 r) (id r) chunk_snapshots.

(** [_store_artifact]; [now] is the clock reading it takes. *)
Definition _store_artifact (w : World) (a : IngestArtifact)
    (refresh_embeddings : bool) (now : Z) : World :=
  let existing := get_file w (id (record a)) in
  match reuse_vectors existing a refresh_embeddings with
  | Some e => upsert_file w (reused_record e (record a))
  | None => store_full w a (previous_chunk_ids existing) now
  end.

(** [_process_single_file] from the store stage on. [prepared] is what
    [_scan_file] and [_enrich_artifact] produced for the file: the artifact,
    or the text of the exception one of them raised. *)
Definition _process_single_file (w : World) (file_id : str)
    (prepared : str + IngestArtifact) (refresh_embeddings : bool) (now : Z)
    : World * bool :=
  match prepared with
  | inr a => (mark_file_indexed (_store_artifact w a refresh_embeddings now) file_id, true)
  | inl error_reason => (mark_file_error w file_id error_reason now, false)
  end.

(** [os.stat_result], as far as change detection reads it *)
Record Stat := {
  st_mtime : Z;
  st_size : Z;
}.

(** [_fingerprint] (the SHA-1 of the resolved path) and [path.stat()],
    which raises [OSError] ([None]) for a file that cannot be read. *)
Variable _fingerprint : str → str.
Variable stat : str → option Stat.

Definition second : Z := 1000000.

(** The body of the loop of [_paths_to_refresh]: whether [path] is appended
    to [changed] *)
Definition changed (w : World) (failed_paths : list str) (p : str) : bool :=
  if bool_decide (p ∈ failed_paths) then true
  else
    match get_file w (_fingerprint p) with
    | None => true
    | Some existing =>
        match stat p with
        | None => true
        | Some st =>
            if second <=? Z.abs (st_mtime st - modified_at existing) then true
            else if negb (size existing =? st_size st) then true
            else match checksum_sha256 existing with
                 | Some (_ :: _) => false
                 | _ => true
                 end
        end
    end.

(** [_paths_to_refresh]; [failed_paths] are the paths of
    [folder.failed_files]. *)
Definition _paths_to_refresh (w : World) (failed_paths : list str)
    (paths : list str) (refresh_embeddings : bool) : list str :=
  if refresh_embeddings then paths
  else filter (fun p => changed w failed_paths p = true) paths.

End Store.

Arguments id {Vector}.
Arguments folder_id {Vector}.
Arguments path {Vector}.
Arguments size {Vector}.
Arguments modified_at {Vector}.
Arguments checksum_sha256 {Vector}.
Arguments summary {Vector}.
Arguments preview_image {Vector}.
Arguments metadata {Vector}.
Arguments embedding_vector {Vector}.
Arguments embedding_determined_at {Vector}.
Arguments index_status {Vector}.
Arguments error_reason {Vector}.
Arguments error_at {Vector}.
Arguments record {Vector}.
Arguments chunks {Vector}.
Arguments doc_id {Vector}.
Arguments vector {Vector}.
Arguments doc_file_id {Vector}.
Arguments VsDelete {Vector}.
Arguments VsUpsert {Vector}.
Arguments VsFlush {Vector}.
Arguments files {Vector}.
Arguments stored_chunks {Vector}.
Arguments vs_calls {Vector}.
Arguments embed_calls {Vector}.
Arguments set_files {Vector}.
Arguments upsert_file {Vector}.
Arguments replace_chunks {Vector}.
Arguments get_file {Vector}.
Arguments set_status {Vector}.
Arguments mark_file_indexed {Vector}.
Arguments mark_file_error {Vector}.
Arguments vs_call {Vector}.
Arguments call_encode {Vector}.
Arguments embed_loop {Vector}.
Arguments _embed_chunks {Vector}.
Arguments previous_chunk_ids {Vector}.
Arguments reuse_vectors {Vector}.
Arguments reused_record {Vector}.
Arguments stored_record {Vector}.
Arguments store_full {Vector}.
Arguments _store_artifact {Vector}.
Arguments _process_single_file {Vector}.
Arguments changed {Vector}.
Arguments _paths_to_refresh {Vector}.

(** *** The run: progress, pause and resume, the per-file loop *)

Inductive RunStatus := idle | running | paused | failed | completed.

Global Instance RunStatus_eq_dec : EqDecision RunStatus.
Proof. solve_decision. Defined.

(** [FailedFile] *)
Record FailedFile := {
  ff_path : str;
  ff_reason : str;
  ff_timestamp : Z;
}.

(** [IndexProgress] *)
Record IndexProgress := {
  status : RunStatus;
  started_at : option Z;
  completed_at : option Z;
  processed : Z;
  failed_count : Z;
  total : option Z;
  message : option str;
  last_error : option str;
  failed_items : list FailedFile;
}.

(** The attributes of [Indexer] that the run, [pause] and [resume] use.
    [lock_locked] is [self._lock.locked()], [pause_event] is whether
    [self._pause_event] is set, [pending_paths] is the queue
    [self._pending_paths[folder.id]] of the folder being processed. *)
Record Orchestrator := {
  progress : IndexProgress;
  lock_locked : bool;
  is_paused : bool;
  pause_event : bool;
  cancelled_folders : list str;
  current_run_started : option Z;
  current_run_total : Z;
  current_processed : Z;
  pending_paths : list str;
  active_path : option str;
}.

Definition with_progress (o : Orchestrator) (p : IndexProgress) : Orchestrator :=
  {| progress := p; lock_locked := lock_locked o; is_paused := is_paused o;
     pause_event := pause_event o; cancelled_folders := cancelled_folders o;
     current_run_started := current_run_started o;
     current_run_total := current_run_total o;
     current_processed := current_processed o;
     pending_paths := pending_paths o; active_path := active_path o |}.

Definition with_pause (o : Orchestrator) (flag event : bool) : Orchestrator :=
  {| progress := progress o; lock_locked := lock_locked o; is_paused := flag;
     pause_event := event; cancelled_folders := cancelled_folders o;
     current_run_started := current_run_started o;
     current_run_total := current_run_total o;
     current_processed := current_processed o;
     pending_paths := pending_paths o; active_path := active_path o |}.

(** [x or None] on an [int] *)
Definition or_none (z : Z) : option Z := if z =? 0 then None else Some z.

(** [status] *)
Definition get_status (o : Orchestrator) : IndexProgress := progress o.

(** [_set_running_progress] *)
Definition _set_running_progress (o : Orchestrator) (msg : option str) : Orchestrator :=
  match current_run_started o with
  | None => o
  | Some started =>
      with_progress o
        {| status := running;
           started_at := Some started;
           completed_at := None;
           processed := current_processed o;
           failed_count := failed_count (progress o);
           total := or_none (current_run_total o);
           message := match msg with
                      | Some _ => msg
                      | None => message (progress o)
                      end;
           last_error := None;
           failed_items := failed_items (progress o) |}
  end.

(** [pause] *)
Definition pause (o : Orchestrator) : Orchestrator * IndexProgress :=
  if negb (bool_decide (status (progress o) = running)) || is_paused o
  then (o, progress o)
  else
    let o1 := with_pause o true false in
    let o2 :=
      with_progress o1
        {| status := paused;
           started_at := current_run_started o1;
           completed_at := None;
           processed := current_processed o1;
           failed_count := failed_count (progress o1);
           total := or_none (current_run_total o1);
           message := Some (of_string "Indexing paused.");
           last_error := last_error (progress o1);
           failed_items := failed_items (progress o1) |} in
    (o2, progress o2).

(** The message of [resume], which ends in an ellipsis (U+2026) *)
Definition resuming_message : str := of_string "Resuming indexing" ++ [8230%N].

(** [resume] *)
Definition resume (o : Orchestrator) : Orchestrator * IndexProgress :=
  if negb (is_paused o) then (o, progress o)
  else
    let o1 := _set_running_progress (with_pause o false true)
                (Some resuming_message) in
    (o1, progress o1).

(** Where the coroutine of [_process_folder] is suspended inside its
    [for path in process_list] loop: on [await self._pause_event.wait()]
    before [path], inside [await self._process_single_file(...)] for
    [path], or past the loop. [rest] are the paths after [path].

    [asyncio.Event.wait] returns at once when the event is set; otherwise
    it adds a future to the waiters of the event and awaits it. [set()]
    resolves the futures of the waiters, and [clear()] leaves a resolved
    future resolved. So a coroutine in the wait is either [Waiting], with
    its future pending, or [Woken]: a [set()] has resolved its future and
    the wait returns when the event loop runs the coroutine next, whatever
    has happened to the event in between. *)
Inductive Loop :=
  | Waiting (path : str) (rest : list str)
  | Woken (path : str) (rest : list str)
  | InFile (path : str) (rest : list str)
  | Finished.

(** [path.name]: the last component of a path *)
Definition path_name (p : str) : str :=
  reverse (take_while (fun c => negb (c =? 47)%N) (reverse p)).

(** From the wait to the first suspension inside the file: the queue is
    popped if [path] is at its head and the file becomes active;
    [_process_single_file] reports the file name in the progress. *)
Definition begin_file (o : Orchestrator) (p : str) : Orchestrator :=
  let queue := match pending_paths o with
               | q :: qs => if bool_decide (q = p) then qs else q :: qs
               | [] => []
               end in
  _set_running_progress
    {| progress := progress o; lock_locked := lock_locked o;
       is_paused := is_paused o; pause_event := pause_event o;
       cancelled_folders := cancelled_folders o;
       current_run_started := current_run_started o;
       current_run_total := current_run_total o;
       current_processed := current_processed o;
       pending_paths := queue; active_path := Some p |}
    (Some (of_string "Indexing " ++ path_name p)).

(** The head of the loop, run without suspension until the coroutine
    blocks or ends: the cancellation test, then the wait, which returns at
    once when the event is set. *)
Definition loop_head (o : Orchestrator) (folder : str) (process_list : list str)
    : Orchestrator * Loop :=
  match process_list with
  | [] => (o, Finished)
  | p :: rest =>
      if bool_decide (folder ∈ cancelled_folders o) then (o, Finished)
      else if pause_event o then (begin_file o p, InFile p rest)
      else (o, Waiting p rest)
  end.

(** The end of [_process_single_file] and the rest of the loop body.
    A failure is counted and recorded in its [except] clause, a success is
    counted by [_process_folder]; both refresh the progress with
    [_set_running_progress()]. *)
Definition end_file (o : Orchestrator) (success : bool) (ff : FailedFile) : Orchestrator :=
  let cleared (o : Orchestrator) (n : Z) (pr : IndexProgress) :=
    {| progress := pr; lock_locked := lock_locked o; is_paused := is_paused o;
       pause_event := pause_event o; cancelled_folders := cancelled_folders o;
       current_run_started := current_run_started o;
       current_run_total := current_run_total o;
       current_processed := n;
       pending_paths := pending_paths o; active_path := None |} in
  if success then
    _set_running_progress (cleared o (current_processed o + 1) (progress o)) None
  else
    let pr := progress o in
    _set_running_progress
      (cleared o (current_processed o)
         {| status := status pr; started_at := started_at pr;
            completed_at := completed_at pr; processed := processed pr;
            failed_count := failed_count pr + 1; total := total pr;
            message := message pr; last_error := last_error pr;
            failed_items := failed_items pr ++ [ff] |})
      None.

(** [cancel_folder]: [self._cancelled_folders.add(folder_id)] *)
Definition cancel_folder (o : Orchestrator) (folder_id : str) : Orchestrator :=
  {| progress := progress o; lock_locked := lock_locked o; is_paused := is_paused o;
     pause_event := pause_event o;
     cancelled_folders := if bool_decide (folder_id ∈ cancelled_folders o)
                          then cancelled_folders o
                          else folder_id :: cancelled_folders o;
     current_run_started := current_run_started o;
     current_run_total := current_run_total o;
     current_processed := current_processed o;
     pending_paths := pending_paths o; active_path := active_path o |}.

(** What [self._pause_event.set()] in [resume] does to the coroutine of the
    loop: [resume] reaches it only on a paused orchestrator, and [set()]
    resolves the futures of the waiters only when the event was clear. *)
Definition resumed (o : Orchestrator) (l : Loop) : Loop :=
  match l with
  | Waiting p rest =>
      if is_paused o && negb (pause_event o) then Woken p rest else l
  | _ => l
  end.

(** What can happen to a run that is suspended in the loop: a call of
    [pause], [resume] or [cancel_folder] from a request handler, the end of
    the file in flight, and the return of the wait. *)
Inductive Event :=
  | CallPause
  | CallResume
  | CallCancel (folder_id : str)
  | FileDone (success : bool) (reason : str) (now : Z)
  | Wake.

(** One event on a run over the files of [folder]; [None] when the event
    cannot happen in that state (a file cannot finish unless it is in
    flight, a wait cannot return unless its future is resolved). The wait
    that returns does not test the event again: the file begins even if
    [pause] has cleared the event since. *)
Definition run_event (folder : str) (ev : Event) (st : Orchestrator * Loop)
    : option (Orchestrator * Loop) :=
  let '(o, l) := st in
  match ev, l with
  | CallPause, _ => Some ((pause o).1, l)
  | CallResume, _ => Some ((resume o).1, resumed o l)
  | CallCancel folder_id, _ => Some (cancel_folder o folder_id, l)
  | FileDone success reason now, InFile p rest =>
      Some (loop_head
              (end_file o success
                 {| ff_path := p; ff_reason := reason; ff_timestamp := now |})
              folder rest)
  | Wake, Woken p rest => Some (begin_file o p, InFile p rest)
  | _, _ => None
  end.

Fixpoint run_events (folder : str) (evs : list Event) (st : Orchestrator * Loop)
    : option (Orchestrator * Loop) :=
  match evs with
  | [] => Some st
  | ev :: rest => run_event folder ev st ≫= run_events folder rest
  end.

(** *** [refresh] and the run lock *)

(** The entry of [refresh]: the test of the lock and, when it is free,
    [async with self._lock] and the three resets that follow. A lock that
    is free is taken without suspension. [Some p] is [return p]. *)
Definition refresh_enter (o : Orchestrator) : Orchestrator * option IndexProgress :=
  if lock_locked o then (o, Some (progress o))
  else
    ({| progress := progress o; lock_locked := true; is_paused := false;
        pause_event := true; cancelled_folders := [];
        current_run_started := current_run_started o;
        current_run_total := current_run_total o;
        current_processed := current_processed o;
        pending_paths := pending_paths o; active_path := active_path o |},
     None).

(** Leaving [async with self._lock] *)
Definition release (o : Orchestrator) : Orchestrator :=
  {| progress := progress o; lock_locked := false; is_paused := is_paused o;
     pause_event := pause_event o; cancelled_folders := cancelled_folders o;
     current_run_started := current_run_started o;
     current_run_total := current_run_total o;
     current_processed := current_processed o;
     pending_paths := pending_paths o; active_path := active_path o |}.

(** A call of [refresh]: not yet at its first line, inside the body that
    the lock guards, or returned. *)
Inductive Call :=
  | Triggered
  | InRun
  | Returned (p : IndexProgress).

(** The process: one orchestrator and the calls of [refresh] made so far. *)
Record Process := {
  orch : Orchestrator;
  calls : list Call;
}.

Definition in_run (c : Call) : bool :=
  match c with InRun => true | _ => false end.

Definition active_runs (s : Process) : nat :=
  length (filter (fun c => in_run c = true) (calls s)).

(** The steps of the event loop. The body of a run ([step_body]) changes
    the orchestrator in any way that leaves the lock alone: the lock is
    named only at the head of [refresh]. [pause] and [resume] can be
    called between any two steps. *)
Inductive step : Process → Process → Prop :=
  | step_trigger s :
      step s {| orch := orch s; calls := calls s ++ [Triggered] |}
  | step_enter s i :
      calls s !! i = Some Triggered →
      step s {| orch := (refresh_enter (orch s)).1;
                calls := <[i := match (refresh_enter (orch s)).2 with
                                | Some p => Returned p
                                | None => InRun
                                end]> (calls s) |}
  | step_body s i o' :
      calls s !! i = Some InRun →
      lock_locked o' = lock_locked (orch s) →
      step s {| orch := o'; calls := calls s |}
  | step_pause s :
      step s {| orch := (pause (orch s)).1; calls := calls s |}
  | step_resume s :
      step s {| orch := (resume (orch s)).1; calls := calls s |}
  | step_exit s i :
      calls s !! i = Some InRun →
      step s {| orch := release (orch s);
                calls := <[i := Returned (progress (orch s))]> (calls s) |}.

Inductive reachable : Process → Prop :=
  | reach_init o : lock_locked o = false → reachable {| orch := o; calls := [] |}
  | reach_step s s' : reachable s → step s s' → reachable s'.

End Indexer.

(** ** indexer.py: the chunk snapshots of an artifact *)

Module Snapshots.

(** A value held in the [metadata] dict of a chunk *)
Inductive Json :=
  | JNull
  | JBool (b : bool)
  | JInt (z : Z)
  | JStr (s : str)
  | JInts (l : list Z).

(** [ChunkSnapshot], with all its fields; [created_at] is a reading of the
    clock. *)
Record ChunkSnapshot := {
  chunk_id : str;
  file_id : str;
  ordinal : Z;
  text : str;
  snippet : str;
  token_count : Z;
  char_count : Z;
  section_path : option str;
  metadata : gmap str Json;
  created_at : Z;
}.

(** The [metadata] dict of a payload as [build] and the merge pass fill it
    (without the float [list_density]); the page keys are written together. *)
Definition metadata_dict (m : Chunker.Metadata) : gmap str Json :=
  let base : gmap str Json :=
    <[of_string "section_path" := from_option JStr JNull (md_section_path m)]>
      (<[of_string "start_char" := JInt (start_char m)]>
         (<[of_string "end_char" := JInt (end_char m)]> ∅)) in
  match page_numbers m with
  | Some pages =>
      <[of_string "page_numbers" := JInts pages]>
        (<[of_string "page_start" := from_option JInt JNull (head pages)]>
           (<[of_string "page_end" := from_option JInt JNull (last pages)]> base))
  | None => base
  end.

(** [_to_snapshot] *)
Definition _to_snapshot (file_id : str) (payload : ChunkPayload) : ChunkSnapshot :=
  {| chunk_id := Chunker.chunk_id payload;
     file_id := file_id;
     ordinal := Chunker.ordinal payload;
     text := Chunker.text payload;
     snippet := Chunker.snippet payload;
     token_count := Chunker.token_count payload;
     char_count := Chunker.char_count payload;
     section_path := Chunker.section_path payload;
     metadata := metadata_dict (Chunker.metadata payload);
     created_at := Chunker.created_at payload |}.

Inductive IndexingMode := fast | fine.

Section Builders.

(** The Unicode table behind [\d], [xxhash.xxh64(...).hexdigest()] of the
    UTF-8 encoding of a key, the pipeline [self.chunker], and the two
    settings [rag_chunk_size] and [rag_chunk_overlap]. *)
Variable unicode_decimal : char → bool.
Variable xxh64_hexdigest : str → str.
Variable chunker : ChunkingPipeline.
Variables rag_chunk_size rag_chunk_overlap : Z.

(** [_chunk_id_for_section] *)
Definition _chunk_id_for_section (file_id : str) (ordinal : Z)
    (section_path : option str) (sub_index : option Z) : str :=
  let key :=
    file_id ++ [colon] ++ str_of_int ordinal ++ [colon]
    ++ match section_path with
       | Some ((_ :: _) as path) => path
       | _ => of_string "root"
       end in
  xxh64_hexdigest
    match sub_index with
    | Some i => key ++ [colon] ++ str_of_int i
    | None => key
    end.

(** The single chunk [_build_chunk_snapshots] falls back to *)
Definition full_chunk (record_id : str) (now : Z) (s : str) : ChunkSnapshot :=
  {| chunk_id := record_id ++ of_string "::full";
     file_id := record_id;
     ordinal := 0;
     text := s;
     snippet := slice_to s 400;
     token_count := Z.max (len s / char_ratio chunker) 1;
     char_count := len s;
     section_path := None;
     metadata := ∅;
     created_at := now |}.

(** [_build_chunk_snapshots] for the record with id [record_id]. [clock]
    holds the two readings of the clock it may take: the one of [build]
    and the one of the fallback. *)
Definition _build_chunk_snapshots (record_id : str) (clock : Z * Z) (s : str)
    (page_mapping : option (list (Z * Z * Z))) : list ChunkSnapshot :=
  if negb (nonempty s) then []
  else
    match _to_snapshot record_id
          <$> build unicode_decimal xxh64_hexdigest chunker clock.1 record_id s
                page_mapping (Some rag_chunk_size) (Some rag_chunk_overlap) with
    | [] => [full_chunk record_id clock.2 s]
    | snapshots => snapshots
    end.

(** The chunk [_build_video_chunk_snapshots] makes of the caption of
    segment [i] *)
Definition video_chunk (record_id : str) (now : Z) (i : nat) (caption : str)
    : ChunkSnapshot :=
  let ordinal := Z.of_nat i in
  {| chunk_id := record_id ++ of_string "::segment_" ++ str_of_int ordinal;
     file_id := record_id;
     ordinal := ordinal;
     text := caption;
     snippet := if 400 <? len caption then slice_to caption 400 else caption;
     token_count := Z.max (len caption / char_ratio chunker) 1;
     char_count := len caption;
     section_path := Some (of_string "segment_" ++ str_of_int ordinal);
     metadata := {[ of_string "segment_index" := JInt ordinal ]};
     created_at := now |}.

(** [_build_video_chunk_snapshots] *)
Definition _build_video_chunk_snapshots (record_id : str) (now : Z)
    (segment_captions : list str) : list ChunkSnapshot :=
  imap (video_chunk record_id now) segment_captions.

(** The text of a page chunk: the stripped description, or a placeholder
    when nothing is left of it *)
Definition page_text_or_placeholder (page_index : Z) (page_text : option str) : str :=
  let cleaned := strip (default [] page_text) in
  if nonempty cleaned then cleaned
  else of_string "[Page " ++ str_of_int page_index
       ++ of_string " - no content extracted]".

(** The chunk [_build_pdf_page_chunk_snapshots] makes of the page at
    position [i] of the list; the page index counts from one. *)
Definition pdf_page_chunk (record_id : str) (now : Z) (is_vision : bool)
    (i : nat) (page_text : option str) : ChunkSnapshot :=
  let page_index := Z.of_nat i + 1 in
  let cleaned := page_text_or_placeholder page_index page_text in
  let ordinal := page_index - 1 in
  let section_path := of_string "page_" ++ str_of_int page_index in
  {| chunk_id := _chunk_id_for_section record_id ordinal (Some section_path) None;
     file_id := record_id;
     ordinal := ordinal;
     text := cleaned;
     snippet := slice_to cleaned 400;
     token_count := Z.max (len cleaned / 4) 1;
     char_count := len cleaned;
     section_path := Some section_path;
     metadata :=
       <[of_string "page_numbers" := JInts [page_index]]>
         (<[of_string "page_start" := JInt page_index]>
            (<[of_string "page_end" := JInt page_index]>
               (<[of_string "page_number" := JInt page_index]>
                  (<[of_string "pdf_vision_mode" := JBool is_vision]>
                     (<[of_string "section_path" := JStr section_path]> ∅)))));
     created_at := now |}.

(** [_build_pdf_page_chunk_snapshots]; a page description may be [None]. *)
Definition _build_pdf_page_chunk_snapshots (record_id : str) (now : Z)
    (page_descriptions : list (option str)) (is_vision : bool) : list ChunkSnapshot :=
  imap (pdf_page_chunk record_id now is_vision) page_descriptions.

(** A snapshot of one page renumbered in the [fine] branch of
    [_build_pdf_multi_chunk_snapshots_from_pages]: the new ordinal and the
    chunk id made from it *)
Definition renumbered (record_id : str) (ordinal : Z) (snapshot : ChunkSnapshot)
    : ChunkSnapshot :=
  {| chunk_id := _chunk_id_for_section record_id ordinal (section_path snapshot) None;
     file_id := file_id snapshot;
     ordinal := ordinal;
     text := text snapshot;
     snippet := snippet snapshot;
     token_count := token_count snapshot;
     char_count := char_count snapshot;
     section_path := section_path snapshot;
     metadata := metadata snapshot;
     created_at := created_at snapshot |}.

Definition renumber_from (record_id : str) (global_ordinal : Z)
    (page_snapshots : list ChunkSnapshot) : list ChunkSnapshot :=
  imap (fun k => renumbered record_id (global_ordinal + Z.of_nat k)) page_snapshots.

(** The loop of the [fine] branch; [clock page_index] are the readings of
    the clock taken while the page is chunked. *)
Fixpoint fine_loop (record_id : str) (clock : Z → Z * Z)
    (page_texts : list (option str)) (page_index global_ordinal : Z)
    : list ChunkSnapshot :=
  match page_texts with
  | [] => []
  | page_text :: rest =>
      let full_page_text := strip (default [] page_text) in
      if negb (nonempty full_page_text)
      then fine_loop record_id clock rest (page_index + 1) global_ordinal
      else
        let current_mapping := [(0, len full_page_text, page_index)] in
        let page_snapshots :=
          _build_chunk_snapshots record_id (clock page_index) full_page_text
            (Some current_mapping) in
        renumber_from record_id global_ordinal page_snapshots
        ++ fine_loop record_id clock rest (page_index + 1)
             (global_ordinal + Z.of_nat (length page_snapshots))
  end.

(** The loop of the other branch: the combined text and its page mapping *)
Fixpoint combine_pages (page_texts : list (option str)) (page_index : Z)
    (combined_text : str) (page_mapping : list (Z * Z * Z))
    : str * list (Z * Z * Z) :=
  match page_texts with
  | [] => (combined_text, page_mapping)
  | page_text :: rest =>
      let body := strip (default [] page_text) in
      if negb (nonempty body)
      then combine_pages rest (page_index + 1) combined_text page_mapping
      else
        let separated :=
          if nonempty combined_text then combined_text ++ sep2 else combined_text in
        let start := len separated in
        let combined_text' := separated ++ body in
        combine_pages rest (page_index + 1) combined_text'
          (page_mapping ++ [(start, len combined_text', page_index)])
  end.

(** [_build_pdf_multi_chunk_snapshots_from_pages] *)
Definition _build_pdf_multi_chunk_snapshots_from_pages (record_id : str)
    (clock : Z → Z * Z) (page_texts : list (option str))
    (indexing_mode : IndexingMode) : list ChunkSnapshot :=
  match page_texts with
  | [] => []
  | _ =>
      match indexing_mode with
      | fine => fine_loop record_id clock page_texts 1 0
      | fast =>
          let '(combined_text, page_mapping) := combine_pages page_texts 1 [] [] in
          _build_chunk_snapshots record_id (clock 0) combined_text (Some page_mapping)
      end
  end.

End Builders.

End Snapshots.

(** ** indexer.py: the folders a refresh targets *)

Module Targets.

Inductive ScanMode := full | manual.

Global Instance ScanMode_eq_dec : EqDecision ScanMode.
Proof. solve_decision. Defined.

(** [FolderRecord], as far as the selection reads it *)
Record FolderRecord := {
  id : str;
  path : str;
  enabled : bool;
  scan_mode : ScanMode;
}.

(** [bool(l)] for an optional list *)
Definition given {A} (l : option (list A)) : bool :=
  match l with
  | Some (_ :: _) => true
  | _ => false
  end.

Section Storage.

(** [storage.list_folders()], and the three path operations of pathlib
    that [_resolve_targets] uses: [Path(p).resolve()], [path.parent] and
    whether [path.relative_to(base)] returns. *)
Variable list_folders : list FolderRecord.
Variable resolve : str → str.
Variable parent : str → str.
Variable relative_to : str → str → bool.

(** [_select_folders] *)
Definition _select_folders (folder_ids : option (list str)) (include_manual : bool)
    : list FolderRecord :=
  let folders := filter (fun folder => enabled folder = true) list_folders in
  match folder_ids with
  | Some ((_ :: _) as allowed) => filter (fun folder => id folder ∈ allowed) folders
  | _ =>
      if negb include_manual
      then filter (fun f => scan_mode f ≠ manual) folders
      else folders
  end.

(** [storage.folder_by_path]: the row with that path *)
Definition folder_by_path (p : str) : option FolderRecord :=
  List.find (fun f => bool_decide (path f = p)) list_folders.

(** The folder [_resolve_targets] finds for a resolved file path: the one
    registered at its parent directory, or else the first registered
    folder the path lies under. *)
Definition folder_of (p : str) : option FolderRecord :=
  match folder_by_path (parent p) with
  | Some folder => Some folder
  | None => List.find (fun f => relative_to p (path f)) list_folders
  end.

(** [target_files_by_folder[folder.id].append(path)] on a dict that keeps
    its keys in insertion order *)
Fixpoint add_target (folder_id p : str) (d : list (str * list str))
    : list (str * list str) :=
  match d with
  | [] => [(folder_id, [p])]
  | (k, v) :: rest =>
      if bool_decide (k = folder_id) then (k, v ++ [p]) :: rest
      else (k, v) :: add_target folder_id p rest
  end.

(** The [for file_path_str in files] loop *)
Definition group_files (files : list str) : list (str * list str) :=
  foldl (fun d file_path_str =>
           let p := resolve file_path_str in
           match folder_of p with
           | Some folder => add_target (id folder) p d
           | None => d
           end)
        [] files.

(** [_resolve_targets] *)
Definition _resolve_targets (folders files : option (list str))
    : list FolderRecord * list (str * list str) :=
  let is_explicit_request := given files || given folders in
  let target_files_by_folder :=
    match files with
    | Some ((_ :: _) as fs) => group_files fs
    | _ => []
    end in
  let folders :=
    match target_files_by_folder with
    | [] => folders
    | _ => Some (target_files_by_folder.*1)
    end in
  (_select_folders folders is_explicit_request, target_files_by_folder).

End Storage.

End Targets.

(** ** indexer.py: the stage of the file in flight *)

Module Stage.

(** The [_active_*] attributes that [_set_active_stage] writes. [Progress]
    stands for the float of [_active_progress]; an event is the dict that
    is appended to [_active_recent_events]. *)
Section Active.

Variable Progress : Type.

Record Active := {
  active_stage : option str;
  active_detail : option str;
  active_step_current : option Z;
  active_step_total : option Z;
  active_progress : option Progress;
  active_recent_events : list (gmap str Snapshots.Json);
}.

(** The keyword arguments of [_set_active_stage] *)
Record StageUpdate := {
  stage : option str;
  detail : option str;
  step_current : option Z;
  step_total : option Z;
  progress : option Progress;
  event : option str;
  event_type : str;
  event_payload : option (gmap str Snapshots.Json);
}.

(** The dict of an event; [ts] is the ISO rendering of the clock reading.
    [payload.update(event_payload)] lets the keys of [event_payload] win. *)
Definition event_dict (ts : str) (u : StageUpdate) (message : str)
    : gmap str Snapshots.Json :=
  let payload : gmap str Snapshots.Json :=
    <[of_string "ts" := Snapshots.JStr ts]>
      (<[of_string "type" := Snapshots.JStr (event_type u)]>
         (<[of_string "message" := Snapshots.JStr message]> ∅)) in
  match event_payload u with
  | Some extra => extra ∪ payload
  | None => payload
  end.

(** [events[-100:]] *)
Definition last_hundred {A} (events : list A) : list A :=
  drop (length events - 100) events.

(** [_set_active_stage] *)
Definition _set_active_stage (a : Active) (ts : str) (u : StageUpdate) : Active :=
  {| active_stage := stage u;
     active_detail := detail u;
     active_step_current := step_current u;
     active_step_total := step_total u;
     active_progress := match progress u with
                        | Some _ => progress u
                        | None => active_progress a
                        end;
     active_recent_events :=
       match event u with
       | Some message =>
           let events := active_recent_events a ++ [event_dict ts u message] in
           if (100 <? length events)%nat then last_hundred events else events
       | None => active_recent_events a
       end |}.

(** The resets at the start of [_process_single_file], before its first
    [_set_active_stage] *)
Definition start_of_file (zero : Progress) : Active :=
  {| active_stage := Some (of_string "scan");
     active_detail := Some (of_string "Scanning file");
     active_step_current := None;
     active_step_total := None;
     active_progress := Some zero;
     active_recent_events := [] |}.

End Active.

Arguments active_stage {Progress}.
Arguments active_detail {Progress}.
Arguments active_step_current {Progress}.
Arguments active_step_total {Progress}.
Arguments active_progress {Progress}.
Arguments active_recent_events {Progress}.
Arguments stage {Progress}.
Arguments detail {Progress}.
Arguments step_current {Progress}.
Arguments step_total {Progress}.
Arguments progress {Progress}.
Arguments event {Progress}.
Arguments event_type {Progress}.
Arguments event_payload {Progress}.
Arguments event_dict {Progress}.
Arguments _set_active_stage {Progress}.
Arguments start_of_file {Progress}.

End Stage.

(** ** routers/index.py: the requests that start, pause and resume a run *)

Module Router.

Inductive Mode := rescan | reindex.
Inductive Scope := global | folder | email | notes.

Global Instance Mode_eq_dec : EqDecision Mode.
Proof. solve_decision. Defined.

Global Instance Scope_eq_dec : EqDecision Scope.
Proof. solve_decision. Defined.

(** [IndexRequest] *)
Record IndexRequest := {
  mode : Mode;
  scope : Scope;
  refresh_embeddings : bool;
  folders : option (list str);
  files : option (list str);
  drop_collection : bool;
  purge_folders : option (list str);
  indexing_mode : option Snapshots.IndexingMode;
}.

(** The keyword arguments [run_index] passes to [Indexer.refresh] *)
Record RefreshArgs := {
  arg_folders : option (list str);
  arg_files : option (list str);
  arg_refresh_embeddings : bool;
  arg_drop_collection : bool;
  arg_purge_folders : list str;
  arg_indexing_mode : Snapshots.IndexingMode;
}.

(** What a route answers: the model it returns, or the status code of the
    [HTTPException] it raises. *)
Inductive Response (A : Type) :=
  | Ok (a : A)
  | BadRequest
  | Conflict.

Arguments Ok {A}.
Arguments BadRequest {A}.
Arguments Conflict {A}.

(** [l or []] *)
Definition or_empty {A} (l : option (list A)) : list A := default [] l.

Definition nonempty_list {A} (l : list A) : bool :=
  match l with [] => false | _ => true end.

(** The first part of [run_index]: the effective arguments of the run, or
    [None] for the 400 it raises. [default_indexing_mode] is the setting
    behind [payload.get_indexing_mode()]. A [scope] and a [mode] are never
    empty strings, so [payload.scope or ...] and [payload.mode or ...] are
    [payload.scope] and [payload.mode]. *)
Definition plan (default_indexing_mode : Snapshots.IndexingMode)
    (payload : IndexRequest) : option RefreshArgs :=
  let folders := or_empty (folders payload) in
  let scope0 := scope payload in
  let scope1 :=
    if bool_decide (scope0 = global) && nonempty_list folders then folder else scope0 in
  if negb (bool_decide (scope1 = global)) && negb (nonempty_list folders)
  then None
  else
    let mode0 := mode payload in
    let purge_targets := or_empty (purge_folders payload) in
    let '(mode1, scope2) :=
      if drop_collection payload then (reindex, global)
      else if nonempty_list purge_targets && bool_decide (mode0 = rescan)
      then (reindex,
            if bool_decide (scope1 = global) && nonempty_list folders
            then folder else scope1)
      else if refresh_embeddings payload && bool_decide (mode0 = rescan)
              && negb (nonempty_list folders)
      then (reindex, scope1)
      else (mode0, scope1) in
    let '(effective_refresh_embeddings, effective_drop_collection, purge_targets) :=
      match mode1 with
      | reindex =>
          if bool_decide (scope2 = global) then (true, true, [])
          else (true, false, if nonempty_list folders then folders else purge_targets)
      | rescan =>
          (refresh_embeddings payload, false,
           if negb (bool_decide (scope2 = global)) then [] else purge_targets)
      end in
    if effective_drop_collection && nonempty_list folders then None
    else
      Some {| arg_folders := if negb (bool_decide (scope2 = global))
                             then Some folders else None;
              arg_files := files payload;
              arg_refresh_embeddings := effective_refresh_embeddings;
              arg_drop_collection := effective_drop_collection;
              arg_purge_folders := purge_targets;
              arg_indexing_mode :=
                default default_indexing_mode (indexing_mode payload) |}.

(** The message [run_index] reports, as the source file spells it *)
Definition starting_message : str :=
  of_string "Starting indexing" ++ [226%N; 8364%N; 166%N].

(** [run_index]: the plan, then the 409 for a run in progress, then the
    progress it sets before the background task is scheduled. The result
    is the orchestrator, the answer, and the arguments of the scheduled
    call of [refresh]. *)
Definition run_index (default_indexing_mode : Snapshots.IndexingMode)
    (o : Indexer.Orchestrator) (now : Z) (payload : IndexRequest)
    : Indexer.Orchestrator * Response Indexer.IndexProgress * option RefreshArgs :=
  match plan default_indexing_mode payload with
  | None => (o, BadRequest, None)
  | Some args =>
      if bool_decide (Indexer.status (Indexer.get_status o) = Indexer.running)
      then (o, Conflict, None)
      else
        let o' :=
          Indexer.with_progress o
            {| Indexer.status := Indexer.running;
               Indexer.started_at := Some now;
               Indexer.completed_at := None;
               Indexer.processed := 0;
               Indexer.failed_count := 0;
               Indexer.total := None;
               Indexer.message := Some starting_message;
               Indexer.last_error := None;
               Indexer.failed_items := [] |} in
        (o', Ok (Indexer.get_status o'), Some args)
  end.

(** [pause_index] and [resume_index] *)
Definition pause_index (o : Indexer.Orchestrator)
    : Indexer.Orchestrator * Response Indexer.IndexProgress :=
  if negb (bool_decide (Indexer.status (Indexer.get_status o) = Indexer.running))
  then (o, Conflict)
  else let '(o', p) := Indexer.pause o in (o', Ok p).

Definition resume_index (o : Indexer.Orchestrator)
    : Indexer.Orchestrator * Response Indexer.IndexProgress :=
  if negb (bool_decide (Indexer.status (Indexer.get_status o) = Indexer.paused))
  then (o, Conflict)
  else let '(o', p) := Indexer.resume o in (o', Ok p).

End Router.

(** * Properties *)

(** ** The scanners agree with the interpreter on sample inputs *)

Example strip_example :
  strip (of_string "  a b  ") = of_string "a b".
Proof. reflexivity. Qed.

Example find_example :
  find (of_string "abcabc") (of_string "bc") 2 = 4 ∧
  find (of_string "abc") (of_string "x") 0 = -1 ∧
  find (of_string "abc") (of_string "") 3 = 3.
Proof. repeat split; reflexivity. Qed.

Example str_of_int_example :
  str_of_int 0 = of_string "0" ∧ str_of_int 1024 = of_string "1024" ∧
  str_of_int (-7) = of_string "-7".
Proof. repeat split; reflexivity. Qed.

Example paragraph_split_example :
  split blank_line_match false (of_string "a" ++ [nl; nl; nl; nl] ++ of_string "b")
    = [of_string "a"; of_string "b"] ∧
  split blank_line_match false (of_string "a" ++ [nl; sp; nl; sp; sp] ++ of_string "b" ++ [nl; nl])
    = [of_string "a"; of_string "  b"; []] ∧
  split blank_line_match true (of_string "a" ++ [nl; nl; nl; nl] ++ of_string "b")
    = [of_string "a"; [nl; nl; nl; nl]; of_string "b"].
Proof. repeat split; reflexivity. Qed.

Example section_finditer_example :
  finditer section_match
    (of_string "# A" ++ [nl] ++ of_string "para1." ++ [nl; nl] ++ of_string "# B"
       ++ [nl] ++ of_string "para2.")
    = [(0, 3); (12, 15)]%nat ∧
  finditer section_match (of_string "## " ++ [nl; nl] ++ of_string "x" ++ [nl]
       ++ of_string "#y" ++ [nl] ++ of_string "# z  ")
    = [(0, 6); (10, 15)]%nat.
Proof. split; reflexivity. Qed.

Example code_finditer_example :
  finditer code_block_match (of_string "x```a``````b```y````") = [(1, 8); (8, 15)]%nat.
Proof. reflexivity. Qed.

Example sentence_finditer_example :
  finditer sentence_end_match (of_string "Hi. There!?  x.y ") = [(2, 4); (9, 13); (14, 15)]%nat.
Proof. reflexivity. Qed.

Example list_item_example :
  list_item_match ascii_decimal <$>
    [of_string "- a"; of_string "  * b"; of_string "12. c"; of_string "12.c";
     of_string "-a"; nl :: of_string "- a"; of_string "x- a"]
  = [true; true; true; false; false; true; false].
Proof. reflexivity. Qed.

(** ** The configuration of a pipeline *)

(** The constructor on arguments inside and outside the bounds *)
Example init_example :
  (let p := init None 1000 100 100 in
   (chunk_tokens p, overlap_tokens p, min_chunk_tokens p)) = (1000, 100, 100)
  ∧ (let p := init None 10 500 (-3) in
     (chunk_tokens p, overlap_tokens p, min_chunk_tokens p)) = (64, 16, 20)
  ∧ (let p := init None 100 (-7) 20 in
     (chunk_tokens p, overlap_tokens p, min_chunk_tokens p)) = (100, 0, 20).
Proof. repeat split. Qed.

(** C10. The constructor clamps its arguments, silently. [chunk_tokens] is
    the argument when that is at least 64 and 64 otherwise;
    [min_chunk_tokens] is the argument when that is at least 20 and 20
    otherwise; [overlap_tokens] is the argument when that lies between 0
    and a quarter (floor) of the clamped [chunk_tokens], 0 when it is
    negative and the quarter when it is larger. So the instance has
    [chunk_tokens >= 64], [min_chunk_tokens >= 20] and
    [0 <= overlap_tokens <= chunk_tokens // 4]. A pipeline is a value that
    no operation updates, so the bounds hold for as long as the instance
    is used: [build] reads the sizes from it. The sizes passed to one call
    of [build] are used as they are, unclamped. *)
Theorem init_clamps_configuration
    (tok : option (str → option Z)) (ct ot mt : Z) :
  let p := init tok ct ot mt in
  ((64 ≤ ct → chunk_tokens p = ct) ∧ (ct < 64 → chunk_tokens p = 64))
  ∧ ((20 ≤ mt → min_chunk_tokens p = mt) ∧ (mt < 20 → min_chunk_tokens p = 20))
  ∧ ((0 ≤ ot ≤ chunk_tokens p / 4 → overlap_tokens p = ot)
     ∧ (ot < 0 → overlap_tokens p = 0)
     ∧ (chunk_tokens p / 4 < ot → overlap_tokens p = chunk_tokens p / 4))
  ∧ 64 ≤ chunk_tokens p
  ∧ 20 ≤ min_chunk_tokens p
  ∧ 0 ≤ overlap_tokens p ≤ chunk_tokens p / 4
  ∧ max_chunk_chars p None = chunk_tokens p * 4
  ∧ overlap_chars p None = overlap_tokens p * 4
  ∧ min_chunk_chars p = min_chunk_tokens p * 4
  ∧ (∀ v, max_chunk_chars p (Some v) = v * 4 ∧ overlap_chars p (Some v) = v * 4)
  ∧ (∀ ud digest now fid s pm cto oto,
       build ud digest p now fid s pm cto oto
       = if negb (nonempty s) || negb (nonblank s) then []
         else _merge_small_chunks p
                (build_payloads ud digest p now fid s pm (max_chunk_chars p cto)
                   (min_chunk_chars p) (overlap_chars p oto))
                (min_chunk_chars p) (max_chunk_chars p cto) pm).
Proof.
  assert (0 ≤ Z.max ct 64 / 4) by (apply Z.div_pos; lia).
  simpl. repeat split; try done; try lia.
Qed.

(** ** Chunk ids do not depend on the clock *)

Section Determinism.

Variable unicode_decimal : char → bool.
Variable xxh64_hexdigest : str → str.
Variable p : ChunkingPipeline.
Variable page_mapping : option (list (Z * Z * Z)).

(** The payload [c] as a call entered at time [t] would have stamped it *)
Definition restamp (t : Z) (c : ChunkPayload) : ChunkPayload :=
  {| chunk_id := chunk_id c; file_id := file_id c; ordinal := ordinal c;
     text := text c; snippet := snippet c; token_count := token_count c;
     char_count := char_count c; section_path := section_path c;
     metadata := metadata c; created_at := t |}.

Lemma foldl_related {A B} (R : B → B → Prop) (f g : B → A → B) (l : list A) :
  (∀ x s1 s2, R s1 s2 → R (f s1 x) (g s2 x)) →
  ∀ s1 s2, R s1 s2 → R (foldl f s1 l) (foldl g s2 l).
Proof. intros Hstep. induction l as [|x l IH]; simpl; auto. Qed.

Definition same_payloads (t : Z) (s1 s2 : list ChunkPayload * Z) : Prop :=
  s1.1 = restamp t <$> s2.1 ∧ s1.2 = s2.2.

Lemma payload_step_clock t t0 fid path start n c s1 s2 :
  same_payloads t s1 s2 →
  same_payloads t
    (payload_step xxh64_hexdigest p t fid page_mapping path start n s1 c)
    (payload_step xxh64_hexdigest p t0 fid page_mapping path start n s2 c).
Proof.
  destruct s1 as [ps1 o1], s2 as [ps2 o2], c as [[ctext rs] re].
  intros [H1 H2]; simpl in *; subst. unfold payload_step.
  destruct (negb (nonempty (strip ctext))); [done|].
  destruct (_ && _); [done|].
  split; simpl; [|done]. by rewrite fmap_app.
Qed.

Lemma section_step_clock t t0 fid M m o sec s1 s2 :
  same_payloads t s1 s2 →
  same_payloads t
    (section_step unicode_decimal xxh64_hexdigest p t fid page_mapping M m o s1 sec)
    (section_step unicode_decimal xxh64_hexdigest p t0 fid page_mapping M m o s2 sec).
Proof.
  intros H. destruct sec as [[path body] start]. unfold section_step.
  destruct (negb (nonblank body)); [done|].
  apply foldl_related; [|done]. intros; by apply payload_step_clock.
Qed.

Lemma build_payloads_clock t t0 fid s M m o :
  build_payloads unicode_decimal xxh64_hexdigest p t fid s page_mapping M m o
  = restamp t <$> build_payloads unicode_decimal xxh64_hexdigest p t0 fid s page_mapping M m o.
Proof.
  unfold build_payloads.
  refine (proj1 (foldl_related (same_payloads t) _ _ _ _ ([], 0) ([], 0) _)); [|done].
  intros; by apply section_step_clock.
Qed.

Definition same_merge (t : Z)
    (s1 s2 : list ChunkPayload * option ChunkPayload) : Prop :=
  s1.1 = restamp t <$> s2.1 ∧ s1.2 = restamp t <$> s2.2.

Lemma merge_step_clock t m M c s1 s2 :
  same_merge t s1 s2 →
  same_merge t (merge_step p page_mapping m M s1 (restamp t c))
               (merge_step p page_mapping m M s2 c).
Proof.
  destruct s1 as [l1 q1], s2 as [l2 q2]. intros [H1 H2]; simpl in *; subst.
  unfold merge_step. destruct q2 as [q|]; simpl.
  - change (should_merge m M (restamp t q) (restamp t c)) with (should_merge m M q c).
    destruct (should_merge m M q c).
    + change (merge_forward p page_mapping (restamp t q) (restamp t c))
        with (restamp t (merge_forward p page_mapping q c)).
      simpl. destruct (_ <? m); split; simpl; try done. by rewrite fmap_app.
    + destruct (_ <? m); split; simpl; try done; by rewrite fmap_app.
  - destruct (_ <? m); split; simpl; try done. by rewrite fmap_app.
Qed.

Lemma merge_fold_clock t m M l s1 s2 :
  same_merge t s1 s2 →
  same_merge t (foldl (merge_step p page_mapping m M) s1 (restamp t <$> l))
               (foldl (merge_step p page_mapping m M) s2 l).
Proof.
  revert s1 s2. induction l as [|c l IH]; intros s1 s2 H; simpl; [done|].
  apply IH. by apply merge_step_clock.
Qed.

Lemma removelast_fmap {A B} (f : A → B) (l : list A) :
  removelast (f <$> l) = f <$> removelast l.
Proof.
  induction l as [|x [|y l] IH]; simpl; try done. simpl in IH. by rewrite IH.
Qed.

Lemma merge_finish_clock t M s1 s2 :
  same_merge t s1 s2 →
  merge_finish p page_mapping M s1 = restamp t <$> merge_finish p page_mapping M s2.
Proof.
  destruct s1 as [l1 q1], s2 as [l2 q2]. intros [H1 H2]; simpl in *; subst.
  destruct q2 as [q|]; simpl; [|done].
  rewrite fmap_last. destruct (last l2) as [z|]; simpl.
  - destruct (_ <=? M); rewrite fmap_app; [|done]. by rewrite removelast_fmap.
  - by rewrite fmap_app.
Qed.

Lemma renumber_clock t l : renumber (restamp t <$> l) = restamp t <$> renumber l.
Proof. unfold renumber. rewrite imap_fmap, fmap_imap. by apply imap_ext. Qed.

Lemma merge_small_chunks_clock t l m M :
  _merge_small_chunks p (restamp t <$> l) m M page_mapping
  = restamp t <$> _merge_small_chunks p l m M page_mapping.
Proof.
  unfold _merge_small_chunks. rewrite length_fmap.
  destruct (_ <=? 1)%nat; [done|].
  rewrite <- renumber_clock. f_equal.
  apply merge_finish_clock. by apply merge_fold_clock.
Qed.

(** A call entered at time [t] returns what a call entered at any other
    time returns, stamped with [t]. *)
Lemma build_clock t t0 fid s cto oto :
  build unicode_decimal xxh64_hexdigest p t fid s page_mapping cto oto
  = restamp t <$> build unicode_decimal xxh64_hexdigest p t0 fid s page_mapping cto oto.
Proof.
  unfold build. destruct (_ || _); [done|].
  rewrite (build_payloads_clock t t0). apply merge_small_chunks_clock.
Qed.

(** C7. Two calls of [build] with the same file id, text, page mapping and
    size arguments on the same pipeline return the same sequence of chunk
    ids, whenever they are made: the only thing a call reads besides its
    arguments and the pipeline is the clock, and no chunk id depends on
    it. *)
Theorem build_chunk_ids_deterministic (now1 now2 : Z) (fid s : str)
    (cto oto : option Z) :
  chunk_id <$> build unicode_decimal xxh64_hexdigest p now1 fid s page_mapping cto oto
  = chunk_id <$> build unicode_decimal xxh64_hexdigest p now2 fid s page_mapping cto oto.
Proof.
  rewrite (build_clock now1 now2), <- list_fmap_compose.
  by apply list_fmap_ext.
Qed.

End Determinism.

(** ** The merge pass *)

Lemma len_app (a b : str) : len (a ++ b) = len a + len b.
Proof. unfold len. rewrite length_app. lia. Qed.

Lemma len_nonneg (a : str) : 0 ≤ len a.
Proof. unfold len. lia. Qed.

Lemma foldl_invariant {A B} (I : B → Prop) (f : B → A → B) (l : list A) :
  (∀ st x, x ∈ l → I st → I (f st x)) → ∀ st, I st → I (foldl f st l).
Proof.
  induction l as [|x l IH]; intros Hstep st Hst; simpl; [done|].
  apply IH.
  - intros st' y Hy. apply Hstep. by apply list_elem_of_further.
  - apply Hstep; [apply list_elem_of_here|done].
Qed.

Section MergePass.

Variable p : ChunkingPipeline.
Variable page_mapping : option (list (Z * Z * Z)).
Variables min_chars max_chars : Z.

(** [char_count] is the length of [text], as [build] sets it *)
Definition consistent (c : ChunkPayload) : Prop := char_count c = len (text c).

(** No merge of [c] with the chunk [d] after it fits the maximum. *)
Definition no_fit (c d : ChunkPayload) : Prop :=
  max_chars < char_count c + char_count d + 2.

(** Every chunk below the minimum is followed by nothing or by a chunk it
    cannot be merged with. *)
Fixpoint adjacent_ok (l : list ChunkPayload) : Prop :=
  match l with
  | [] => True
  | c :: rest =>
      match rest with
      | [] => True
      | d :: _ => char_count c < min_chars → no_fit c d
      end ∧ adjacent_ok rest
  end.

Lemma adjacent_ok_snoc l x :
  adjacent_ok (l ++ [x])
  ↔ adjacent_ok l ∧ (∀ c, last l = Some c → char_count c < min_chars → no_fit c x).
Proof.
  induction l as [|c [|d l] IH]; simpl in *.
  - split; [intros _; split; [done|]; by intros c [=]|done].
  - split.
    + intros [H _]. split; [done|]. by intros c' [= <-].
    + intros [_ H]. split; [|done]. by apply H.
  - rewrite IH. clear IH. split; intros H; destruct_and!; repeat split; auto.
Qed.

Lemma adjacent_ok_lookup l i c d :
  adjacent_ok l → l !! i = Some c → l !! S i = Some d →
  char_count c < min_chars → no_fit c d.
Proof.
  revert i. induction l as [|x [|y l] IH]; intros i Hok Hc Hd Hs; try done.
  destruct i as [|i]; simplify_eq/=; [by apply Hok|].
  destruct Hok as [_ Hok]. by eapply (IH i).
Qed.

(** The invariant of the loop of [_merge_small_chunks] *)
Definition merge_inv (ps : list ChunkPayload)
    (st : list ChunkPayload * option ChunkPayload) : Prop :=
  Forall consistent st.1
  ∧ (∀ q, st.2 = Some q → consistent q ∧ char_count q < min_chars)
  ∧ adjacent_ok st.1
  ∧ (∀ c, last st.1 = Some c → char_count c < min_chars →
          ∃ q, st.2 = Some q ∧ no_fit c q)
  ∧ Forall (fun c => c ∈ ps ∨ 2 * char_count c ≤ 3 * max_chars) st.1
  ∧ (∀ q, st.2 = Some q → q ∈ ps ∨ 2 * char_count q ≤ 3 * max_chars).

Lemma merge_forward_count a b :
  consistent a → consistent b →
  consistent (merge_forward p page_mapping a b)
  ∧ char_count (merge_forward p page_mapping a b) = char_count a + char_count b + 2.
Proof.
  unfold consistent. intros Ha Hb. simpl. split; [done|].
  rewrite !len_app, Ha, Hb. unfold sep2, len. simpl. lia.
Qed.

Lemma merge_backward_count a b :
  consistent a → consistent b →
  consistent (merge_backward p page_mapping a b)
  ∧ char_count (merge_backward p page_mapping a b) = char_count a + char_count b + 2.
Proof.
  unfold consistent. intros Ha Hb. simpl. split; [done|].
  rewrite !len_app, Ha, Hb. unfold sep2, len. simpl. lia.
Qed.

Lemma consistent_nonneg c : consistent c → 0 ≤ char_count c.
Proof. unfold consistent. intros ->. apply len_nonneg. Qed.

Lemma should_merge_true a b :
  should_merge min_chars max_chars a b = true →
  0 ≤ char_count a → 0 ≤ char_count b →
  2 * (char_count a + char_count b + 2) ≤ 3 * max_chars.
Proof. unfold should_merge. intros H Ha Hb. lia. Qed.

Lemma should_merge_false a b :
  should_merge min_chars max_chars a b = false → no_fit a b.
Proof. unfold should_merge, no_fit. lia. Qed.

(** Closes the six parts of [merge_inv] after one round of the loop. *)
Ltac inv_goal Hlast Hbq :=
  simpl; try done;
  try (by intros ? [= <-]);
  try (intros ? [= <-]; split; [done|lia]);
  try (intros ? [= <-]; (by left) || (right; lia) || (by apply Hbq));
  try (repeat (apply Forall_app; split); try done;
       apply Forall_singleton; (done || (by left) || (right; lia) || (by apply Hbq)));
  try (apply adjacent_ok_snoc; split; [done|];
       let c' := fresh "c" in let Hc' := fresh "Hc" in let Hs := fresh "Hs" in
       intros c' Hc' Hs;
       first [ rewrite last_snoc in Hc'; injection Hc' as <-; done
             | destruct (Hlast c' Hc' Hs) as (? & ? & ?); simplify_eq;
               try (unfold no_fit in *; (done || lia)) ]);
  try (let c' := fresh "c" in let Hc' := fresh "Hc" in let Hs := fresh "Hs" in
       intros c' Hc' Hs;
       first [ rewrite last_snoc in Hc'; injection Hc' as <-; (lia || eauto)
             | destruct (Hlast c' Hc' Hs) as (? & ? & ?); simplify_eq;
               try (eexists; split; [done|]; unfold no_fit in *; lia) ]).

Lemma merge_step_inv ps st c :
  c ∈ ps → consistent c → merge_inv ps st →
  merge_inv ps (merge_step p page_mapping min_chars max_chars st c).
Proof.
  destruct st as [merged pending].
  intros Hin Hc (Hcons & Hpend & Hadj & Hlast & Hb & Hbq).
  unfold merge_step. cbv zeta. cbn [fst snd] in *. destruct pending as [q|].
  - destruct (Hpend q eq_refl) as [Hq Hqs].
    pose proof (consistent_nonneg q Hq). pose proof (consistent_nonneg c Hc).
    destruct (should_merge min_chars max_chars q c) eqn:Hm.
    + destruct (merge_forward_count q c Hq Hc) as [Hmc Hmn].
      pose proof (should_merge_true q c Hm).
      destruct (Z.ltb_spec (char_count (merge_forward p page_mapping q c)) min_chars).
      * unfold merge_inv; cbn [fst snd]; split_and!; inv_goal Hlast Hbq.
      * unfold merge_inv; cbn [fst snd]; split_and!; inv_goal Hlast Hbq.
    + pose proof (should_merge_false q c Hm) as Hnf.
      assert (Hadj' : adjacent_ok (merged ++ [q])).
      { apply adjacent_ok_snoc. split; [done|]. intros c' Hc' Hs.
        by destruct (Hlast c' Hc' Hs) as (q' & [= <-] & Hn). }
      destruct (Z.ltb_spec (char_count c) min_chars).
      * unfold merge_inv; cbn [fst snd]; split_and!; inv_goal Hlast Hbq.
      * replace (merged ++ [q; c]) with ((merged ++ [q]) ++ [c])
          by (by rewrite <- app_assoc).
        unfold merge_inv; cbn [fst snd]; split_and!; inv_goal Hlast Hbq.
  - destruct (Z.ltb_spec (char_count c) min_chars).
    + unfold merge_inv; cbn [fst snd]; split_and!; inv_goal Hlast Hbq.
    + unfold merge_inv; cbn [fst snd]; split_and!; inv_goal Hlast Hbq.
Qed.

Lemma merge_fold_inv ps :
  Forall consistent ps →
  merge_inv ps (foldl (merge_step p page_mapping min_chars max_chars) ([], None) ps).
Proof.
  intros Hps. apply (foldl_invariant (merge_inv ps)).
  - intros st x Hx Hst. apply merge_step_inv; [done| |done].
    by eapply (proj1 (Forall_forall _ _) Hps).
  - unfold merge_inv. simpl. split_and!; try done.
Qed.

(** The last chunk, when it is below the minimum, cannot be merged with
    the chunk before it. *)
Definition last_ok (l : list ChunkPayload) : Prop :=
  ∀ pre b z, l = pre ++ [b; z] → char_count z < min_chars → no_fit b z.

(** A chunk is one of the payloads the pass was given, or the pass made
    it and it is at most one and a half times the maximum. *)
Definition original_or_bounded (ps : list ChunkPayload) (c : ChunkPayload) : Prop :=
  c ∈ ps ∨ 2 * char_count c ≤ 3 * max_chars.

Lemma snoc2_inv {A} (l pre : list A) x b z :
  l ++ [x] = pre ++ [b; z] → l = pre ++ [b] ∧ x = z.
Proof.
  intros H. apply app_inj_tail. by rewrite <- app_assoc.
Qed.

Lemma merge_finish_ok ps st :
  merge_inv ps st →
  let out := merge_finish p page_mapping max_chars st in
  adjacent_ok out ∧ last_ok out ∧ Forall (original_or_bounded ps) out.
Proof.
  destruct st as [merged pending].
  intros (Hcons & Hpend & Hadj & Hlast & Hb & Hbq). cbn [fst snd] in *.
  unfold merge_finish. destruct pending as [q|].
  - destruct (Hpend q eq_refl) as [Hq Hqs]. pose proof (consistent_nonneg q Hq).
    destruct (last merged) as [L|] eqn:HL.
    + apply last_Some in HL as [l' ->].
      assert (HlastL : char_count L < min_chars →
                       ∃ q0, Some q = Some q0 ∧ no_fit L q0).
      { intros Hs. apply Hlast; [|done]. try apply last_snoc; done. }
      clear Hlast.
      apply Forall_app in Hcons as [Hcons HL]. rewrite Forall_singleton in HL.
      pose proof Hb as Hb'. apply Forall_app in Hb' as [Hb' _].
      pose proof (consistent_nonneg L HL).
      pose proof Hadj as Hadj0.
      apply adjacent_ok_snoc in Hadj as [Hadj HadjL].
      destruct (Z.leb_spec (char_count L + char_count q + 2) max_chars) as [Hfit|Hfit].
      * rewrite removelast_last.
        destruct (merge_backward_count L q HL Hq) as [_ Hn].
        assert (¬ char_count L < min_chars) as HLbig.
        { intros Hs. destruct (HlastL Hs) as (? & [= <-] & Hnf). unfold no_fit in Hnf. lia. }
        split_and!.
        -- apply adjacent_ok_snoc. split; [done|]. intros c Hc Hs.
           specialize (HadjL c Hc Hs). unfold no_fit in *. lia.
        -- intros pre b z Heq Hs. apply snoc2_inv in Heq as [_ <-]. lia.
        -- apply Forall_app. split; [done|]. apply Forall_singleton. right. lia.
      * split_and!.
        -- apply adjacent_ok_snoc. split; [done|].
           intros c. rewrite last_snoc. intros [= <-] Hs.
           by destruct (HlastL Hs) as (? & [= <-] & Hnf).
        -- intros pre b z Heq Hs. apply snoc2_inv in Heq as [Heq <-].
           apply app_inj_tail in Heq as [_ ->]. unfold no_fit. lia.
        -- apply Forall_app. split; [done|]. apply Forall_singleton. by apply Hbq.
    + apply last_None in HL as ->. simpl. split; [done|]. split.
      * intros pre b z Heq. apply (f_equal length) in Heq.
        rewrite length_app in Heq. simpl in Heq. lia.
      * apply Forall_singleton. by apply Hbq.
  - split; [done|]. split; [|done].
    intros pre b z -> Hs.
    destruct (Hlast z) as (? & [=] & _); [|done].
    replace (pre ++ [b; z]) with ((pre ++ [b]) ++ [z]) by (by rewrite <- app_assoc).
    apply last_snoc.
Qed.

End MergePass.

(** *** The guarantee of [build] on chunk sizes *)

(** Every chunk below the minimum is the only chunk, or cannot be merged
    with the chunk after it, or is the last chunk and cannot be merged with
    the chunk before it. *)
Definition small_only_where_no_merge_fits (min_chars max_chars : Z)
    (out : list ChunkPayload) : Prop :=
  ∀ i c, out !! i = Some c → char_count c < min_chars →
    length out = 1%nat
    ∨ (∃ d, out !! S i = Some d ∧ max_chars < char_count c + char_count d + 2)
    ∨ (S i = length out
       ∧ ∃ j b, i = S j ∧ out !! j = Some b
                ∧ max_chars < char_count b + char_count c + 2).

Lemma set_ordinal_same c : set_ordinal (ordinal c) c = c.
Proof. by destruct c. Qed.

Lemma renumber_lookup l i :
  renumber l !! i = set_ordinal (Z.of_nat i) <$> l !! i.
Proof. unfold renumber. by rewrite list_lookup_imap. Qed.

Lemma last_two_split {A} (l : list A) j b c :
  l !! j = Some b → l !! S j = Some c → length l = S (S j) →
  l = take j l ++ [b; c].
Proof.
  intros Hb Hc Hlen.
  rewrite <- (take_drop_middle l j b Hb) at 1. f_equal. f_equal.
  rewrite (drop_S l c (S j) Hc). f_equal. apply drop_ge. lia.
Qed.

Lemma small_only_after_renumber m M l :
  adjacent_ok m M l → last_ok m M l →
  small_only_where_no_merge_fits m M (renumber l).
Proof.
  intros Hadj Hlast i c Hi Hs. rewrite renumber_lookup in Hi.
  destruct (l !! i) as [c0|] eqn:Hc0; simplify_eq/=.
  unfold renumber. rewrite length_imap.
  destruct (l !! S i) as [d0|] eqn:Hd0.
  - right. left. exists (set_ordinal (Z.of_nat (S i)) d0).
    rewrite renumber_lookup, Hd0. split; [done|].
    apply (adjacent_ok_lookup m M l i c0 d0); done.
  - apply lookup_ge_None in Hd0. pose proof (lookup_lt_Some _ _ _ Hc0).
    destruct i as [|j]; [left; lia|]. right. right. split; [lia|].
    destruct (lookup_lt_is_Some_2 l j) as [b0 Hb0]; [lia|].
    exists j, (set_ordinal (Z.of_nat j) b0).
    rewrite renumber_lookup, Hb0. split; [done|]. split; [done|].
    apply (Hlast (take j l) b0 c0); [|done].
    apply last_two_split; [done|done|lia].
Qed.

Section BuildSizes.

Variable unicode_decimal : char → bool.
Variable xxh64_hexdigest : str → str.
Variable p : ChunkingPipeline.

Lemma build_payloads_consistent now fid s pm M m o :
  Forall consistent
    (build_payloads unicode_decimal xxh64_hexdigest p now fid s pm M m o).
Proof.
  unfold build_payloads.
  apply (foldl_invariant (fun st : list ChunkPayload * Z => Forall consistent st.1));
    [|by apply Forall_nil].
  intros st [[path body] start] _ Hst. unfold section_step.
  destruct (negb (nonblank body)); [done|].
  apply (foldl_invariant (fun st : list ChunkPayload * Z => Forall consistent st.1));
    [|done].
  intros [ps o'] [[ctext rs] re] _ Hps. unfold payload_step.
  destruct (negb _); [done|]. destruct (_ && _); [done|].
  simpl. apply Forall_app. split; [done|]. by apply Forall_singleton.
Qed.


End BuildSizes.

(** ** [build] on concrete texts *)

Definition a_file : str := of_string "f".

(** *** Coverage of the text by the chunk ranges *)

Definition in_range (c : ChunkPayload) (i : Z) : Prop :=
  start_char (metadata c) ≤ i < end_char (metadata c).

(** The ranges, in ordinal order, cover every character of the text once:
    each index lies in the range of exactly one chunk, and the ranges
    ascend. *)
Definition covers_once (out : list ChunkPayload) (s : str) : Prop :=
  (∀ i, 0 ≤ i < len s →
        ∃ k c, out !! k = Some c ∧ in_range c i
               ∧ ∀ k' c', out !! k' = Some c' → in_range c' i → k' = k)
  ∧ (∀ k c d, out !! k = Some c → out !! S k = Some d →
              end_char (metadata c) ≤ start_char (metadata d)).

(** Two one-letter paragraphs, four new lines apart *)
Definition far_apart : str := of_string "a" ++ [nl; nl; nl; nl] ++ of_string "b".

Example build_far_apart :
  (fun c => (text c, start_char (metadata c), end_char (metadata c)))
    <$> build_ascii (init_default None) 0 a_file far_apart None None None
  = [(of_string "a" ++ [nl; nl] ++ of_string "b", 0, 4)]
  ∧ len far_apart = 6.
Proof. split; vm_compute; reflexivity. Qed.

(** The two paragraphs end up in one chunk whose text joins them with two
    new lines and whose range is the start of the first paragraph plus the
    length of that text, [0, 4); the letter b at index 5 of the input lies
    in no range. *)
Lemma joined_range_stops_short :
  ¬ covers_once (build_ascii (init_default None) 0 a_file far_apart None None None)
      far_apart.
Proof.
  intros [Hcov _]. destruct (Hcov 5) as (k & c & Hk & [_ Hhi] & _).
  { split; [lia|reflexivity]. }
  pose proof build_far_apart as [Hout _].
  destruct (build_ascii _ _ _ _ _ _ _) as [|c0 [|c1 rest]]; simplify_eq/=.
  destruct k as [|k]; simplify_eq/=. lia.
Qed.

(** A paragraph of 254 characters and one of four, under a maximum of 256
    and a minimum of 80 characters *)
Definition long_then_tail : str :=
  replicate 254 122%N ++ [nl; nl] ++ of_string "tail".

Example build_long_then_tail :
  (fun c => (char_count c, start_char (metadata c), end_char (metadata c)))
    <$> build_ascii (init None 64 0 20) 0 a_file long_then_tail None None None
  = [(254, 0, 254)]
  ∧ (fun c : Span => (len c.1.1, c.1.2, c.2))
      <$> _semantic_chunk ascii_decimal long_then_tail 256 80 0
    = [(254, 0, 254); (4, 256, 260)]
  ∧ len long_then_tail = 260.
Proof. repeat split; vm_compute; reflexivity. Qed.


(** *** Chunk sizes *)

(** The two halves of the guarantee the specification states. A structural
    unit is a semantic block of a section. *)
Definition at_least_minimum (min_chars : Z) (out : list ChunkPayload) : Prop :=
  ∀ c, c ∈ out → length out = 1%nat ∨ min_chars ≤ char_count c.

Definition at_most_maximum (p : ChunkingPipeline) (s : str) (max_chars : Z)
    (out : list ChunkPayload) : Prop :=
  ∀ c, c ∈ out →
    char_count c ≤ max_chars
    ∨ ∃ sec b, sec ∈ _split_sections p s
               ∧ b ∈ _parse_semantic_blocks ascii_decimal sec.1.2
               ∧ max_chars < len (sb_text b).

(** A pipeline with the smallest sizes the constructor allows: at most
    256 characters, at least 80. *)
Definition smallest_pipeline : ChunkingPipeline := init None 64 0 20.

(** A section whose two short paragraphs are eighty new lines apart, then
    a section of 254 characters *)
Definition sparse_then_dense : str :=
  of_string "# A" ++ [nl] ++ of_string "x" ++ replicate 80 nl ++ of_string "y" ++ [nl]
  ++ of_string "# B" ++ [nl] ++ replicate 250 122%N.

Example build_sparse_then_dense :
  (fun c => (char_count c, section_path c))
    <$> build_ascii smallest_pipeline 0 a_file sparse_then_dense None None None
  = [(8, Some (of_string "1:A")); (254, Some (of_string "1:B"))]
  ∧ min_chunk_chars smallest_pipeline = 80
  ∧ max_chunk_chars smallest_pipeline None = 256.
Proof. repeat split; vm_compute; reflexivity. Qed.


(** A short paragraph and one of 250 characters *)
Definition short_then_long : str :=
  of_string "short para" ++ [nl; nl] ++ replicate 250 122%N.

(** The maximum fails too, with no block above it: a working chunk below
    the minimum takes the next block whatever the sum. *)
Lemma maximum_exceeded_without_large_block :
  ¬ at_most_maximum smallest_pipeline short_then_long
      (max_chunk_chars smallest_pipeline None)
      (build_ascii smallest_pipeline 0 a_file short_then_long None None None).
Proof.
  intros Hmax.
  assert (Hout : char_count
                   <$> build_ascii smallest_pipeline 0 a_file short_then_long None None None
                 = [262]) by (vm_compute; reflexivity).
  assert (Hsec : _split_sections smallest_pipeline short_then_long
                 = [(None, short_then_long, 0)]) by (vm_compute; reflexivity).
  assert (Hblocks : Forall (fun n => n ≤ 256)
                      ((fun b => len (sb_text b))
                         <$> _parse_semantic_blocks ascii_decimal short_then_long)).
  { replace (_ <$> _) with [10; 250] by (vm_compute; reflexivity).
    repeat constructor; lia. }
  rewrite Forall_fmap in Hblocks.
  destruct (build_ascii _ _ _ _ _ _ _) as [|c0 [|c1 rest]]; try discriminate Hout.
  injection Hout as Hc0.
  change (max_chunk_chars smallest_pipeline None) with 256 in Hmax.
  destruct (Hmax c0 (list_elem_of_here _ _)) as [Hle|(sec & b & Hs & Hb & Hlt)]; [lia|].
  rewrite Hsec in Hs. apply list_elem_of_singleton in Hs as ->. cbn [fst snd] in Hb.
  pose proof (proj1 (Forall_forall _ _) Hblocks b Hb) as Hle. simpl in Hle. lia.
Qed.

(** *** Two short sections *)

Definition two_sections : str :=
  of_string "# A" ++ [nl] ++ of_string "para1." ++ [nl; nl]
  ++ of_string "# B" ++ [nl] ++ of_string "para2.".

Definition label_a : str := of_string "1:A".
Definition label_b : str := of_string "1:B".

(** What the specification expects of the two sections *)
Definition merged_with_both_labels (out : list ChunkPayload) : Prop :=
  ∃ c, out = [c]
       ∧ contains (text c) (of_string "para1.") = true
       ∧ contains (text c) (of_string "para2.") = true
       ∧ ∃ path, section_path c = Some path
                 ∧ contains path label_a = true
                 ∧ contains path label_b = true.

(** C8 as stated fails on the code: the one chunk carries the label of
    the first section only. *)
Lemma two_sections_counterexample :
  ¬ merged_with_both_labels
      (build_ascii (init_default None) 0 a_file two_sections None None None).
Proof.
  intros (c & Hout & _ & _ & path & Hpath & _ & Hb).
  assert (Hp : section_path
                 <$> build_ascii (init_default None) 0 a_file two_sections None None None
               = [Some label_a]) by (vm_compute; reflexivity).
  rewrite Hout in Hp. injection Hp as Hp. rewrite Hpath in Hp.
  injection Hp as ->. vm_compute in Hb. discriminate.
Qed.

(** ** A text of one block *)

Lemma starts_with_refl s : starts_with s s = true.
Proof. induction s as [|c s IH]; simpl; [done|]. by rewrite N.eqb_refl. Qed.

Lemma find_self s : find s s 0 = 0.
Proof.
  unfold find. destruct (Z.ltb_spec (len s) 0) as [H|_].
  - pose proof (len_nonneg s). lia.
  - simpl. destruct s; simpl; [done|]. by rewrite N.eqb_refl, starts_with_refl.
Qed.

Lemma slice_all s : slice s 0 (len s) = s.
Proof.
  unfold slice, clamp. pose proof (len_nonneg s).
  destruct (Z.ltb_spec (len s) 0); [lia|]. simpl.
  rewrite Z.min_id, (Z.min_l 0) by lia. rewrite Z.sub_0_r. simpl.
  unfold len. rewrite Nat2Z.id. apply firstn_all.
Qed.

Lemma drop_while_snoc_keeps (f : char → bool) l c :
  f c = false → drop_while f (l ++ [c]) ≠ [].
Proof.
  intros Hc. induction l as [|x l IH]; simpl.
  - by rewrite Hc.
  - destruct (f x); [done|]. discriminate.
Qed.

(** A text with a character that is not white space keeps one when
    stripped. *)
Lemma nonblank_strip s : nonblank s = true → nonempty (strip s) = true.
Proof.
  unfold nonblank, strip, rstrip, lstrip. intros H.
  destruct (drop_while isspace s) as [|c t] eqn:Hd; [done|].
  assert (Hc : isspace c = false).
  { clear H. induction s as [|x s IH]; simpl in Hd; [done|].
    destruct (isspace x) eqn:Hx; [by apply IH|]. by simplify_eq. }
  rewrite reverse_cons.
  pose proof (drop_while_snoc_keeps isspace (reverse t) c Hc) as Hne.
  destruct (drop_while isspace (reverse t ++ [c])) as [|y ys] eqn:Hr; [done|].
  rewrite reverse_cons. by destruct (reverse ys).
Qed.

Lemma Forall_drop_while (P : char → Prop) f s :
  Forall P s → Forall P (drop_while f s).
Proof.
  induction 1 as [|c s Hc Hs IH]; simpl; [done|].
  destruct (f c); [done|]. by constructor.
Qed.

Lemma Forall_strip (P : char → Prop) s : Forall P s → Forall P (strip s).
Proof.
  intros H. unfold strip, rstrip, lstrip.
  apply Forall_reverse, Forall_drop_while, Forall_reverse. by apply Forall_drop_while.
Qed.

(** A character that starts no heading, fence, table row or paragraph
    break *)
Definition plain_char (c : char) : bool :=
  negb ((c =? nl) || (c =? hash) || (c =? backtick) || (c =? pipe))%N.

Definition plain (s : str) : Prop := Forall (fun c => plain_char c = true) s.

Lemma plain_char_ne c :
  plain_char c = true →
  (c =? nl)%N = false ∧ (c =? hash)%N = false
  ∧ (c =? backtick)%N = false ∧ (c =? pipe)%N = false.
Proof.
  unfold plain_char.
  destruct (c =? nl)%N, (c =? hash)%N, (c =? backtick)%N, (c =? pipe)%N; done.
Qed.

Lemma finditer_aux_plain (m : bool → str → option nat) s :
  (∀ bol c t, plain_char c = true → m bol (c :: t) = None) →
  plain s → ∀ i bol, finditer_aux m s i bol 0 = [].
Proof.
  intros Hm. induction 1 as [|c s Hc Hs IH]; intros i bol; simpl; [done|].
  by rewrite (Hm bol c s Hc).
Qed.

Lemma section_match_plain bol c t :
  plain_char c = true → section_match bol (c :: t) = None.
Proof.
  intros (_ & Hh & _ & _)%plain_char_ne. unfold section_match, section_groups.
  simpl. rewrite Hh. by destruct bol.
Qed.

Lemma code_block_match_plain bol c t :
  plain_char c = true → code_block_match bol (c :: t) = None.
Proof.
  intros (_ & _ & Hb & _)%plain_char_ne. unfold code_block_match.
  rewrite N.eqb_sym in Hb. cbn [starts_with fence]. by rewrite Hb.
Qed.

Lemma split_aux_plain keep s cur :
  plain s → split_aux blank_line_match keep s cur 0 = [reverse cur ++ s].
Proof.
  intros Hs. revert cur. induction Hs as [|c s Hc Hs IH]; intros cur; simpl.
  - by rewrite app_nil_r.
  - apply plain_char_ne in Hc as (Hn & _). rewrite Hn, IH, reverse_cons.
    by rewrite <- app_assoc.
Qed.

Lemma split_lines_aux_plain s cur :
  plain s → split_lines_aux s cur = [reverse cur ++ s].
Proof.
  intros Hs. revert cur. induction Hs as [|c s Hc Hs IH]; intros cur; simpl.
  - by rewrite app_nil_r.
  - apply plain_char_ne in Hc as (Hn & _). rewrite Hn, IH, reverse_cons.
    by rewrite <- app_assoc.
Qed.

Lemma split_lines_plain s : plain s → split_lines s = [s].
Proof. intros Hs. unfold split_lines. by rewrite split_lines_aux_plain. Qed.

Lemma starts_with_pipe_plain s : plain s → starts_with [pipe] s = false.
Proof.
  intros Hs. destruct Hs as [|c t Hc _]; [done|].
  apply plain_char_ne in Hc as (_ & _ & _ & Hp). rewrite N.eqb_sym in Hp.
  cbn [starts_with]. by rewrite Hp.
Qed.

Lemma find_table_loop_one total line :
  starts_with [pipe] (strip line) = false →
  find_table_loop total [line] false 0 0 = [].
Proof. intros H. cbn [find_table_loop]. by rewrite H. Qed.

Lemma find_table_ranges_plain s : plain s → _find_table_ranges s = [].
Proof.
  intros Hs. unfold _find_table_ranges. rewrite split_lines_plain by done.
  apply find_table_loop_one, starts_with_pipe_plain. by apply Forall_strip.
Qed.

Lemma nonblank_nonempty s : nonblank s = true → nonempty s = true ∧ 0 < len s.
Proof. destruct s; [done|]. intros _. split; [done|]. unfold len. simpl. lia. Qed.

Section OneBlock.

Variable unicode_decimal : char → bool.
Variable xxh64_hexdigest : str → str.

Definition one_block (s : str) (ty : BlockType) : SemanticBlock :=
  {| sb_text := s; block_type := ty; start_offset := 0; end_offset := len s |}.

Lemma parse_paragraphs_one s :
  plain s → nonblank s = true →
  ∃ ty, _parse_paragraphs_and_lists unicode_decimal s 0 = [one_block s ty].
Proof.
  intros Hs Hb. unfold _parse_paragraphs_and_lists, split.
  rewrite Hb, split_aux_plain by done.
  change (reverse [] ++ s) with s. cbn [negb paragraphs_loop].
  rewrite Hb, find_self. cbn [negb Z.eqb].
  destruct (is_list_item unicode_decimal s); [by exists list_block|by exists paragraph].
Qed.

Lemma parse_semantic_blocks_one s :
  plain s → nonblank s = true →
  ∃ ty, _parse_semantic_blocks unicode_decimal s = [one_block s ty].
Proof.
  intros Hs Hb. destruct (nonblank_nonempty s Hb) as [_ Hlen].
  destruct (parse_paragraphs_one s Hs Hb) as [ty Hty]. exists ty.
  unfold _parse_semantic_blocks, finditer.
  rewrite (finditer_aux_plain code_block_match s code_block_match_plain Hs).
  rewrite find_table_ranges_plain by done.
  cbn [fmap list_fmap app sort_by_start foldl parse_loop first_protected List.find].
  rewrite (proj2 (Z.ltb_lt 0 (len s)) Hlen), slice_all, Hty.
  destruct (length s); cbn [parse_loop]; [done|]. by rewrite Z.ltb_irrefl.
Qed.

Lemma semantic_chunk_one s max_chars min_chars overlap :
  plain s → nonblank s = true → len s ≤ max_chars →
  _semantic_chunk unicode_decimal s max_chars min_chars overlap = [(s, 0, len s)].
Proof.
  intros Hs Hb Hmax. destruct (nonblank_nonempty s Hb) as [Hne _].
  destruct (parse_semantic_blocks_one s Hs Hb) as [ty Hty].
  unfold _semantic_chunk. rewrite Hne, Hty. cbn [negb foldl].
  unfold chunk_step. cbn [sb_text one_block current_chunk chunks current_start
                           start_offset nonempty andb].
  rewrite (proj2 (Z.ltb_ge max_chars (len s)) Hmax).
  cbn [current_chunk chunks]. rewrite Hb. reflexivity.
Qed.

Lemma split_sections_plain p s :
  plain s → nonblank s = true → _split_sections p s = [(None, s, 0)].
Proof.
  intros Hs Hb. destruct (nonblank_nonempty s Hb) as [Hne _].
  unfold _split_sections, finditer.
  by rewrite Hne, (finditer_aux_plain section_match s section_match_plain Hs).
Qed.

(** The payload [build] makes of a text that is one block *)
Definition single_payload (p : ChunkingPipeline) (now : Z) (fid s : str)
    (pm : option (list (Z * Z * Z))) : ChunkPayload :=
  {| chunk_id := _chunk_id xxh64_hexdigest fid 0 0;
     file_id := fid;
     ordinal := 0;
     text := strip s;
     snippet := slice_to (strip s) 400;
     token_count := _token_count p (strip s);
     char_count := len (strip s);
     section_path := None;
     metadata := {| md_section_path := None; start_char := 0; end_char := len s;
                    page_numbers := page_keys pm 0 (len s) |};
     created_at := now |}.

Lemma build_one_block p now fid s pm cto oto :
  plain s → nonblank s = true → len s ≤ max_chunk_chars p cto →
  build unicode_decimal xxh64_hexdigest p now fid s pm cto oto
  = [single_payload p now fid s pm].
Proof.
  intros Hs Hb Hmax. destruct (nonblank_nonempty s Hb) as [Hne _].
  unfold build, build_payloads. rewrite Hne, Hb, split_sections_plain by done.
  cbn [negb orb foldl]. unfold section_step.
  rewrite Hb, semantic_chunk_one by done.
  cbn [negb foldl length]. unfold payload_step.
  rewrite (nonblank_strip s Hb). cbn [negb]. rewrite andb_false_r.
  reflexivity.
Qed.

End OneBlock.

(** For a text that is one block by its characters alone (no new line, no
    [#], no back quote, no [|]), is not blank and fits the maximum,
    [build] returns one chunk, the stripped text, whose range is the whole
    text: the range covers every character of the input once. *)
Lemma coverage_of_one_block
    (unicode_decimal : char → bool) (xxh64_hexdigest : str → str)
    (p : ChunkingPipeline) (now : Z) (fid s : str)
    (pm : option (list (Z * Z * Z))) (cto oto : option Z) :
  plain s → nonblank s = true → len s ≤ max_chunk_chars p cto →
  let out := build unicode_decimal xxh64_hexdigest p now fid s pm cto oto in
  (∃ c, out = [c] ∧ text c = strip s ∧ ordinal c = 0
        ∧ start_char (metadata c) = 0 ∧ end_char (metadata c) = len s)
  ∧ covers_once out s.
Proof.
  intros Hs Hb Hmax. simpl.
  rewrite (build_one_block unicode_decimal xxh64_hexdigest p now fid s pm cto oto
             Hs Hb Hmax).
  split; [by eexists|]. split.
  - intros i Hi. exists 0%nat, (single_payload xxh64_hexdigest p now fid s pm).
    split; [done|]. split; [done|].
    intros [|k'] c' Hk' _; [done|]. by rewrite lookup_cons, lookup_nil in Hk'.
  - intros k c d _ Hd. by rewrite lookup_cons, lookup_nil in Hd.
Qed.

Definition hello_world : str := of_string "hello world".

Lemma coverage_of_one_block_witness :
  plain hello_world
  ∧ covers_once (build_ascii (init_default None) 0 a_file hello_world None None None)
      hello_world.
Proof.
  assert (Hp : plain hello_world) by (repeat constructor).
  split; [exact Hp|].
  refine (proj2 (coverage_of_one_block ascii_decimal key_digest (init_default None)
                   0 a_file hello_world None None None Hp eq_refl _)).
  vm_compute. discriminate.
Defined.

(** ** Two short sections, for every configuration *)

Section TwoSections.

Variable unicode_decimal : char → bool.
Variable xxh64_hexdigest : str → str.

(** [#] is not a decimal digit. *)
Hypothesis hash_not_decimal : unicode_decimal 35%N = false.

Lemma heading_is_no_list_item t : is_list_item unicode_decimal (35%N :: t) = false.
Proof.
  unfold is_list_item, list_item_match. cbn [drop_while isspace].
  change (isspace 35%N) with false. cbn [bullet take_while].
  change (bullet 35%N) with false. by rewrite hash_not_decimal.
Qed.

Lemma chunk_step_first max_chars min_chars overlap a b :
  current_chunk a = [] → len (sb_text b) ≤ max_chars →
  chunk_step max_chars min_chars overlap a b
  = {| chunks := chunks a; current_chunk := sb_text b;
       current_start := start_offset b |}.
Proof.
  intros Ha Hb. unfold chunk_step.
  by rewrite (proj2 (Z.ltb_ge _ _) Hb), Ha.
Qed.

(** The next block joins a working chunk that is below the minimum,
    whether the sum fits the maximum or not. *)
Lemma chunk_step_join max_chars min_chars overlap a b :
  nonempty (current_chunk a) = true → len (sb_text b) ≤ max_chars →
  len (strip (current_chunk a)) < min_chars →
  chunk_step max_chars min_chars overlap a b
  = {| chunks := chunks a;
       current_chunk := current_chunk a ++ sep2 ++ sb_text b;
       current_start := current_start a |}.
Proof.
  intros Ha Hb Hm. unfold chunk_step.
  rewrite (proj2 (Z.ltb_ge _ _) Hb), Ha, (proj2 (Z.leb_gt _ _) Hm).
  by destruct (_ <? _).
Qed.

Definition para_a : str := of_string "# A" ++ [nl] ++ of_string "para1.".
Definition para_b : str := of_string "# B" ++ [nl] ++ of_string "para2.".

(** The body of the one section the two headings are merged into *)
Definition merged_body : str := para_a ++ [nl; nl] ++ [nl] ++ para_b.

Lemma section_merge_step_start m a path body start :
  nonempty (pending_body a) = false → len (strip body) < m →
  section_merge_step m a (path, body, start)
  = {| merged_sections := merged_sections a; pending_body := body;
       pending_path := path; pending_start := start |}.
Proof.
  intros Ha Hb. unfold section_merge_step.
  by rewrite Ha, (proj2 (Z.ltb_lt _ _) Hb).
Qed.

Lemma section_merge_step_pending m a path body start :
  nonempty (pending_body a) = true →
  section_merge_step m a (path, body, start)
  = if m <=? len (strip (pending_body a ++ [nl] ++ body))
    then {| merged_sections :=
              merged_sections a
              ++ [(pending_path a, pending_body a ++ [nl] ++ body, pending_start a)];
            pending_body := []; pending_path := None;
            pending_start := pending_start a |}
    else {| merged_sections := merged_sections a;
            pending_body := pending_body a ++ [nl] ++ body;
            pending_path := pending_path a;
            pending_start := pending_start a |}.
Proof. intros Ha. unfold section_merge_step. by rewrite Ha. Qed.

Lemma split_two_sections p :
  10 < min_chunk_chars p →
  _split_sections p two_sections = [(Some label_a, merged_body, 0)].
Proof.
  intros Hmin. unfold _split_sections.
  change (nonempty two_sections) with true. cbn [negb].
  change (finditer section_match two_sections) with [(0, 3); (12, 15)]%nat.
  cbv beta iota zeta.
  match goal with |- context [foldl ?f ?a ?l] =>
    let v := eval vm_compute in l in
    change l with v
  end.
  fold (min_chunk_chars p). cbn [foldl].
  rewrite (section_merge_step_start _ (Build_SecAcc [] [] None 0));
    [|reflexivity|exact Hmin].
  rewrite section_merge_step_pending by reflexivity.
  destruct (_ <=? _); reflexivity.
Qed.

Lemma blocks_of_two_sections :
  _parse_semantic_blocks unicode_decimal merged_body
  = [{| sb_text := para_a; block_type := paragraph;
        start_offset := 0; end_offset := 10 |};
     {| sb_text := para_b; block_type := paragraph;
        start_offset := 13; end_offset := 23 |}].
Proof.
  unfold _parse_semantic_blocks.
  change (finditer code_block_match merged_body) with (@nil (nat * nat)).
  change (_find_table_ranges merged_body) with (@nil (Z * Z)).
  cbn [fmap list_fmap app sort_by_start foldl length].
  change (length merged_body) with 23%nat.
  cbn [parse_loop first_protected List.find].
  change (0 <? len merged_body) with true. cbv iota.
  change (slice merged_body 0 (len merged_body)) with merged_body.
  change (len merged_body <? len merged_body) with false. cbv iota.
  rewrite app_nil_r. unfold _parse_paragraphs_and_lists.
  change (nonblank merged_body) with true. cbn [negb].
  change (split blank_line_match false merged_body) with [para_a; para_b].
  cbn [paragraphs_loop].
  change (nonblank para_a) with true. change (nonblank para_b) with true.
  cbn [negb].
  rewrite (heading_is_no_list_item (of_string " A" ++ [nl] ++ of_string "para1.")
           : is_list_item unicode_decimal para_a = false).
  rewrite (heading_is_no_list_item (of_string " B" ++ [nl] ++ of_string "para2.")
           : is_list_item unicode_decimal para_b = false).
  reflexivity.
Qed.

Lemma semantic_chunk_two_sections max_chars min_chars overlap :
  10 ≤ max_chars → 10 < min_chars →
  _semantic_chunk unicode_decimal merged_body max_chars min_chars overlap
  = [(two_sections, 0, 22)].
Proof.
  intros Hmax Hmin. unfold _semantic_chunk. rewrite blocks_of_two_sections.
  change (nonempty merged_body) with true. cbn [negb foldl].
  rewrite (chunk_step_first max_chars min_chars overlap
             {| chunks := []; current_chunk := []; current_start := 0 |});
    [|reflexivity|exact Hmax].
  rewrite chunk_step_join; [|reflexivity|exact Hmax|exact Hmin].
  reflexivity.
Qed.

(** The one payload [build] returns for the two sections *)
Definition two_sections_payload (p : ChunkingPipeline) (now : Z) (fid : str)
    (pm : option (list (Z * Z * Z))) : ChunkPayload :=
  {| chunk_id := _chunk_id xxh64_hexdigest fid 0 0;
     file_id := fid;
     ordinal := 0;
     text := two_sections;
     snippet := two_sections;
     token_count := _token_count p two_sections;
     char_count := 22;
     section_path := Some label_a;
     metadata := {| md_section_path := Some label_a; start_char := 0;
                    end_char := 22; page_numbers := page_keys pm 0 22 |};
     created_at := now |}.

Lemma build_two_sections p now fid pm cto oto :
  10 < min_chunk_chars p → 10 ≤ max_chunk_chars p cto →
  build unicode_decimal xxh64_hexdigest p now fid two_sections pm cto oto
  = [two_sections_payload p now fid pm].
Proof.
  intros Hmin Hmax. unfold build, build_payloads.
  change (nonempty two_sections) with true.
  change (nonblank two_sections) with true.
  rewrite split_two_sections by done.
  cbn [negb orb foldl]. unfold section_step.
  change (nonblank merged_body) with true.
  rewrite semantic_chunk_two_sections by done.
  cbn [negb foldl length]. unfold payload_step.
  change (strip two_sections) with two_sections.
  change (nonempty two_sections) with true.
  cbn [negb]. rewrite andb_false_r. reflexivity.
Qed.

End TwoSections.

(** ** The block parser runs to the end of the text *)

Lemma first_protected_ahead ranges pos start end_ inside :
  first_protected ranges pos = Some (start, end_, inside) →
  if inside then pos < end_ else pos < start.
Proof.
  induction ranges as [|[s e] rest IH]; simpl; [done|].
  destruct ((s <=? pos) && (pos <? e)) eqn:Hin.
  - intros [= <- <- <-]. lia.
  - destruct (Z.ltb_spec pos s); [|done]. by intros [= <- <- <-].
Qed.

Lemma first_protected_none ranges pos :
  first_protected ranges pos = None →
  List.find (fun r : Z * Z => pos <? r.1) ranges = None.
Proof.
  induction ranges as [|[s e] rest IH]; simpl; [done|].
  destruct ((s <=? pos) && (pos <? e)); [done|].
  destruct (pos <? s); [done|]. exact IH.
Qed.

(** Every round of the loop of [_parse_semantic_blocks] moves the position
    forward, so the loop needs no more rounds than characters are left:
    with more fuel than that, the fuel does not matter. *)
Lemma parse_loop_fuel unicode_decimal s code_ranges protected_ranges f1 :
  ∀ f2 pos,
    (Z.to_nat (len s - pos) < f1)%nat → (Z.to_nat (len s - pos) < f2)%nat →
    parse_loop unicode_decimal f1 s code_ranges protected_ranges pos
    = parse_loop unicode_decimal f2 s code_ranges protected_ranges pos.
Proof.
  induction f1 as [|f1 IH]; intros f2 pos H1 H2; [lia|].
  destruct f2 as [|f2]; [lia|]. simpl.
  destruct (Z.ltb_spec pos (len s)) as [Hpos|Hpos]; [|done].
  destruct (first_protected protected_ranges pos) as [[[start end_] inside]|] eqn:Hp.
  - apply first_protected_ahead in Hp. destruct inside.
    + f_equal. apply IH; lia.
    + f_equal. apply IH; lia.
  - rewrite (first_protected_none _ _ Hp). f_equal. apply IH; lia.
Qed.

(** [_parse_semantic_blocks] gives its loop enough fuel. *)
Lemma parse_semantic_blocks_total unicode_decimal s extra :
  _parse_semantic_blocks unicode_decimal s
  = parse_loop unicode_decimal (S (length s) + extra) s
      ((fun m : nat * nat => (Z.of_nat m.1, Z.of_nat m.2))
         <$> finditer code_block_match s)
      (sort_by_start
         (((fun m : nat * nat => (Z.of_nat m.1, Z.of_nat m.2))
             <$> finditer code_block_match s) ++ _find_table_ranges s))
      0.
Proof.
  unfold _parse_semantic_blocks. apply parse_loop_fuel; unfold len; lia.
Qed.

(** The decimal rendering has fuel for every digit. *)
Lemma dec_digits_fuel f1 :
  ∀ f2 n acc,
    (N.to_nat (N.log2 n) < f1)%nat → (N.to_nat (N.log2 n) < f2)%nat →
    dec_digits f1 n acc = dec_digits f2 n acc.
Proof.
  induction f1 as [|f1 IH]; intros f2 n acc H1 H2; [lia|].
  destruct f2 as [|f2]; [lia|]. simpl.
  destruct (N.ltb_spec n 10) as [Hn|Hn]; [done|].
  assert (Hlog : (N.log2 (n / 10) < N.log2 n)%N).
  { assert (0 < n / 10)%N by (apply N.div_str_pos; lia).
    apply N.log2_lt_pow2; [done|].
    apply N.Div0.div_lt_upper_bound.
    pose proof (N.log2_spec n ltac:(lia)) as [_ Hup].
    rewrite N.pow_succ_r' in Hup. lia. }
  apply IH; lia.
Qed.

(** * Further properties of the chunker *)

(** ** Page numbers of a range *)

Definition ascending (l : list Z) : Prop :=
  ∀ i j x y, (i < j)%nat → l !! i = Some x → l !! j = Some y → x < y.

Lemma ascending_cons x l :
  ascending (x :: l) ↔ (∀ y, y ∈ l → x < y) ∧ ascending l.
Proof.
  split.
  - intros H. split.
    + intros y Hy. apply list_elem_of_lookup in Hy as [j Hj].
      apply (H 0%nat (S j) x y); [lia|done|done].
    + intros i j a b Hij Ha Hb. apply (H (S i) (S j) a b); [lia|done|done].
  - intros [Hx Hl] i j a b Hij Ha Hb.
    destruct j as [|j]; [lia|]. simpl in Hb.
    destruct i as [|i]; simpl in Ha.
    + simplify_eq. apply Hx. by eapply list_elem_of_lookup_2.
    + apply (Hl i j a b); [lia|done|done].
Qed.

Lemma insert_page_elem n l x : x ∈ insert_page n l ↔ x = n ∨ x ∈ l.
Proof.
  induction l as [|y l IH]; simpl.
  - rewrite list_elem_of_singleton, elem_of_nil. tauto.
  - destruct (Z.ltb_spec n y); [rewrite (elem_of_cons (y :: l)); tauto|].
    destruct (Z.eqb_spec n y) as [->|]; [rewrite elem_of_cons; tauto|].
    rewrite !elem_of_cons, IH. tauto.
Qed.

Lemma insert_page_ascending n l : ascending l → ascending (insert_page n l).
Proof.
  induction l as [|y l IH]; simpl; intros Hl.
  - intros i j a b Hij Ha Hb. destruct j; [lia|]. by destruct i.
  - apply ascending_cons in Hl as [Hy Hl].
    destruct (Z.ltb_spec n y).
    + apply ascending_cons. split.
      * intros z [->|Hz]%elem_of_cons; [done|]. specialize (Hy z Hz). lia.
      * by apply ascending_cons.
    + destruct (Z.eqb_spec n y) as [->|]; [by apply ascending_cons|].
      apply ascending_cons. split; [|by apply IH].
      intros z [->|Hz]%insert_page_elem; [lia|by apply Hy].
Qed.

Lemma pages_fold start end_ pm acc :
  let out := foldl (fun pages '(page_start, page_end, page_num) =>
                      if (start <? page_end) && (page_start <? end_)
                      then insert_page page_num pages else pages) acc pm in
  (ascending acc → ascending out)
  ∧ ∀ n, n ∈ out ↔ n ∈ acc ∨ ∃ a b, (a, b, n) ∈ pm ∧ start < b ∧ a < end_.
Proof.
  revert acc. induction pm as [|[[a b] n] pm IH]; intros acc; simpl.
  - split; [done|]. intros n. split; [by left|]. intros [?|(?&?&H&_)]; [done|].
    by apply elem_of_nil in H.
  - destruct (IH (if (start <? b) && (a <? end_) then insert_page n acc else acc))
      as [Hs He]. split.
    + intros Hacc. apply Hs. destruct (_ && _); [by apply insert_page_ascending|done].
    + intros m. rewrite He. clear Hs He IH.
      destruct (Z.ltb_spec start b), (Z.ltb_spec a end_); simpl;
        rewrite ?insert_page_elem; split;
        try (intros [[->|?]|(a' & b' & ? & ? & ?)];
             [right; exists a, b; split_and!; [apply list_elem_of_here|done|done]
             |by left
             |right; exists a', b'; split_and!; [by apply list_elem_of_further|done|done]]);
        try (intros [?|(a' & b' & ? & ? & ?)];
             [by left
             |right; exists a', b'; split_and!; [by apply list_elem_of_further|done|done]]);
        intros [?|(a' & b' & [?|?]%elem_of_cons & ? & ?)]; simplify_eq;
        try lia; try (by left; left); try (by left; right); try (by left);
        try (right; by exists a', b').
Qed.

(** X1. [_get_pages_for_range] returns the page numbers in strictly
    ascending order, each once, and a page number is returned exactly when
    one of its entries [(page_start, page_end, page_num)] in the mapping
    overlaps the range: [start < page_end] and [page_start < end]. *)
Theorem pages_for_range_ascending_overlapping (start end_ : Z)
    (page_mapping : list (Z * Z * Z)) :
  ascending (_get_pages_for_range start end_ page_mapping)
  ∧ ∀ n, n ∈ _get_pages_for_range start end_ page_mapping
         ↔ ∃ a b, (a, b, n) ∈ page_mapping ∧ start < b ∧ a < end_.
Proof.
  destruct (pages_fold start end_ page_mapping []) as [Hs He]. split.
  - apply Hs. intros i j x y _ Hx. by rewrite lookup_nil in Hx.
  - intros n. unfold _get_pages_for_range. rewrite He. split; [|by right].
    intros [H|H]; [by apply elem_of_nil in H|done].
Qed.

(** ** The sliding window *)

Lemma slice_length s a b :
  0 ≤ a → a ≤ b → b ≤ len s → len (slice s a b) = b - a.
Proof.
  intros Ha Hab Hb. unfold slice, clamp.
  destruct (Z.ltb_spec a 0); [lia|]. destruct (Z.ltb_spec b 0); [lia|].
  rewrite !Z.min_l by lia. unfold len in *.
  rewrite length_take, length_drop. lia.
Qed.

Lemma window_loop_covers fuel s window overlap pointer i :
  0 < window → 0 ≤ overlap → 0 ≤ pointer →
  (Z.to_nat (len s - pointer) ≤ fuel)%nat →
  pointer ≤ i < len s →
  ∃ a b, (slice s a b, a, b) ∈ window_loop fuel s window overlap pointer
         ∧ pointer ≤ a ∧ a ≤ i < b ∧ b ≤ len s ∧ b - a ≤ window.
Proof.
  intros Hw Ho. revert pointer.
  induction fuel as [|fuel IH]; intros pointer Hp Hfuel Hi; [lia|].
  simpl. destruct (Z.ltb_spec pointer (len s)); [|lia].
  destruct (Z.lt_ge_cases i (Z.min (pointer + window) (len s))) as [Hin|Hout].
  - exists pointer, (Z.min (pointer + window) (len s)).
    split; [apply list_elem_of_here|]. lia.
  - destruct (Z.leb_spec (len s) (Z.min (pointer + window) (len s))); [lia|].
    destruct (IH (Z.max (Z.min (pointer + window) (len s) - overlap) (pointer + 1)))
      as (a & b & Hab & ?); [lia|lia|lia|].
    exists a, b. split; [by apply list_elem_of_further|]. lia.
Qed.

Lemma window_loop_spans fuel s window overlap pointer t a b :
  0 < window → 0 ≤ pointer →
  (t, a, b) ∈ window_loop fuel s window overlap pointer →
  t = slice s a b ∧ pointer ≤ a ∧ a < b ∧ b ≤ len s ∧ b - a ≤ window.
Proof.
  intros Hw. revert pointer.
  induction fuel as [|fuel IH]; intros pointer Hp; simpl; [by intros ?%elem_of_nil|].
  destruct (Z.ltb_spec pointer (len s)); [|by intros ?%elem_of_nil].
  intros [Heq|Hin]%elem_of_cons.
  - injection Heq as -> -> ->. split; [done|]. lia.
  - destruct (Z.leb_spec (len s) (Z.min (pointer + window) (len s)));
      [by apply elem_of_nil in Hin|].
    apply IH in Hin; [|lia]. destruct Hin as (? & ? & ?). split; [done|]. lia.
Qed.

(** The loop of [_window] moves its pointer forward in every round, so
    [len(text)] rounds run it to its end: more fuel changes nothing. *)
Lemma window_loop_fuel f1 f2 s window overlap pointer :
  0 ≤ pointer →
  (Z.to_nat (len s - pointer) ≤ f1)%nat → (Z.to_nat (len s - pointer) ≤ f2)%nat →
  window_loop f1 s window overlap pointer = window_loop f2 s window overlap pointer.
Proof.
  revert f2 pointer. induction f1 as [|f1 IH]; intros f2 pointer Hp H1 H2.
  - destruct f2; simpl; [done|]. destruct (Z.ltb_spec pointer (len s)); [lia|done].
  - destruct f2 as [|f2]; simpl.
    + destruct (Z.ltb_spec pointer (len s)); [lia|done].
    + destruct (Z.ltb_spec pointer (len s)); [|done]. f_equal.
      destruct (Z.leb_spec (len s) (Z.min (pointer + window) (len s))); [done|].
      apply IH; lia.
Qed.

(** X9. The legacy sliding window [_window], for a positive window and a
    non-negative overlap: every window [(text, start, end)] is the slice
    [s[start:end]], not empty and at most [window] characters long, and
    the windows cover the text: every character lies in one of them. *)
Theorem window_covers_text (p : ChunkingPipeline) (s : str)
    (chunk_tokens_arg overlap_tokens_arg : option Z) :
  let window := default (chunk_tokens p) chunk_tokens_arg * char_ratio p in
  0 < window →
  0 ≤ default (overlap_tokens p) overlap_tokens_arg * char_ratio p →
  (∀ t a b, (t, a, b) ∈ _window p s chunk_tokens_arg overlap_tokens_arg →
            t = slice s a b ∧ 0 ≤ a ∧ a < b ∧ b ≤ len s ∧ b - a ≤ window)
  ∧ (∀ i, 0 ≤ i < len s →
          ∃ a b, (slice s a b, a, b) ∈ _window p s chunk_tokens_arg overlap_tokens_arg
                 ∧ a ≤ i < b).
Proof.
  intros window Hw Ho. unfold _window. fold window. split.
  - intros t a b. destruct (negb (nonempty s)); [by intros ?%elem_of_nil|].
    intros H. by apply window_loop_spans in H.
  - intros i Hi. destruct s as [|c s]; [simpl in Hi; unfold len in Hi; simpl in Hi; lia|].
    cbn [nonempty negb].
    destruct (window_loop_covers (length (c :: s)) (c :: s) window
                (default (overlap_tokens p) overlap_tokens_arg * char_ratio p) 0 i)
      as (a & b & Hin & ? & ? & ?); [done|done|done|unfold len; lia|done|].
    by exists a, b.
Qed.

Lemma window_covers_text_witness :
  let s := of_string "hello world" in
  ∃ a b, (slice s a b, a, b) ∈ _window (init_default None) s None None ∧ a ≤ 3 < b.
Proof.
  intros s.
  apply (proj2 (window_covers_text (init_default None) s None None
                  ltac:(reflexivity) ltac:(discriminate)) 3).
  split; [discriminate|reflexivity].
Defined.

(** ** Sentences *)

Fixpoint chain_nat (lo : nat) (l : list (nat * nat)) : Prop :=
  match l with
  | [] => True
  | (a, b) :: r => (lo ≤ a)%nat ∧ (a < b)%nat ∧ chain_nat b r
  end.

Lemma chain_nat_weaken lo lo' l : (lo' ≤ lo)%nat → chain_nat lo l → chain_nat lo' l.
Proof. destruct l as [|[a b] r]; simpl; [done|]. intros ? (? & ? & ?). split_and!; [lia|done|done]. Qed.

(** The matches [finditer] reports are non-empty and follow one another. *)
Lemma finditer_aux_chain m rest i bol skip :
  chain_nat (i + skip) (finditer_aux m rest i bol skip).
Proof.
  revert i bol skip. induction rest as [|c t IH]; intros i bol skip; simpl; [done|].
  destruct skip as [|k].
  - destruct (m bol (c :: t)) as [[|k]|].
    + apply (chain_nat_weaken (S i + 0)); [lia|apply IH].
    + split_and!; [lia|lia|]. replace (i + S k)%nat with (S i + k)%nat by lia. apply IH.
    + apply (chain_nat_weaken (S i + 0)); [lia|apply IH].
  - replace (i + S k)%nat with (S i + k)%nat by lia. apply IH.
Qed.

Lemma finditer_aux_bound m rest i bol skip :
  (∀ bol r n, m bol r = Some n → (n ≤ length r)%nat) →
  Forall (fun ab : nat * nat => (ab.2 ≤ i + length rest)%nat)
    (finditer_aux m rest i bol skip).
Proof.
  intros Hm. revert i bol skip.
  induction rest as [|c t IH]; intros i bol skip; simpl; [done|].
  assert (Hnext : ∀ bol' k,
    Forall (fun ab : nat * nat => (ab.2 ≤ i + S (length t))%nat)
      (finditer_aux m t (S i) bol' k)).
  { intros bol' k. eapply Forall_impl; [apply IH|]. intros [a b]. simpl. lia. }
  destruct skip as [|k]; [|apply Hnext].
  destruct (m bol (c :: t)) as [[|k]|] eqn:Hmatch; try apply Hnext.
  constructor; [|apply Hnext]. apply Hm in Hmatch. simpl in *. lia.
Qed.

Lemma take_while_length (f : char → bool) (s : str) :
  (length (take_while f s) ≤ length s)%nat.
Proof. induction s as [|c s IH]; simpl; [done|]. destruct (f c); simpl; lia. Qed.

Lemma sentence_end_match_bound bol r n :
  sentence_end_match bol r = Some n → (n ≤ length r)%nat.
Proof.
  unfold sentence_end_match.
  pose proof (take_while_length sentence_punct r) as H1.
  destruct (take_while sentence_punct r) as [|x p]; [done|].
  intros [= <-].
  pose proof (take_while_length isspace (drop (length (x :: p)) r)) as H2.
  rewrite length_drop in H2. simpl in *. lia.
Qed.

(** Slices of [s] that follow one another from [lo] on: each span starts
    where the one before it ended or later, lies inside the text, and
    carries the characters of its range. *)
Fixpoint consecutive_slices (s : str) (lo : Z) (l : list Span) : Prop :=
  match l with
  | [] => True
  | (t, a, b) :: r =>
      lo ≤ a ∧ a ≤ b ∧ b ≤ len s ∧ t = slice s a b ∧ consecutive_slices s b r
  end.

Lemma consecutive_slices_weaken s lo lo' l :
  lo' ≤ lo → consecutive_slices s lo l → consecutive_slices s lo' l.
Proof.
  destruct l as [|[[t a] b] r]; simpl; [done|].
  intros ? (? & ? & ? & ? & ?). split_and!; [lia|done..].
Qed.

Lemma sentences_loop_slices s matches lo last_end :
  chain_nat lo matches → 0 ≤ last_end → last_end ≤ Z.of_nat lo → last_end ≤ len s →
  Forall (fun ab : nat * nat => (ab.2 ≤ length s)%nat) matches →
  last_end ≤ (sentences_loop s matches last_end).2
  ∧ (sentences_loop s matches last_end).2 ≤ len s
  ∧ ∀ tail,
      consecutive_slices s (sentences_loop s matches last_end).2 tail →
      consecutive_slices s last_end ((sentences_loop s matches last_end).1 ++ tail).
Proof.
  revert lo last_end.
  induction matches as [|[a e] rest IH]; intros lo last_end Hchain H0 Hlo Hlen Hb; simpl.
  - split_and!; [lia|done|done].
  - destruct Hchain as (Ha & Hae & Hchain). apply Forall_cons in Hb as [He Hb].
    simpl in He. assert (Z.of_nat e ≤ len s) by (unfold len; lia).
    destruct (IH e (Z.of_nat e) Hchain) as (H1 & H2 & H3); [lia|lia|lia|done|].
    destruct (sentences_loop s rest (Z.of_nat e)) as [more final]. simpl in *.
    split_and!; [lia|done|]. intros tail Ht.
    destruct (nonblank (slice s last_end (Z.of_nat e))); simpl.
    + split_and!; [lia|lia|lia|done|by apply H3].
    + apply (consecutive_slices_weaken s (Z.of_nat e)); [lia|by apply H3].
Qed.

Lemma finditer_sentences s :
  chain_nat 0 (finditer sentence_end_match s)
  ∧ Forall (fun ab : nat * nat => (ab.2 ≤ length s)%nat) (finditer sentence_end_match s).
Proof.
  split.
  - apply (finditer_aux_chain sentence_end_match s 0 true 0).
  - apply (finditer_aux_bound sentence_end_match s 0 true 0).
    apply sentence_end_match_bound.
Qed.

Lemma split_into_sentences_slices s :
  _split_into_sentences s ≠ [] ∧ consecutive_slices s 0 (_split_into_sentences s).
Proof.
  unfold _split_into_sentences.
  destruct (finditer_sentences s) as [Hc Hb].
  destruct (sentences_loop_slices s _ 0%nat 0 Hc) as (H1 & H2 & H3);
    [done|done|apply len_nonneg|done|].
  destruct (sentences_loop s (finditer sentence_end_match s) 0) as [found last_end].
  simpl in *.
  assert (Hall : consecutive_slices s 0
            (found ++ (if (last_end <? len s) && nonblank (slice_from s last_end)
                       then [(slice_from s last_end, last_end, len s)] else []))).
  { apply H3. destruct (_ && _); simpl; [|done]. split_and!; [lia|lia|lia|done|done]. }
  destruct (found ++ _) as [|x l] eqn:Heq.
  - split; [done|]. simpl. pose proof (len_nonneg s).
    split_and!; [lia|lia|lia|by rewrite slice_all|done].
  - done.
Qed.

(** X2. [_split_into_sentences] always returns at least one sentence;
    every sentence [(text, start, end)] carries exactly the characters
    [s[start:end]], lies inside the text, and starts where the sentence
    before it ended or later, so sentences never overlap. *)
Theorem split_into_sentences_consecutive_slices (s : str) :
  _split_into_sentences s ≠ [] ∧ consecutive_slices s 0 (_split_into_sentences s).
Proof. apply split_into_sentences_slices. Qed.

(** ** Stripping *)

Lemma drop_while_length (f : char → bool) (s : str) :
  (length (drop_while f s) ≤ length s)%nat.
Proof. induction s as [|c s IH]; simpl; [done|]. destruct (f c); simpl; lia. Qed.

Lemma len_lstrip s : len (lstrip s) ≤ len s.
Proof. unfold len, lstrip. pose proof (drop_while_length isspace s). lia. Qed.

Lemma len_rstrip s : len (rstrip s) ≤ len s.
Proof.
  unfold len, rstrip. rewrite length_reverse.
  pose proof (drop_while_length isspace (reverse s)) as H.
  rewrite length_reverse in H. lia.
Qed.

Lemma len_strip s : len (strip s) ≤ len s.
Proof. unfold strip. pose proof (len_rstrip (lstrip s)). pose proof (len_lstrip s). lia. Qed.

Lemma drop_while_head (f : char → bool) s c t :
  drop_while f s = c :: t → f c = false.
Proof.
  induction s as [|x s IH]; simpl; [done|].
  destruct (f x) eqn:Hx; [done|]. by intros [= <- _].
Qed.

Lemma drop_while_fixed (f : char → bool) s :
  drop_while f s = s ↔ ∀ c t, s = c :: t → f c = false.
Proof.
  split.
  - intros H c t ->. by apply (drop_while_head f (c :: t) c t).
  - intros H. destruct s as [|c t]; [done|]. simpl. by rewrite (H c t eq_refl).
Qed.

Lemma drop_while_idem (f : char → bool) s :
  drop_while f (drop_while f s) = drop_while f s.
Proof. apply drop_while_fixed. intros c t. apply drop_while_head. Qed.

Lemma take_drop_while (f : char → bool) s :
  take_while f s ++ drop_while f s = s.
Proof. induction s as [|c s IH]; simpl; [done|]. destruct (f c); simpl; [by f_equal|done]. Qed.

(** [rstrip] removes a suffix. *)
Lemma rstrip_prefix s : ∃ w, s = rstrip s ++ w.
Proof.
  exists (reverse (take_while isspace (reverse s))). unfold rstrip.
  rewrite <- reverse_app, take_drop_while. by rewrite reverse_involutive.
Qed.

(** A text that neither starts nor ends with white space *)
Definition trimmed (s : str) : Prop := strip s = s.

Lemma trimmed_iff s : trimmed s ↔ lstrip s = s ∧ rstrip s = s.
Proof.
  unfold trimmed, strip. split; [|by intros [-> ->]].
  intros H. assert (Hl : lstrip s = s).
  { destruct (rstrip_prefix (lstrip s)) as [w Hw]. rewrite H in Hw.
    apply drop_while_fixed. intros c t ->.
    apply (drop_while_head isspace (c :: t) c (t ++ w)). exact Hw. }
  split; [done|]. by rewrite Hl in H.
Qed.

Lemma rstrip_idem s : rstrip (rstrip s) = rstrip s.
Proof. unfold rstrip. by rewrite reverse_involutive, drop_while_idem. Qed.

Lemma strip_trimmed s : trimmed (strip s).
Proof.
  apply trimmed_iff. split; [|apply rstrip_idem].
  unfold strip. destruct (rstrip_prefix (lstrip s)) as [w Hw].
  apply drop_while_fixed. intros c t Hct. rewrite Hct in Hw.
  by apply (drop_while_head isspace s c (t ++ w)).
Qed.

Lemma lstrip_app a b : a ≠ [] → lstrip a = a → lstrip (a ++ b) = a ++ b.
Proof.
  intros Ha H. apply drop_while_fixed. intros c t Hct.
  destruct a as [|x a]; [done|]. simplify_eq/=.
  by apply (proj1 (drop_while_fixed isspace (c :: a)) H c a).
Qed.

Lemma rstrip_app a b : b ≠ [] → rstrip b = b → rstrip (a ++ b) = a ++ b.
Proof.
  intros Hb H. unfold rstrip in *. rewrite reverse_app.
  assert (Hr : drop_while isspace (reverse b) = reverse b).
  { apply (f_equal reverse) in H. by rewrite reverse_involutive in H. }
  assert (reverse b ≠ []).
  { intros E. apply (f_equal reverse) in E. rewrite reverse_involutive in E. done. }
  fold (lstrip (reverse b ++ reverse a)). rewrite lstrip_app by done.
  by rewrite <- reverse_app, reverse_involutive.
Qed.

Lemma trimmed_join a m b :
  a ≠ [] → b ≠ [] → trimmed a → trimmed b → trimmed (a ++ m ++ b).
Proof.
  intros Ha Hb [Hla Hra]%trimmed_iff [Hlb Hrb]%trimmed_iff.
  apply trimmed_iff. split.
  - by apply lstrip_app.
  - rewrite app_assoc. by apply rstrip_app.
Qed.

(** ** The overlap text *)

Lemma slice_len_le s a b : len (slice s a b) ≤ len s.
Proof.
  unfold slice, len. rewrite length_take, length_drop. lia.
Qed.

Lemma consecutive_slices_concat s lo l :
  0 ≤ lo → lo ≤ len s → consecutive_slices s lo l →
  len (concat ((fun x : Span => x.1.1) <$> l)) ≤ len s - lo.
Proof.
  revert lo. induction l as [|[[t a] b] r IH]; intros lo H0 Hlo.
  - intros _. unfold len in *. simpl. lia.
  - intros (? & ? & ? & -> & Hr). rewrite fmap_cons. cbn [concat fst].
    rewrite len_app, slice_length by lia.
    specialize (IH b ltac:(lia) ltac:(lia) Hr). lia.
Qed.

Lemma get_overlap_text_bounded s n :
  len (_get_overlap_text s n) ≤ Z.max n 0 ∧ trimmed (_get_overlap_text s n).
Proof.
  unfold _get_overlap_text.
  destruct (Z.leb_spec n 0); simpl; [split; [unfold len; simpl; lia|done]|].
  destruct (Z.leb_spec (len s) n); simpl; [split; [unfold len; simpl; lia|done]|].
  set (region := slice_from s (- n)).
  assert (Hregion : len region ≤ n).
  { unfold region, slice_from, slice, clamp, len.
    rewrite length_take, length_drop. unfold len in *.
    destruct (Z.ltb_spec (- n) 0); [|lia].
    destruct (Z.ltb_spec (Z.of_nat (length s)) 0); lia. }
  destruct (Z.ltb_spec 1 (Z.of_nat (length (_split_into_sentences region)))).
  - split; [|apply strip_trimmed].
    destruct (split_into_sentences_slices region) as [_ Hc].
    destruct (_split_into_sentences region) as [|[[t a] b] r]; [simpl in *; lia|].
    simpl in Hc. destruct Hc as (? & ? & ? & _ & Hr).
    pose proof (consecutive_slices_concat region b r ltac:(lia) ltac:(lia) Hr) as Hlen.
    etrans; [apply len_strip|]. change (drop 1 ((t, a, b) :: r)) with r. lia.
  - destruct (_ && _).
    + split; [|apply strip_trimmed]. etrans; [apply len_strip|].
      pose proof (slice_len_le region (find region [sp] 0 + 1) (len region)).
      unfold slice_from. lia.
    + split; [|apply strip_trimmed]. etrans; [apply len_strip|]. lia.
Qed.

(** X3. The overlap text that [_get_overlap_text] hands to the next chunk
    is never longer than [overlap_chars], neither starts nor ends with
    white space, and is empty when the chunk is no longer than the
    budget (or the budget is not positive). *)
Theorem get_overlap_text_within_budget (s : str) (overlap_chars : Z) :
  len (_get_overlap_text s overlap_chars) ≤ Z.max overlap_chars 0
  ∧ trimmed (_get_overlap_text s overlap_chars)
  ∧ (len s ≤ overlap_chars → _get_overlap_text s overlap_chars = []).
Proof.
  destruct (get_overlap_text_bounded s overlap_chars) as [H1 H2].
  split_and!; [done|done|].
  intros H. unfold _get_overlap_text.
  destruct (Z.leb_spec (len s) overlap_chars); [|lia]. by rewrite orb_true_r.
Qed.

(** ** Table ranges *)

(** Ranges inside [0, total) that are not empty and follow one another
    with at least one character between them, from [lo] on *)
Fixpoint separated_ranges (lo total : Z) (l : list (Z * Z)) : Prop :=
  match l with
  | [] => True
  | (a, b) :: r => lo ≤ a ∧ a < b ∧ b ≤ total ∧ separated_ranges (b + 1) total r
  end.

Lemma separated_ranges_weaken lo lo' total l :
  lo' ≤ lo → separated_ranges lo total l → separated_ranges lo' total l.
Proof.
  destruct l as [|[a b] r]; simpl; [done|].
  intros ? (? & ? & ? & ?). split_and!; [lia|done..].
Qed.

Definition lines_span (lines : list str) : Z :=
  foldr (fun line acc => len line + 1 + acc) 0 lines.

Lemma split_lines_aux_span s cur :
  lines_span (split_lines_aux s cur) = len cur + len s + 1.
Proof.
  revert cur. induction s as [|c s IH]; intros cur; simpl.
  - unfold len. rewrite length_reverse. simpl. lia.
  - destruct (c =? nl)%N; simpl; rewrite IH; unfold len; simpl;
      rewrite ?length_reverse; lia.
Qed.

Lemma lines_span_nonneg lines : 0 ≤ lines_span lines.
Proof.
  induction lines as [|l lines IH]; simpl; [done|]. pose proof (len_nonneg l). lia.
Qed.

Lemma slice_from_tail c (t : str) : slice_from (c :: t) 1 = t.
Proof.
  unfold slice_from, slice, clamp. set (n := len (c :: t)).
  assert (Hn : n = Z.of_nat (length t) + 1) by (unfold n, len; simpl; lia).
  change (1 <? 0) with false. cbv iota.
  destruct (Z.ltb_spec n 0); [lia|].
  rewrite Z.min_id, (Z.min_l 1 n) by lia.
  replace (Z.to_nat (n - 1)) with (length t) by lia.
  change (Z.to_nat 1) with 1%nat. simpl. apply firstn_all.
Qed.

Lemma table_row_length line :
  starts_with [pipe] (strip line)
  && contains (slice_from (strip line) 1) [pipe] = true →
  2 ≤ len line.
Proof.
  intros [H1 H2]%andb_true_iff. pose proof (len_strip line) as Hle.
  destruct (strip line) as [|c [|d t]]; [done| |unfold len in *; simpl in *; lia].
  by rewrite slice_from_tail in H2.
Qed.

Lemma find_table_loop_separated total lines in_table table_start current_pos :
  current_pos + lines_span lines = total + 1 →
  (in_table = true → table_start + 3 ≤ current_pos) →
  separated_ranges (if in_table then table_start else current_pos) total
    (find_table_loop total lines in_table table_start current_pos).
Proof.
  revert in_table table_start current_pos.
  induction lines as [|line rest IH]; intros in_table table_start current_pos Hspan Hin.
  - simpl in *. destruct in_table; simpl; [|done]. specialize (Hin eq_refl). lia.
  - cbn [find_table_loop]. cbn [lines_span foldr] in Hspan. fold (lines_span rest) in Hspan.
    pose proof (len_nonneg line). pose proof (lines_span_nonneg rest).
    destruct (starts_with [pipe] (strip line)
              && contains (slice_from (strip line) 1) [pipe]) eqn:Hrow.
    + apply table_row_length in Hrow. cbn [orb].
      specialize (IH true (if in_table then table_start else current_pos)
                    (current_pos + len line + 1)).
      cbv iota in IH. apply IH; [lia|]. intros _.
      destruct in_table; [specialize (Hin eq_refl)|]; lia.
    + cbn [orb]. destruct in_table; cbn [andb].
      * specialize (Hin eq_refl).
        destruct (contains (strip line) [dash; dash; dash] && contains (strip line) [pipe]).
        -- apply (IH true table_start (current_pos + len line + 1)); [lia|]. intros _. lia.
        -- split_and!; [lia|lia|lia|].
           apply (separated_ranges_weaken (current_pos + len line + 1)); [lia|].
           apply (IH false table_start (current_pos + len line + 1)); [lia|done].
      * apply (separated_ranges_weaken (current_pos + len line + 1)); [lia|].
        apply (IH false table_start (current_pos + len line + 1)); [lia|done].
Qed.

(** X4. The table ranges [_find_table_ranges] reports are non-empty, lie
    inside the text, ascend, and are separated from one another by at
    least one character. *)
Theorem find_table_ranges_separated (s : str) :
  separated_ranges 0 (len s) (_find_table_ranges s).
Proof.
  unfold _find_table_ranges.
  apply (find_table_loop_separated (len s) (split_lines s) false 0 0); [|done].
  unfold split_lines. rewrite split_lines_aux_span. unfold len. simpl. lia.
Qed.

(** ** Splitting at blank lines *)

Lemma split_aux_concat (m : str → option nat) rest cur skip :
  concat (split_aux m true rest cur skip) = reverse cur ++ drop skip rest.
Proof.
  revert cur skip. induction rest as [|c t IH]; intros cur skip.
  - simpl. by rewrite drop_nil, !app_nil_r.
  - destruct skip as [|k]; cbn [split_aux].
    + destruct (m (c :: t)) as [[|k]|].
      * rewrite IH, reverse_cons, <- app_assoc. done.
      * cbn [concat app]. rewrite IH. cbn [reverse rev_append].
        rewrite app_nil_l. change (c :: take k t) with (take (S k) (c :: t)).
        change (drop k t) with (drop (S k) (c :: t)).
        by rewrite take_drop.
      * rewrite IH, reverse_cons, <- app_assoc. done.
    + by rewrite IH.
Qed.

(** Spans laid end to end from [lo]: each starts where the one before it
    ended and is as long as its text. *)
Fixpoint laid_out (lo : Z) (l : list Span) : Prop :=
  match l with
  | [] => True
  | (t, a, b) :: r => a = lo ∧ b = lo + len t ∧ laid_out b r
  end.

Definition texts (l : list Span) : list str := (fun x : Span => x.1.1) <$> l.

Lemma laid_out_snoc lo l t :
  laid_out lo l →
  laid_out lo (l ++ [(t, lo + len (concat (texts l)), lo + len (concat (texts l)) + len t)]).
Proof.
  revert lo. induction l as [|[[u a] b] r IH]; intros lo; simpl.
  - intros _. unfold len at 1 3. simpl. rewrite !Z.add_0_r. done.
  - intros (-> & -> & Hr). split_and!; [done|done|].
    specialize (IH _ Hr). rewrite len_app.
    by rewrite !Z.add_assoc.
Qed.

Definition blank_inv (st : Acc * Z) (processed : str) : Prop :=
  laid_out 0 (chunks st.1)
  ∧ current_start st.1 = len (concat (texts (chunks st.1)))
  ∧ concat (texts (chunks st.1)) ++ current_chunk st.1 = processed
  ∧ st.2 = len processed.

Lemma blank_step_inv max_chars min_chars st processed part :
  blank_inv st processed →
  blank_inv (blank_step max_chars min_chars st part) (processed ++ part).
Proof.
  destruct st as [a pos]. intros (Hl & Hs & Hc & Hp). simpl in *.
  unfold blank_step, blank_inv.
  assert (Hpos : pos = current_start a + len (current_chunk a)).
  { rewrite Hp, <- Hc, len_app. lia. }
  destruct (nonempty (current_chunk a)
            && (max_chars <? len (current_chunk a) + len part)) eqn:Hbig.
  - destruct (min_chars <=? len (strip (current_chunk a))); simpl.
    + unfold close_raw, texts. rewrite fmap_app, concat_app. simpl.
      rewrite app_nil_r. fold (texts (chunks a)). split_and!.
      * rewrite Hs. apply (laid_out_snoc 0 (chunks a) (current_chunk a) Hl).
      * by rewrite Hc.
      * by rewrite Hc.
      * by rewrite len_app, Hp.
    + split_and!; [done|done|by rewrite app_assoc, Hc|by rewrite len_app, Hp].
  - simpl. split_and!; [done| |by rewrite app_assoc, Hc|by rewrite len_app, Hp].
    destruct (current_chunk a) eqn:Hcc; simpl; [|done].
    rewrite Hpos, Hs. change (len []) with 0. lia.
Qed.

Lemma blank_fold_inv max_chars min_chars parts st processed :
  blank_inv st processed →
  blank_inv (foldl (blank_step max_chars min_chars) st parts) (processed ++ concat parts).
Proof.
  revert st processed. induction parts as [|part parts IH]; intros st processed H; simpl.
  - by rewrite app_nil_r.
  - rewrite app_assoc. apply IH. by apply blank_step_inv.
Qed.

(** X5. [_split_at_blank_lines], which splits an oversized code block or
    table, drops nothing but trailing white space: it returns at least
    one chunk, the chunks are laid end to end from offset 0 with
    [end = start + len(text)], and their texts concatenated give the input
    back up to a tail that is blank. *)
Theorem split_at_blank_lines_keeps_text (s : str) (max_chars min_chars : Z) :
  let out := _split_at_blank_lines s max_chars min_chars in
  out ≠ [] ∧ laid_out 0 out
  ∧ ∃ tail, concat (texts out) ++ tail = s ∧ nonblank tail = false.
Proof.
  unfold _split_at_blank_lines.
  pose proof (blank_fold_inv max_chars min_chars (split blank_line_match true s)
                ({| chunks := []; current_chunk := []; current_start := 0 |}, 0) [])
    as Hinv.
  unfold split in Hinv at 2. rewrite split_aux_concat in Hinv. simpl in Hinv.
  destruct (foldl _ _ _) as [a pos].
  destruct Hinv as (Hl & Hs & Hc & Hp); [by split_and!|]. simpl in *.
  destruct (nonblank (current_chunk a)) eqn:Hnb.
  - assert (Hout : laid_out 0 (chunks a ++ [close_raw a])
             ∧ concat (texts (chunks a ++ [close_raw a])) ++ [] = s).
    { split.
      - unfold close_raw. rewrite Hs. apply (laid_out_snoc 0 _ _ Hl).
      - unfold texts. rewrite fmap_app, concat_app. simpl. by rewrite !app_nil_r. }
    destruct (chunks a ++ [close_raw a]) as [|x l] eqn:Heq.
    + by destruct (chunks a).
    + split; [done|]. destruct Hout as [H1 H2]. split; [done|]. by exists [].
  - destruct (chunks a) as [|x l] eqn:Heq.
    + split; [done|]. simpl. split; [by split_and!; unfold len; lia|].
      exists []. by rewrite !app_nil_r.
    + split; [done|]. split; [done|]. by exists (current_chunk a).
Qed.

(** ** What the merge pass keeps *)

Lemma join_cons (sep x : str) (r : list str) :
  r ≠ [] → join sep (x :: r) = x ++ sep ++ join sep r.
Proof. by destruct r. Qed.

Lemma join_snoc (sep : str) (l : list str) (x : str) :
  join sep (l ++ [x]) = match l with [] => x | _ => join sep l ++ sep ++ x end.
Proof.
  induction l as [|y l IH]; [done|].
  rewrite <- app_comm_cons, join_cons by (by destruct l).
  rewrite IH. destruct l as [|z l]; [done|].
  rewrite (join_cons sep y (z :: l)) by done. by rewrite <- !app_assoc.
Qed.

Lemma join_snoc_joined (sep : str) (l : list str) (a b : str) :
  join sep (l ++ [a ++ sep ++ b]) = join sep ((l ++ [a]) ++ [b]).
Proof.
  rewrite (join_snoc sep (l ++ [a]) b), !join_snoc.
  destruct l as [|y l]; simpl.
  - done.
  - destruct (l ++ [a]) eqn:E; [by destruct l|]. by rewrite <- !app_assoc.
Qed.

Section MergeKeeps.

Variable p : ChunkingPipeline.
Variable page_mapping : option (list (Z * Z * Z)).
Variables min_chars max_chars : Z.

Definition held (st : list ChunkPayload * option ChunkPayload) : list ChunkPayload :=
  st.1 ++ option_list st.2.

(** What the loop of the merge pass keeps of the payloads it has read:
    their texts, joined by blank lines. *)
Definition keeps (st : list ChunkPayload * option ChunkPayload)
    (read : list ChunkPayload) : Prop :=
  (held st = [] ↔ read = [])
  ∧ (length (held st) ≤ length read)%nat
  ∧ join sep2 (text <$> held st) = join sep2 (text <$> read).

Lemma keeps_snoc st st' read c :
  keeps st read → held st' = held st ++ [c] → keeps st' (read ++ [c]).
Proof.
  intros (He & Hl & Hj) Hst'. unfold keeps. rewrite Hst'. split_and!.
  - split; intros H; by destruct (held st), read.
  - rewrite !length_app. simpl. lia.
  - rewrite !fmap_app, !fmap_cons, !fmap_nil, !join_snoc.
    destruct (held st) as [|x l] eqn:E1, read as [|y r] eqn:E2.
    + done.
    + discriminate (proj1 He eq_refl).
    + discriminate (proj2 He eq_refl).
    + simpl in *. by rewrite Hj.
Qed.

Lemma keeps_merged st merged' pd mp read c :
  keeps st read → st.2 = Some pd →
  text mp = text pd ++ sep2 ++ text c →
  merged' = st.1 ++ [mp] →
  (held st = [] ↔ read = [])
  ∧ (length merged' ≤ length (read ++ [c]))%nat
  ∧ join sep2 (text <$> merged') = join sep2 (text <$> (read ++ [c])).
Proof.
  destruct st as [merged pending]. unfold keeps, held. cbn [fst snd].
  intros (He & Hl & Hj) -> Hmp ->.
  change (option_list (Some pd)) with [pd] in *. split_and!; [done| |].
  - rewrite !length_app in *. simpl in *. lia.
  - rewrite !fmap_app, !fmap_cons, !fmap_nil in *. rewrite Hmp, join_snoc_joined.
    rewrite (join_snoc sep2 (_ ++ [text pd])), (join_snoc sep2 (text <$> read)).
    destruct read as [|y r].
    + pose proof (proj2 He eq_refl) as E. by destruct merged.
    + rewrite Hj. destruct ((text <$> merged) ++ [text pd]) eqn:E1; [by destruct merged|].
      by rewrite fmap_cons.
Qed.

Lemma merge_step_keeps st read c :
  keeps st read →
  keeps (merge_step p page_mapping min_chars max_chars st c) (read ++ [c]).
Proof.
  intros Hk. destruct st as [merged [pd|]]; cbn [merge_step].
  - destruct (should_merge min_chars max_chars pd c).
    + destruct (keeps_merged (merged, Some pd)
                  (merged ++ [merge_forward p page_mapping pd c]) pd
                  (merge_forward p page_mapping pd c) read c Hk)
        as (He & Hl & Hj); [done|done|done|].
      assert (Hne : ∀ l : list ChunkPayload, (l ++ [c] = []) ↔ (merged ++ [merge_forward p page_mapping pd c] = [])).
      { intros l. split; intros H; [by destruct l|by destruct merged]. }
      destruct (char_count _ <? min_chars); unfold keeps, held; simpl;
        rewrite ?app_nil_r; (split_and!; [|done|done]);
        split; intros H; [by destruct merged|by destruct read|by destruct merged|by destruct read].
    + destruct (char_count c <? min_chars); apply (keeps_snoc (merged, Some pd));
        try done; unfold held; simpl; by rewrite <- ?app_assoc, ?app_nil_r.
  - destruct (char_count c <? min_chars); apply (keeps_snoc (merged, None));
      try done; unfold held; simpl; by rewrite ?app_nil_r.
Qed.

Lemma merge_fold_keeps l st read :
  keeps st read →
  keeps (foldl (merge_step p page_mapping min_chars max_chars) st l) (read ++ l).
Proof.
  revert st read. induction l as [|c l IH]; intros st read H; simpl.
  - by rewrite app_nil_r.
  - rewrite (app_assoc read [c] l : read ++ c :: l = (read ++ [c]) ++ l).
    apply IH. by apply merge_step_keeps.
Qed.

Lemma merge_finish_keeps st read :
  keeps st read →
  let out := merge_finish p page_mapping max_chars st in
  (out = [] ↔ read = []) ∧ (length out ≤ length read)%nat
  ∧ join sep2 (text <$> out) = join sep2 (text <$> read).
Proof.
  destruct st as [merged [pd|]]; intros Hk; cbn [merge_finish].
  - destruct (last merged) as [last_|] eqn:Hlast.
    + destruct (char_count last_ + char_count pd + 2 <=? max_chars); [|exact Hk].
      destruct Hk as (He & Hl & Hj). unfold held in *. cbn [fst snd] in *.
      change (option_list (Some pd)) with [pd] in *.
      apply last_Some in Hlast as [l' ->]. rewrite removelast_last.
      split_and!.
      * split; intros H; [by destruct l'|].
        pose proof (proj2 He H) as E. by destruct l'.
      * rewrite !length_app in *. simpl in *. lia.
      * rewrite <- Hj, !fmap_app, !fmap_cons, !fmap_nil. apply join_snoc_joined.
    + exact Hk.
  - destruct Hk as (He & Hl & Hj). unfold held in *. cbn [fst snd option_list] in *.
    by rewrite app_nil_r in *.
Qed.

Lemma renumber_text l : text <$> renumber l = text <$> l.
Proof.
  apply list_eq. intros i. rewrite !list_lookup_fmap, renumber_lookup.
  by destruct (l !! i).
Qed.

Lemma renumber_length l : length (renumber l) = length l.
Proof. unfold renumber. apply length_imap. Qed.

(** X6. The merge pass [_merge_small_chunks] loses no text: the texts of
    the chunks it returns, joined by blank lines, are the texts of the
    chunks it was given, joined by blank lines. It never returns more
    chunks than it was given, and returns none only when given none. *)
Theorem merge_small_chunks_keeps_text (payloads : list ChunkPayload) :
  let out := _merge_small_chunks p payloads min_chars max_chars page_mapping in
  join sep2 (text <$> out) = join sep2 (text <$> payloads)
  ∧ (length out ≤ length payloads)%nat
  ∧ (out = [] ↔ payloads = []).
Proof.
  unfold _merge_small_chunks. destruct (length payloads <=? 1)%nat; [done|].
  pose proof (merge_fold_keeps payloads ([], None) []) as Hk. simpl in Hk.
  destruct (merge_finish_keeps _ payloads (Hk ltac:(by split_and!))) as (He & Hl & Hj).
  simpl in *. rewrite renumber_text. split_and!; [done|by rewrite renumber_length|].
  rewrite <- He. split; [|by intros ->].
  intros H. apply (f_equal length) in H. rewrite renumber_length in H.
  by destruct (merge_finish _ _ _ _).
Qed.

(** A property that both merges keep is kept by the pass. *)
Lemma merge_small_chunks_Forall (P : ChunkPayload → Prop) payloads :
  (∀ a b, P a → P b → P (merge_forward p page_mapping a b)) →
  (∀ a b, P a → P b → P (merge_backward p page_mapping a b)) →
  (∀ i c, P c → P (set_ordinal i c)) →
  Forall P payloads →
  Forall P (_merge_small_chunks p payloads min_chars max_chars page_mapping).
Proof.
  intros Hf Hb Ho Hall. unfold _merge_small_chunks.
  destruct (length payloads <=? 1)%nat; [done|].
  assert (Hfold : let st := foldl (merge_step p page_mapping min_chars max_chars)
                              ([], None) payloads in
                  Forall P st.1 ∧ ∀ q, st.2 = Some q → P q).
  { apply (foldl_invariant
             (fun st : list ChunkPayload * option ChunkPayload =>
                Forall P st.1 ∧ ∀ q, st.2 = Some q → P q)); [|by split].
    intros [merged pending] c Hc [Hm Hp]. simpl in *.
    assert (Pc : P c) by (by eapply (proj1 (Forall_forall _ _) Hall)).
    destruct pending as [pd|]; cbn [merge_step].
    - specialize (Hp pd eq_refl).
      destruct (should_merge _ _ _ _).
      + destruct (_ <? _); simpl.
        * split; [done|]. intros q [= <-]. by apply Hf.
        * split; [|done]. apply Forall_app. split; [done|].
          apply Forall_singleton. by apply Hf.
      + destruct (char_count c <? min_chars); simpl.
        * split; [|by intros q [= <-]]. apply Forall_app. split; [done|].
          by apply Forall_singleton.
        * split; [|done]. apply Forall_app. split; [done|].
          by repeat constructor.
    - destruct (char_count c <? min_chars); simpl.
      + split; [done|]. by intros q [= <-].
      + split; [|done]. apply Forall_app. split; [done|]. by apply Forall_singleton. }
  cbv zeta in Hfold. destruct (foldl _ _ _) as [merged pending].
  destruct Hfold as [Hm Hp]. cbn [fst snd] in *.
  assert (Hfin : Forall P (merge_finish p page_mapping max_chars (merged, pending))).
  { destruct pending as [pd|]; cbn [merge_finish]; [|done].
    specialize (Hp pd eq_refl).
    destruct (last merged) as [last_|] eqn:Hlast.
    - destruct (_ <=? _).
      + apply last_Some in Hlast as [l' ->]. rewrite removelast_last.
        apply Forall_app in Hm as [Hm1 Hm2]. rewrite Forall_singleton in Hm2.
        apply Forall_app. split; [done|]. rewrite Forall_singleton. by apply Hb.
      + apply Forall_app. split; [done|]. by apply Forall_singleton.
    - apply Forall_app. split; [done|]. by apply Forall_singleton. }
  apply Forall_forall. intros c Hc. apply list_elem_of_lookup in Hc as [i Hi].
  rewrite renumber_lookup in Hi.
  destruct (merge_finish p page_mapping max_chars (merged, pending) !! i)
    as [c0|] eqn:Hc0; [|done].
  simpl in Hi. injection Hi as <-. apply Ho.
  eapply (proj1 (Forall_forall _ _) Hfin). by eapply list_elem_of_lookup_2.
Qed.

End MergeKeeps.

(** ** The payloads of [build] *)

Section BuildPayloads.

Variable unicode_decimal : char → bool.
Variable xxh64_hexdigest : str → str.
Variable p : ChunkingPipeline.

(** What every payload of a [build] for the file [fid], started at the
    clock reading [now], satisfies. *)
Definition well_formed (now : Z) (fid : str) (c : ChunkPayload) : Prop :=
  file_id c = fid ∧ created_at c = now
  ∧ text c ≠ [] ∧ trimmed (text c)
  ∧ char_count c = len (text c)
  ∧ snippet c = slice_to (text c) 400
  ∧ token_count c = _token_count p (text c).

Definition numbered (st : list ChunkPayload * Z) : Prop :=
  st.2 = Z.of_nat (length st.1)
  ∧ ∀ k c, st.1 !! k = Some c → ordinal c = Z.of_nat k.

Lemma build_payloads_inv now fid s pm M m o :
  let st := foldl (section_step unicode_decimal xxh64_hexdigest p now fid pm M m o)
              ([], 0) (_split_sections p s) in
  numbered st ∧ Forall (well_formed now fid) st.1.
Proof.
  apply (foldl_invariant
           (fun st : list ChunkPayload * Z =>
              numbered st ∧ Forall (well_formed now fid) st.1)).
  - intros st [[path body] start] _ Hst. unfold section_step.
    destruct (negb (nonblank body)); [done|].
    apply (foldl_invariant
             (fun st : list ChunkPayload * Z =>
                numbered st ∧ Forall (well_formed now fid) st.1)); [|done].
    intros [ps n] [[ctext rs] re] _ [[Hn Hk] Hwf]. unfold payload_step.
    destruct (negb (nonempty (strip ctext))) eqn:Hne; [done|].
    destruct (_ && _); [done|]. unfold numbered in *. cbn [fst snd] in *.
    split; [split|].
    + rewrite length_app. simpl. lia.
    + intros k c Hc. apply lookup_app_Some in Hc as [Hc|[Hlen Hc]]; [by apply Hk|].
      apply list_lookup_singleton_Some in Hc as [Hz <-]. simpl. lia.
    + apply Forall_app. split; [done|]. apply Forall_singleton.
      unfold well_formed. simpl. split_and!; try done.
      * intros E. by rewrite E in Hne.
      * apply strip_trimmed.
  - split; [by split|done].
Qed.

Lemma merge_forward_well_formed now fid pm a b :
  well_formed now fid a → well_formed now fid b →
  well_formed now fid (merge_forward p pm a b).
Proof.
  intros (? & ? & ? & ? & ? & ? & ?) (? & ? & ? & ? & ? & ? & ?).
  unfold well_formed. cbn [merge_forward file_id created_at text char_count snippet token_count].
  split_and!; try done.
  - by destruct (text a).
  - by apply trimmed_join.
Qed.

Lemma merge_backward_well_formed now fid pm a b :
  well_formed now fid a → well_formed now fid b →
  well_formed now fid (merge_backward p pm a b).
Proof.
  intros (? & ? & ? & ? & ? & ? & ?) (? & ? & ? & ? & ? & ? & ?).
  unfold well_formed. cbn [merge_backward file_id created_at text char_count snippet token_count].
  split_and!; try done.
  - by destruct (text a).
  - by apply trimmed_join.
Qed.

Lemma build_numbered now fid s pm cto oto k c :
  build unicode_decimal xxh64_hexdigest p now fid s pm cto oto !! k = Some c →
  ordinal c = Z.of_nat k.
Proof.
  unfold build. destruct (_ || _); [by rewrite lookup_nil|].
  unfold _merge_small_chunks, build_payloads.
  destruct (build_payloads_inv now fid s pm (max_chunk_chars p cto)
              (min_chunk_chars p) (overlap_chars p oto)) as [[_ Hk] _].
  destruct (length _ <=? 1)%nat; [apply Hk|].
  rewrite renumber_lookup. destruct (_ !! k); [|done]. by intros [= <-].
Qed.

(** X7. The chunks [build] returns are numbered from zero without gaps:
    the ordinals of the result, in order, are 0, 1, ..., n - 1, whether
    or not the merge pass renumbered them. *)
Theorem build_ordinals_count_up (now : Z) (fid s : str)
    (pm : option (list (Z * Z * Z))) (cto oto : option Z) :
  let out := build unicode_decimal xxh64_hexdigest p now fid s pm cto oto in
  ordinal <$> out = Z.of_nat <$> seq 0 (length out).
Proof.
  intros out. apply list_eq. intros k. rewrite !list_lookup_fmap.
  destruct (out !! k) as [c|] eqn:Hc; simpl.
  - rewrite (build_numbered _ _ _ _ _ _ _ _ Hc).
    apply lookup_lt_Some in Hc. by rewrite lookup_seq_lt.
  - apply lookup_ge_None in Hc. by rewrite lookup_seq_ge.
Qed.

(** X8. Every chunk [build] returns belongs to the file it was built for
    and carries the clock reading taken on entry; its text is not empty
    and neither starts nor ends with white space; [char_count] is the
    length of the text, [snippet] its first 400 characters, and
    [token_count] the token count of the text, also after merging. *)
Theorem build_payloads_well_formed (now : Z) (fid s : str)
    (pm : option (list (Z * Z * Z))) (cto oto : option Z) :
  Forall (well_formed now fid)
    (build unicode_decimal xxh64_hexdigest p now fid s pm cto oto).
Proof.
  unfold build. destruct (_ || _); [done|].
  apply merge_small_chunks_Forall.
  - intros a b. apply merge_forward_well_formed.
  - intros a b. apply merge_backward_well_formed.
  - intros i c. by destruct c.
  - apply build_payloads_inv.
Qed.

End BuildPayloads.

(** * Coverage of the text where chunking is exact *)

(** The range of a chunk *)
Definition range_of (c : ChunkPayload) : Z * Z :=
  (start_char (metadata c), end_char (metadata c)).

(** Ranges that lie end to end from [a] to [b], none of them empty *)
Fixpoint chained (a : Z) (rs : list (Z * Z)) (b : Z) : Prop :=
  match rs with
  | [] => a = b
  | (x, y) :: rest => x = a ∧ a < y ∧ chained y rest b
  end.

Lemma chained_app a l1 l2 b :
  chained a (l1 ++ l2) b ↔ ∃ m, chained a l1 m ∧ chained m l2 b.
Proof.
  revert a. induction l1 as [|[x y] l1 IH]; intros a; simpl.
  - split; [intros H; by exists a|by intros (m & -> & H)].
  - rewrite IH. split.
    + intros (? & ? & m & ? & ?). by exists m.
    + intros (m & (? & ? & ?) & ?). split_and!; [done..|]. by exists m.
Qed.

Lemma chained_le a rs b : chained a rs b → a ≤ b.
Proof.
  revert a. induction rs as [|[x y] rs IH]; intros a; simpl; [lia|].
  intros (_ & ? & H). apply IH in H. lia.
Qed.

Lemma chained_within a rs b k r :
  chained a rs b → rs !! k = Some r → a ≤ r.1 ∧ r.1 < r.2 ∧ r.2 ≤ b.
Proof.
  revert a k. induction rs as [|[x y] rs IH]; intros a k; simpl; [done|].
  intros (-> & Hlt & H). destruct k as [|k]; simpl.
  - intros [= <-]. simpl. apply chained_le in H. lia.
  - intros Hk. destruct (IH _ _ H Hk) as (? & ? & ?). lia.
Qed.

(** Chained ranges hold every index between their ends exactly once. *)
Lemma chained_covers a rs b i :
  chained a rs b → a ≤ i < b →
  ∃ k r, rs !! k = Some r ∧ r.1 ≤ i < r.2
         ∧ ∀ k' r', rs !! k' = Some r' → r'.1 ≤ i < r'.2 → k' = k.
Proof.
  revert a. induction rs as [|[x y] rs IH]; intros a; simpl; [lia|].
  intros (-> & Hlt & H) Hi. destruct (Z.lt_ge_cases i y) as [Hiy|Hiy].
  - exists 0%nat, (a, y). split; [done|]. split; [simpl; lia|].
    intros [|k'] r'; [done|]. simpl. intros Hk' Hr'.
    destruct (chained_within _ _ _ _ _ H Hk') as (? & ? & ?). lia.
  - destruct (IH y H ltac:(lia)) as (k & r & Hk & Hr & Huniq).
    exists (S k), r. split; [done|]. split; [done|].
    intros [|k'] r'; simpl.
    + intros [= <-]. simpl. lia.
    + intros Hk' Hr'. f_equal. by eapply Huniq.
Qed.

Lemma chained_adjacent a rs b k r r' :
  chained a rs b → rs !! k = Some r → rs !! S k = Some r' → r.2 = r'.1.
Proof.
  revert a k. induction rs as [|[x y] rs IH]; intros a k; simpl; [done|].
  intros (-> & Hlt & H). destruct k as [|k]; simpl.
  - intros [= <-]. destruct rs as [|[x' y'] rs]; [done|]. simpl.
    intros [= <-]. simpl. by destruct H as (-> & _).
  - apply (IH y). done.
Qed.

Lemma chained_covers_once out s :
  chained 0 (range_of <$> out) (len s) → covers_once out s.
Proof.
  intros H. split.
  - intros i Hi. destruct (chained_covers _ _ _ i H Hi) as (k & r & Hk & Hr & Huniq).
    rewrite list_lookup_fmap in Hk. destruct (out !! k) as [c|] eqn:Hc; [|done].
    injection Hk as <-. exists k, c. split; [done|]. split; [done|].
    intros k' c' Hk' Hc'. apply (Huniq k' (range_of c')); [|done].
    by rewrite list_lookup_fmap, Hk'.
  - intros k c d Hc Hd.
    pose proof (chained_adjacent _ _ _ k (range_of c) (range_of d) H) as Hadj.
    rewrite !list_lookup_fmap, Hc, Hd in Hadj. specialize (Hadj eq_refl eq_refl).
    simpl in Hadj. lia.
Qed.

(** ** The merge pass keeps the ranges end to end *)

Section MergeChain.

Variable p : ChunkingPipeline.
Variable page_mapping : option (list (Z * Z * Z)).
Variables min_chars max_chars : Z.

Definition held_ranges (st : list ChunkPayload * option ChunkPayload) : list (Z * Z) :=
  range_of <$> (st.1 ++ option_list st.2).

Lemma chained_snoc a l x y b :
  chained a (l ++ [(x, y)]) b ↔ chained a l x ∧ x < y ∧ y = b.
Proof.
  rewrite chained_app. simpl. split.
  - intros (m & ? & -> & ? & ->). done.
  - intros (? & ? & ->). exists x. done.
Qed.

Local Ltac open_held :=
  cbn [fst snd];
  repeat match goal with
         | |- context [option_list (Some ?x)] => change (option_list (Some x)) with [x]
         | |- context [@option_list ?A None] => change (@option_list A None) with (@nil A)
         end;
  rewrite ?app_nil_r.

Lemma merge_step_chain a st c e :
  chained a (held_ranges st) (range_of c).1 → (range_of c).1 < (range_of c).2 →
  (range_of c).2 = e →
  chained a (held_ranges (merge_step p page_mapping min_chars max_chars st c)) e.
Proof.
  destruct st as [merged pending]. unfold held_ranges. cbn [fst snd].
  intros Hch Hlt <-. destruct pending as [pd|]; cbn [merge_step].
  - change (option_list (Some pd)) with [pd] in Hch.
    rewrite fmap_app, fmap_cons, fmap_nil in Hch.
    destruct (range_of pd) as [x y] eqn:Hpd.
    apply chained_snoc in Hch as (Hm & Hxy & Hy).
    assert (Hf : range_of (merge_forward p page_mapping pd c) = (x, (range_of c).2)).
    { unfold range_of in *. cbn [merge_forward metadata start_char end_char fst snd] in *.
      congruence. }
    destruct (should_merge _ _ _ _).
    + destruct (_ <? _); open_held;
        rewrite fmap_app, fmap_cons, fmap_nil, Hf;
        apply chained_snoc; (split_and!; [done|lia|done]).
    + destruct (_ <? _); open_held.
      * rewrite <- app_assoc, !fmap_app, !fmap_cons, fmap_nil, Hpd.
        rewrite app_assoc. destruct (range_of c) as [u v] eqn:Hc. simpl in *.
        apply chained_snoc. split_and!; [|done|done].
        apply chained_snoc. split_and!; [done|done|done].
      * rewrite !fmap_app, !fmap_cons, fmap_nil, Hpd.
        change ([(x, y); range_of c]) with ([(x, y)] ++ [range_of c]).
        rewrite app_assoc. destruct (range_of c) as [u v] eqn:Hc. simpl in *.
        apply chained_snoc. split_and!; [|done|done].
        apply chained_snoc. split_and!; [done|done|done].
  - cbn [option_list] in Hch. rewrite app_nil_r in Hch.
    destruct (range_of c) as [u v] eqn:Hc. simpl in *.
    destruct (_ <? _); open_held;
      rewrite fmap_app, fmap_cons, fmap_nil, Hc; apply chained_snoc; done.
Qed.

Lemma merge_fold_chain a payloads st e b :
  chained a (held_ranges st) e → chained e (range_of <$> payloads) b →
  chained a (held_ranges
               (foldl (merge_step p page_mapping min_chars max_chars) st payloads)) b.
Proof.
  revert st e. induction payloads as [|c payloads IH]; intros st e Hst Hp.
  - simpl in Hp. by subst.
  - rewrite fmap_cons in Hp. cbn [chained] in Hp.
    destruct (range_of c) as [x y] eqn:Hc. destruct Hp as (-> & Hlt & Hp).
    cbn [foldl]. apply (IH _ y); [|done]. apply merge_step_chain; rewrite ?Hc; done.
Qed.

Lemma merge_finish_chain a st b :
  chained a (held_ranges st) b →
  chained a (range_of <$> merge_finish p page_mapping max_chars st) b.
Proof.
  destruct st as [merged pending]. unfold held_ranges, merge_finish. cbn [fst snd].
  destruct pending as [pd|]; open_held; [|done].
  destruct (last merged) as [last_|] eqn:Hlast; [|done].
  destruct (_ <=? _); [|done].
  apply last_Some in Hlast as [l' ->]. rewrite removelast_last.
  assert (Heq : range_of <$> ((l' ++ [last_]) ++ [pd])
                = (range_of <$> l') ++ [range_of last_; range_of pd])
    by (by rewrite <- app_assoc, fmap_app).
  rewrite Heq. clear Heq.
  destruct (range_of last_) as [x y] eqn:Hl. destruct (range_of pd) as [u v] eqn:Hpd.
  rewrite chained_app. cbn [chained]. intros (m & Hm & (E1 & ? & E2 & ? & E3)).
  assert (Hb : range_of (merge_backward p page_mapping last_ pd) = (m, b)).
  { unfold range_of in *. cbn [merge_backward metadata start_char end_char].
    congruence. }
  rewrite fmap_app, fmap_cons, fmap_nil, Hb.
  apply chained_snoc. split_and!; [done|lia|done].
Qed.

Lemma renumber_ranges l : range_of <$> renumber l = range_of <$> l.
Proof.
  apply list_eq. intros i. rewrite !list_lookup_fmap, renumber_lookup.
  by destruct (l !! i).
Qed.

Lemma merge_small_chunks_chain a payloads b :
  chained a (range_of <$> payloads) b →
  chained a (range_of <$> _merge_small_chunks p payloads min_chars max_chars page_mapping) b.
Proof.
  intros H. unfold _merge_small_chunks. destruct (_ <=? _)%nat; [done|].
  rewrite renumber_ranges. apply merge_finish_chain.
  by apply (merge_fold_chain a payloads ([], None) a).
Qed.

End MergeChain.

(** ** Sections whose blocks fit one chunk, and what [build] keeps *)

Lemma len_join_snoc (sep : str) (l : list str) (x : str) :
  len (join sep l) ≤ len (join sep (l ++ [x])) ∧ len x ≤ len (join sep (l ++ [x])).
Proof.
  rewrite join_snoc. pose proof (len_nonneg sep). pose proof (len_nonneg x).
  destruct l as [|y l]; [change (len (join sep [])) with 0; lia|].
  rewrite !len_app. pose proof (len_nonneg (join sep (y :: l))). lia.
Qed.

Lemma len_join_app (sep : str) (l1 l2 : list str) :
  len (join sep l1) ≤ len (join sep (l1 ++ l2)).
Proof.
  induction l2 as [|x l2 IH] using rev_ind; [by rewrite app_nil_r|].
  rewrite app_assoc. pose proof (len_join_snoc sep (l1 ++ l2) x). lia.
Qed.

Lemma nonblank_app_l (a b : str) : nonblank a = true → nonblank (a ++ b) = true.
Proof.
  unfold nonblank, lstrip. induction a as [|c a IH]; [done|]. simpl.
  destruct (isspace c); [exact IH|done].
Qed.

Lemma nonblank_join_head (sep t : str) (l : list str) :
  nonblank t = true → nonblank (join sep (t :: l)) = true.
Proof. intros H. destruct l; [done|]. rewrite join_cons by done. by apply nonblank_app_l. Qed.

Section BlocksFit.

Variable unicode_decimal : char → bool.
Variable xxh64_hexdigest : str → str.

(** The blocks of a section body, joined the way [_semantic_chunk] joins
    the blocks of one chunk *)
Definition joined_blocks (body : str) : str :=
  join sep2 (sb_text <$> _parse_semantic_blocks unicode_decimal body).

(** A section fits one chunk: it is not blank, no block of it is blank,
    and the blocks, joined by two new lines, are within the maximum. *)
Definition fits (max_chars : Z) (sec : Sec) : Prop :=
  nonblank sec.1.2 = true
  ∧ _parse_semantic_blocks unicode_decimal sec.1.2 ≠ []
  ∧ Forall (fun b => nonblank (sb_text b) = true)
      (_parse_semantic_blocks unicode_decimal sec.1.2)
  ∧ len (joined_blocks sec.1.2) ≤ max_chars.

(** The range the code computes for such a section: from the start of its
    first block, as far as the joined blocks are long *)
Definition extent (sec : Sec) : Z * Z :=
  let first :=
    default 0 (start_offset <$> head (_parse_semantic_blocks unicode_decimal sec.1.2)) in
  (sec.2 + first, sec.2 + first + len (joined_blocks sec.1.2)).

Lemma chunk_step_fit max_chars min_chars overlap a x :
  nonempty (current_chunk a) = true →
  len (current_chunk a) + len (sb_text x) + 2 ≤ max_chars →
  chunk_step max_chars min_chars overlap a x
  = {| chunks := chunks a;
       current_chunk := current_chunk a ++ sep2 ++ sb_text x;
       current_start := current_start a |}.
Proof.
  intros Hne Hlen. unfold chunk_step. pose proof (len_nonneg (current_chunk a)).
  rewrite (proj2 (Z.ltb_ge max_chars (len (sb_text x)))) by lia.
  rewrite Hne. cbn [andb].
  by rewrite (proj2 (Z.ltb_ge max_chars _)) by lia.
Qed.

Lemma chunk_fold_fits max_chars min_chars overlap bs ts cur s0 :
  ts ≠ [] → cur = join sep2 ts → nonempty cur = true →
  len (join sep2 (ts ++ (sb_text <$> bs))) ≤ max_chars →
  foldl (chunk_step max_chars min_chars overlap)
    {| chunks := []; current_chunk := cur; current_start := s0 |} bs
  = {| chunks := []; current_chunk := join sep2 (ts ++ (sb_text <$> bs));
       current_start := s0 |}.
Proof.
  revert ts cur. induction bs as [|x bs IH]; intros ts cur Hts -> Hne Hlen.
  - simpl. by rewrite app_nil_r.
  - rewrite fmap_cons in *.
    replace (ts ++ sb_text x :: (sb_text <$> bs))
      with ((ts ++ [sb_text x]) ++ (sb_text <$> bs)) in * by (by rewrite <- app_assoc).
    pose proof (len_join_app sep2 (ts ++ [sb_text x]) (sb_text <$> bs)) as H1.
    assert (Hj : join sep2 (ts ++ [sb_text x]) = join sep2 ts ++ sep2 ++ sb_text x).
    { rewrite join_snoc. by destruct ts. }
    cbn [foldl]. rewrite chunk_step_fit; cbn [current_chunk chunks current_start].
    + rewrite <- Hj. apply IH; [by destruct ts|done| |done].
      rewrite Hj. by destruct (join sep2 ts).
    + done.
    + rewrite Hj, !len_app in H1. change (len sep2) with 2 in H1. lia.
Qed.

(** The offset of the first block of a section body *)
Definition first_offset (body : str) : Z :=
  default 0 (start_offset <$> head (_parse_semantic_blocks unicode_decimal body)).

Lemma extent_eq sec :
  extent sec = (sec.2 + first_offset sec.1.2,
                sec.2 + first_offset sec.1.2 + len (joined_blocks sec.1.2)).
Proof. done. Qed.

Lemma fits_joined_nonblank max_chars sec :
  fits max_chars sec → nonblank (joined_blocks sec.1.2) = true.
Proof.
  intros (_ & Hne & Hall & _). unfold joined_blocks.
  destruct (_parse_semantic_blocks unicode_decimal sec.1.2) as [|b bs]; [done|].
  apply Forall_cons in Hall as [Hb1 _]. rewrite fmap_cons.
  by apply nonblank_join_head.
Qed.

Lemma semantic_chunk_fits sec max_chars min_chars overlap :
  fits max_chars sec →
  _semantic_chunk unicode_decimal sec.1.2 max_chars min_chars overlap
  = [(joined_blocks sec.1.2, first_offset sec.1.2,
      first_offset sec.1.2 + len (joined_blocks sec.1.2))].
Proof.
  intros Hfit. pose proof (fits_joined_nonblank _ _ Hfit) as Hj. revert Hfit Hj.
  unfold fits, first_offset, joined_blocks. set (body := sec.1.2).
  intros (Hb & Hne & Hall & Hlen) Hj. unfold _semantic_chunk.
  destruct (nonblank_nonempty body Hb) as [-> _]. cbn [negb].
  destruct (_parse_semantic_blocks unicode_decimal body) as [|b bs] eqn:Hbs; [done|].
  apply Forall_cons in Hall as [Hb1 Hall]. rewrite fmap_cons in Hlen, Hj.
  pose proof (len_join_app sep2 [sb_text b] (sb_text <$> bs)) as H1.
  change (join sep2 [sb_text b]) with (sb_text b) in H1.
  change ([sb_text b] ++ (sb_text <$> bs)) with (sb_text b :: (sb_text <$> bs)) in H1.
  cbn [foldl]. rewrite chunk_step_first by (done || lia).
  cbn [chunks].
  rewrite (chunk_fold_fits max_chars min_chars overlap bs [sb_text b] (sb_text b)
             (start_offset b)); [|done|done|by apply nonblank_nonempty|done].
  cbn [current_chunk chunks current_start app].
  rewrite fmap_cons, Hj.
  cbn [app head fmap option_fmap option_map default from_option].
  reflexivity.
Qed.

Section Payloads.

Variable p : ChunkingPipeline.
Variable now : Z.
Variable fid : str.
Variable page_mapping : option (list (Z * Z * Z)).
Variables max_chars min_chars overlap : Z.

(** What [build] does with the chunks of a section: a chunk is kept unless
    it is blank, or is below the minimum token count while the section has
    other chunks. *)
Definition kept (n_chunks : nat) (c : Span) : bool :=
  nonempty (strip c.1.1)
  && negb ((_token_count p (strip c.1.1) <? min_chunk_tokens p) && (1 <? n_chunks)%nat).

(** The chunks semantic chunking returns for a section; a blank section is
    passed over. *)
Definition section_chunks (sec : Sec) : list Span :=
  if nonblank sec.1.2
  then _semantic_chunk unicode_decimal sec.1.2 max_chars min_chars overlap
  else [].

Definition all_kept (sec : Sec) : Prop :=
  Forall (fun c => kept (length (section_chunks sec)) c = true) (section_chunks sec).

(** The ranges semantic chunking reports for a section, shifted by the
    offset of the section *)
Definition section_ranges (sec : Sec) : list (Z * Z) :=
  (fun c : Span => (sec.2 + c.1.2, sec.2 + c.2)) <$> section_chunks sec.

Lemma payload_fold_kept path start n chunks st :
  Forall (fun c => kept n c = true) chunks →
  range_of <$> (foldl (payload_step xxh64_hexdigest p now fid page_mapping path start n)
                  st chunks).1
  = (range_of <$> st.1) ++ ((fun c : Span => (start + c.1.2, start + c.2)) <$> chunks).
Proof.
  revert st. induction chunks as [|[[t rs] re] chunks IH]; intros [ps k] Hall.
  - simpl. by rewrite app_nil_r.
  - apply Forall_cons in Hall as [Hk Hall]. unfold kept in Hk. cbn [fst snd] in Hk.
    apply andb_true_iff in Hk as [Hne Hskip]. apply negb_true_iff in Hskip.
    cbn [foldl]. unfold payload_step at 2. rewrite Hne, Hskip. cbn [negb].
    rewrite IH by done. cbn [fst snd]. rewrite fmap_app, <- app_assoc. done.
Qed.

Lemma sections_fold_kept secs st :
  Forall all_kept secs →
  range_of <$> (foldl (section_step unicode_decimal xxh64_hexdigest p now fid
                         page_mapping max_chars min_chars overlap) st secs).1
  = (range_of <$> st.1) ++ concat (section_ranges <$> secs).
Proof.
  revert st. induction secs as [|[[path body] start] secs IH]; intros st Hall.
  - simpl. by rewrite app_nil_r.
  - apply Forall_cons in Hall as [Hsec Hall]. cbn [foldl]. rewrite IH by done.
    rewrite fmap_cons. cbn [concat]. rewrite app_assoc. f_equal.
    unfold all_kept, section_ranges, section_chunks in *. cbn [fst snd] in *.
    unfold section_step. destruct (nonblank body); cbn [negb].
    + by apply payload_fold_kept.
    + simpl. by rewrite app_nil_r.
Qed.

(** A section whose blocks fit comes out of semantic chunking as one
    chunk, which is kept; its range is the extent of the section. *)
Lemma fits_kept sec :
  fits max_chars sec → all_kept sec ∧ section_ranges sec = [extent sec].
Proof.
  intros Hfit. pose proof (fits_joined_nonblank _ _ Hfit) as Hj.
  pose proof Hfit as (Hb & _).
  unfold all_kept, section_ranges, section_chunks. rewrite Hb.
  rewrite (semantic_chunk_fits sec max_chars min_chars overlap Hfit).
  split.
  - apply Forall_singleton. unfold kept. cbn [fst snd length].
    rewrite (nonblank_strip _ Hj). by rewrite andb_false_r.
  - rewrite extent_eq. cbn [fmap list_fmap fst snd]. f_equal. f_equal; lia.
Qed.

End Payloads.

(** Where no chunk of a section is dropped, the ranges of the chunks
    [build] returns are the ranges semantic chunking reports, merged end to
    end where the merge pass joins chunks. *)
Lemma build_chained (p : ChunkingPipeline) (now : Z) (fid s : str)
    (pm : option (list (Z * Z * Z))) (cto oto : option Z) (a b : Z) :
  let sections_ranges :=
    section_ranges (max_chunk_chars p cto) (min_chunk_chars p) (overlap_chars p oto) in
  nonblank s = true →
  Forall (all_kept p (max_chunk_chars p cto) (min_chunk_chars p) (overlap_chars p oto))
    (_split_sections p s) →
  chained a (concat (sections_ranges <$> _split_sections p s)) b →
  chained a (range_of <$> build unicode_decimal xxh64_hexdigest p now fid s pm cto oto) b.
Proof.
  intros ? Hb Hfit Hch. unfold build. destruct (nonblank_nonempty s Hb) as [-> _].
  rewrite Hb. cbn [negb orb]. apply merge_small_chunks_chain. unfold build_payloads.
  by rewrite sections_fold_kept.
Qed.

End BlocksFit.


(** Texts in which the blocks of every section fit: one line with a hash,
    a pipe or back quotes inside, two paragraphs one empty line apart, a
    heading alone, a table row alone, a list, two short sections that are
    merged into one, and two sections long enough to stay apart. *)
Definition two_long_sections : str :=
  of_string "# A" ++ [nl] ++ replicate 90 120%N ++ [nl]
  ++ of_string "# B" ++ [nl] ++ replicate 90 121%N.

Definition fitting_texts : list str :=
  [of_string "C# rocks"; of_string "a|b"; of_string "say `x`";
   of_string "a" ++ [nl; nl] ++ of_string "b"; of_string "# A"; of_string "|a|b|";
   of_string "- one" ++ [nl; nl] ++ of_string "- two" ++ [nl];
   two_sections; two_long_sections].

(** A word longer than the maximum: its one block does not fit, and
    semantic chunking still reports one exact range. *)
Definition long_word : str := replicate 300 122%N.

(** The configuration of the examples: at most 256 and at least 80
    characters, no overlap *)
Definition small_pipeline : ChunkingPipeline := init None 64 0 20.

Local Ltac split_Forall := repeat first [apply Forall_nil_2 | apply Forall_cons_2].

Local Ltac evaluate_sections :=
  match goal with
  | |- context [_split_sections ?p ?s] =>
      let v := eval vm_compute in (_split_sections p s) in
      change (_split_sections p s) with v
  end.

Local Ltac fits_by_evaluation :=
  evaluate_sections; split_Forall;
  (unfold fits; split_and!;
   [vm_compute; reflexivity
   |vm_compute; discriminate
   |match goal with
    | |- Forall _ ?l => let v := eval vm_compute in l in change l with v
    end;
    split_Forall; vm_compute; reflexivity
   |vm_compute; discriminate]).

Local Ltac kept_by_evaluation :=
  evaluate_sections; split_Forall; vm_compute; reflexivity.

Lemma fitting_texts_fit :
  Forall (fun s =>
            nonblank s = true
            ∧ Forall (fits ascii_decimal (max_chunk_chars small_pipeline None))
                (_split_sections small_pipeline s)
            ∧ chained 0 (extent ascii_decimal <$> _split_sections small_pipeline s)
                (len s))
    fitting_texts.
Proof.
  unfold fitting_texts. split_Forall.
  all: (split; [reflexivity|]; split; [|vm_compute; repeat split]).
  all: fits_by_evaluation.
Qed.

Lemma exact_texts_kept :
  Forall (fun s =>
            nonblank s = true
            ∧ Forall (all_kept ascii_decimal small_pipeline
                        (max_chunk_chars small_pipeline None)
                        (min_chunk_chars small_pipeline)
                        (overlap_chars small_pipeline None))
                (_split_sections small_pipeline s)
            ∧ chained 0
                (concat (section_ranges ascii_decimal
                           (max_chunk_chars small_pipeline None)
                           (min_chunk_chars small_pipeline)
                           (overlap_chars small_pipeline None)
                         <$> _split_sections small_pipeline s))
                (len s))
    (long_word :: fitting_texts).
Proof.
  unfold fitting_texts. split_Forall.
  all: (split; [reflexivity|]; split; [|vm_compute; repeat split]).
  all: kept_by_evaluation.
Qed.


(** Two paragraphs of 200 characters one empty line apart come out as two
    chunks, both kept; the two new lines between them are in no range. So
    a section that is split leaves the separators uncovered. *)
Definition two_long_paragraphs : str :=
  replicate 200 97%N ++ [nl; nl] ++ replicate 200 98%N.

Example build_two_long_paragraphs :
  range_of <$> build_ascii small_pipeline 0 a_file two_long_paragraphs None None None
  = [(0, 200); (202, 402)]
  ∧ len two_long_paragraphs = 402.
Proof. split; vm_compute; reflexivity. Qed.

(** * The section labels of the chunks *)

Section SectionLabels.

Variable unicode_decimal : char → bool.
Variable xxh64_hexdigest : str → str.

(** Before the merge pass, every chunk carries the label of the section
    it was cut from. *)
Lemma build_payloads_paths (Q : option str → Prop) p now fid s pm M m o :
  (∀ sec, sec ∈ _split_sections p s → Q sec.1.1) →
  Forall (fun c => Q (section_path c))
    (build_payloads unicode_decimal xxh64_hexdigest p now fid s pm M m o).
Proof.
  intros HQ. unfold build_payloads.
  apply (foldl_invariant
           (fun st : list ChunkPayload * Z => Forall (fun c => Q (section_path c)) st.1));
    [|done].
  intros st [[path body] start] Hsec Hst. unfold section_step.
  destruct (negb (nonblank body)); [done|].
  apply (foldl_invariant
           (fun st : list ChunkPayload * Z => Forall (fun c => Q (section_path c)) st.1));
    [|done].
  intros [ps n] [[ctext rs] re] _ Hps. unfold payload_step.
  destruct (negb (nonempty (strip ctext))); [done|].
  destruct (_ && _); [done|]. cbn [fst] in *.
  apply Forall_app. split; [done|]. apply Forall_singleton. cbn [section_path].
  apply (HQ _ Hsec).
Qed.

(** The merge pass of [build] joins the labels of two chunks that it
    merges forward when the labels differ, ... *)
Lemma merge_forward_joins_paths p pm a b x y :
  section_path a = Some x → section_path b = Some y →
  x ≠ [] → y ≠ [] → x ≠ y →
  section_path (merge_forward p pm a b) = Some (x ++ of_string " | " ++ y).
Proof.
  intros Ha Hb Hx Hy Hxy. cbn [merge_forward section_path]. rewrite Ha, Hb.
  cbn [path_or_empty default from_option id].
  destruct x; [done|]. destruct y; [done|]. cbn [nonempty andb].
  by rewrite bool_decide_eq_false_2.
Qed.

(** ... and keeps a label that both chunks share. *)
Lemma merge_forward_same_path p pm a b x :
  section_path a = Some x → section_path b = Some x →
  section_path (merge_forward p pm a b) = Some x.
Proof.
  intros Ha Hb. cbn [merge_forward section_path]. rewrite Ha, Hb.
  cbn [path_or_empty default from_option].
  rewrite bool_decide_eq_true_2 by done. cbn [negb id]. rewrite !andb_false_r.
  by destruct (nonempty x).
Qed.

(** [#] is not a decimal digit. *)
Hypothesis hash_not_decimal : unicode_decimal 35%N = false.

(** C8, at the failing input and around it. For the two-section input and
    every configuration with a minimum above the ten characters of a
    section (every minimum the constructor allows is), no chunk [build]
    returns carries the label of the second section: every chunk has the
    section path [1:A], which does not mention [1:B]. With a maximum of at
    least ten characters (every maximum the constructor allows is)
    [build] returns exactly one chunk, whose text is the whole input, both
    sections included. The two sections are merged by [_split_sections],
    which keeps the label of the first; the merge pass of [build], where
    it merges two chunks with the labels [1:A] and [1:B], joins the labels
    to [1:A | 1:B]. *)
Theorem two_sections_second_label_lost
    (p : ChunkingPipeline) (now : Z) (fid : str)
    (pm : option (list (Z * Z * Z))) (cto oto : option Z) :
  10 < min_chunk_chars p →
  let out := build unicode_decimal xxh64_hexdigest p now fid two_sections pm cto oto in
  Forall (fun c => section_path c = Some label_a) out
  ∧ contains label_a label_b = false
  ∧ (10 ≤ max_chunk_chars p cto →
     ∃ c, out = [c]
          ∧ text c = two_sections
          ∧ contains (text c) (of_string "para1.") = true
          ∧ contains (text c) (of_string "para2.") = true
          ∧ start_char (metadata c) = 0 ∧ end_char (metadata c) = len two_sections)
  ∧ (∀ a b, section_path a = Some label_a → section_path b = Some label_b →
            section_path (merge_forward p pm a b)
            = Some (label_a ++ of_string " | " ++ label_b)).
Proof.
  intros Hmin out. split_and!.
  - unfold out, build. destruct (_ || _); [done|].
    apply merge_small_chunks_Forall.
    + intros a b. apply merge_forward_same_path.
    + intros a b Ha _. exact Ha.
    + intros i c. by destruct c.
    + apply (build_payloads_paths (fun o => o = Some label_a)).
      intros sec. rewrite split_two_sections by done.
      by intros ->%list_elem_of_singleton.
  - reflexivity.
  - intros Hmax. exists (two_sections_payload xxh64_hexdigest p now fid pm).
    split; [by apply build_two_sections|]. repeat split.
  - intros a b Ha Hb. by apply merge_forward_joins_paths.
Qed.

End SectionLabels.

(** Every pipeline the constructor builds has a minimum above a section of
    the example and, without a per-call size, a maximum above it. *)
Lemma init_sizes tok ct ot mt :
  10 < min_chunk_chars (init tok ct ot mt)
  ∧ 10 ≤ max_chunk_chars (init tok ct ot mt) None.
Proof. unfold min_chunk_chars, max_chunk_chars. simpl. lia. Qed.

Lemma two_sections_second_label_lost_witness :
  10 < min_chunk_chars (init_default None)
  ∧ section_path
      <$> build_ascii (init_default None) 0 a_file two_sections None None None
    = [Some label_a]
  ∧ length (build_ascii (init None 64 0 20) 0 a_file two_sections None (Some 1) None)
    = 0%nat.
Proof.
  destruct (init_sizes None 480 80 50) as [Hmin Hmax]. split; [exact Hmin|].
  split; [|vm_compute; reflexivity].
  destruct (two_sections_second_label_lost ascii_decimal key_digest eq_refl
              (init_default None) 0 a_file None None None Hmin)
    as (Hall & _ & Hone & _).
  destruct (Hone Hmax) as (c & Hc & _). unfold build_ascii.
  rewrite Hc in Hall |- *. cbn [fmap list_fmap]. f_equal.
  exact (Forall_inv Hall).
Defined.

(** * Properties of the chunk snapshots *)

(** ** Decimal rendering *)

(** The number a string of decimal digits denotes *)
Definition digits_value (s : str) : N :=
  foldl (fun v c => (10 * v + (c - 48))%N) 0%N s.

Lemma dec_digits_app fuel n acc :
  dec_digits fuel n acc = dec_digits fuel n [] ++ acc.
Proof.
  revert n acc. induction fuel as [|fuel IH]; intros n acc; simpl; [done|].
  destruct (n <? 10)%N; [done|].
  rewrite (IH _ (_ :: acc)), (IH _ [_]). by rewrite <- app_assoc.
Qed.

Lemma digits_value_snoc s c :
  digits_value (s ++ [c]) = (10 * digits_value s + (c - 48))%N.
Proof. unfold digits_value. by rewrite foldl_app. Qed.

Lemma dec_digits_denotes fuel n :
  (N.to_nat (N.log2 n) < fuel)%nat → digits_value (dec_digits fuel n []) = n.
Proof.
  revert n. induction fuel as [|fuel IH]; intros n Hfuel; [lia|]. simpl.
  destruct (N.ltb_spec n 10) as [Hn|Hn].
  - unfold digits_value. simpl. rewrite N.mod_small by done. lia.
  - rewrite dec_digits_app, digits_value_snoc, IH.
    + rewrite (N.add_comm 48), N.add_sub. symmetry. apply N.Div0.div_mod.
    + assert (Hlog : (N.log2 (n / 10) < N.log2 n)%N); [|lia].
      assert (0 < n / 10)%N by (apply N.div_str_pos; lia).
      apply N.log2_lt_pow2; [done|].
      apply N.Div0.div_lt_upper_bound.
      pose proof (N.log2_spec n ltac:(lia)) as [_ Hup].
      rewrite N.pow_succ_r' in Hup. lia.
Qed.

(** Two natural numbers with the same decimal rendering are equal. *)
Lemma str_of_int_inj (i j : nat) :
  str_of_int (Z.of_nat i) = str_of_int (Z.of_nat j) → i = j.
Proof.
  unfold str_of_int. destruct (Z.ltb_spec (Z.of_nat i) 0); [lia|].
  destruct (Z.ltb_spec (Z.of_nat j) 0); [lia|].
  intros Heq. apply (f_equal digits_value) in Heq.
  rewrite !dec_digits_denotes in Heq by lia. lia.
Qed.

Section SnapshotProps.

Import Snapshots.

Variable unicode_decimal : char → bool.
Variable xxh64_hexdigest : str → str.
Variable chunker : ChunkingPipeline.
Variables rag_chunk_size rag_chunk_overlap : Z.

Local Abbreviation build_snapshots :=
  (_build_chunk_snapshots unicode_decimal xxh64_hexdigest chunker
     rag_chunk_size rag_chunk_overlap).

(** The ordinals of a list of snapshots are 0, 1, ..., n - 1. *)
Definition counts_up (l : list ChunkSnapshot) : Prop :=
  ordinal <$> l = Z.of_nat <$> seq 0 (length l).

Lemma counts_up_lookup l :
  counts_up l ↔ ∀ k c, l !! k = Some c → ordinal c = Z.of_nat k.
Proof.
  unfold counts_up. split.
  - intros H k c Hc. apply (f_equal (fun x => x !! k)) in H.
    rewrite !list_lookup_fmap, Hc in H. simpl in H.
    apply lookup_lt_Some in Hc. rewrite lookup_seq_lt in H by done.
    simpl in H. by injection H.
  - intros H. apply list_eq. intros k. rewrite !list_lookup_fmap.
    destruct (l !! k) as [c|] eqn:Hc; simpl.
    + rewrite (H k c Hc). apply lookup_lt_Some in Hc. by rewrite lookup_seq_lt.
    + apply lookup_ge_None in Hc. by rewrite lookup_seq_ge.
Qed.

Lemma build_snapshots_shape record_id clock s pm :
  (build_snapshots record_id clock s pm = [] ↔ s = [])
  ∧ Forall (fun c => file_id c = record_id) (build_snapshots record_id clock s pm)
  ∧ counts_up (build_snapshots record_id clock s pm).
Proof.
  unfold _build_chunk_snapshots. destruct s as [|ch s]; [by split_and!|].
  cbn [nonempty negb].
  set (payloads := build _ _ _ _ _ _ _ _ _).
  assert (Hnum : ∀ k c, payloads !! k = Some c → Chunker.ordinal c = Z.of_nat k).
  { intros k c. apply build_numbered. }
  destruct (_to_snapshot record_id <$> payloads) as [|x l] eqn:Heq.
  - split_and!; [done|by repeat constructor|done].
  - rewrite <- Heq. split_and!.
    + split; [|done]. by rewrite Heq.
    + apply Forall_fmap, Forall_true. done.
    + apply counts_up_lookup. intros k c. rewrite list_lookup_fmap.
      destruct (payloads !! k) as [c0|] eqn:Hc0; [|done].
      intros [= <-]. simpl. by apply Hnum.
Qed.

(** X10. [_build_chunk_snapshots] returns no chunk only for the empty
    text. Every chunk it returns carries the id of the record, and the
    ordinals count 0, 1, 2, ... A text that is not empty but holds white
    space alone gives the single fallback chunk with the whole text. *)
Theorem build_chunk_snapshots_never_empty (record_id : str) (clock : Z * Z)
    (s : str) (page_mapping : option (list (Z * Z * Z))) :
  let out := build_snapshots record_id clock s page_mapping in
  (out = [] ↔ s = [])
  ∧ Forall (fun c => file_id c = record_id) out
  ∧ counts_up out
  ∧ (s ≠ [] → nonblank s = false → out = [full_chunk chunker record_id clock.2 s]).
Proof.
  destruct (build_snapshots_shape record_id clock s page_mapping) as (H1 & H2 & H3).
  split_and!; [done..|].
  intros Hs Hb. unfold _build_chunk_snapshots, build.
  destruct s; [done|]. cbn [nonempty negb]. by rewrite Hb, orb_true_r.
Qed.

(** X11. [_build_video_chunk_snapshots] makes one chunk per caption, in the
    order of the captions and with the caption as its text; the ordinals
    count from 0, the chunk ids are pairwise distinct, a snippet has at
    most 400 characters, and every chunk carries the id of the record. *)
Theorem video_chunks_one_per_caption (record_id : str) (now : Z)
    (segment_captions : list str) :
  let out := _build_video_chunk_snapshots chunker record_id now segment_captions in
  text <$> out = segment_captions
  ∧ counts_up out
  ∧ NoDup (chunk_id <$> out)
  ∧ Forall (fun c => len (snippet c) ≤ 400 ∧ file_id c = record_id) out.
Proof.
  intros out.
  assert (Hlook : ∀ k, out !! k
                       = video_chunk chunker record_id now k <$> segment_captions !! k).
  { intros k. unfold out, _build_video_chunk_snapshots. by rewrite list_lookup_imap. }
  split_and!.
  - apply list_eq. intros k. rewrite list_lookup_fmap, Hlook.
    by destruct (segment_captions !! k).
  - apply counts_up_lookup. intros k c. rewrite Hlook.
    destruct (segment_captions !! k); [|done]. by intros [= <-].
  - apply NoDup_alt. intros i j x. rewrite !list_lookup_fmap, !Hlook.
    destruct (segment_captions !! i), (segment_captions !! j); try done.
    cbn [fmap option_fmap option_map video_chunk chunk_id].
    intros Hi Hj. rewrite <- Hi in Hj. apply (inj Some) in Hj.
    apply app_inv_head in Hj. apply app_inv_head in Hj.
    symmetry. by apply str_of_int_inj.
  - apply Forall_forall. intros c Hc. apply list_elem_of_lookup in Hc as [k Hk].
    rewrite Hlook in Hk. destruct (segment_captions !! k) as [caption|]; [|done].
    apply (inj Some) in Hk. subst c. cbn [video_chunk snippet file_id]. split; [|done].
    destruct (Z.ltb_spec 400 (len caption)); [|lia].
    unfold slice_to. rewrite slice_length; [lia|lia|lia|lia].
Qed.

Lemma page_text_nonempty page_index page_text :
  page_text_or_placeholder page_index page_text ≠ [].
Proof.
  unfold page_text_or_placeholder.
  destruct (nonempty (strip (default [] page_text))) eqn:Hne.
  - intros E. by rewrite E in Hne.
  - change (of_string "[Page ") with (91%N :: of_string "Page "). discriminate.
Qed.

(** X12. [_build_pdf_page_chunk_snapshots] makes exactly one chunk per
    page, also for a page without a description: the ordinals count from
    0, no text is empty, the [page_numbers] of chunk [i] is the list of the
    one page [i + 1], and a page whose description is not blank has the
    stripped description as its text. *)
Theorem pdf_page_chunks_one_per_page (record_id : str) (now : Z)
    (page_descriptions : list (option str)) (is_vision : bool) :
  let out := _build_pdf_page_chunk_snapshots xxh64_hexdigest record_id now
               page_descriptions is_vision in
  length out = length page_descriptions
  ∧ counts_up out
  ∧ Forall (fun c => text c ≠ [] ∧ file_id c = record_id) out
  ∧ (fun c => metadata c !! of_string "page_numbers") <$> out
    = (fun i => Some (JInts [Z.of_nat i + 1])) <$> seq 0 (length page_descriptions)
  ∧ (∀ k t, page_descriptions !! k = Some (Some t) → nonblank t = true →
            text <$> out !! k = Some (strip t)).
Proof.
  intros out.
  assert (Hlook : ∀ k, out !! k
            = pdf_page_chunk xxh64_hexdigest record_id now is_vision k
              <$> page_descriptions !! k).
  { intros k. unfold out, _build_pdf_page_chunk_snapshots. by rewrite list_lookup_imap. }
  split_and!.
  - unfold out, _build_pdf_page_chunk_snapshots. apply length_imap.
  - apply counts_up_lookup. intros k c. rewrite Hlook.
    destruct (page_descriptions !! k); [|done]. intros [= <-].
    cbn [pdf_page_chunk ordinal]. lia.
  - apply Forall_forall. intros c Hc. apply list_elem_of_lookup in Hc as [k Hk].
    rewrite Hlook in Hk. destruct (page_descriptions !! k) as [page|]; [|done].
    apply (inj Some) in Hk. subst c. cbn [pdf_page_chunk text file_id].
    split; [apply page_text_nonempty|done].
  - apply list_eq. intros k. rewrite !list_lookup_fmap, Hlook.
    destruct (page_descriptions !! k) as [page|] eqn:Hk.
    + apply lookup_lt_Some in Hk. rewrite lookup_seq_lt by done.
      cbn [fmap option_fmap option_map pdf_page_chunk metadata].
      by rewrite lookup_insert_eq.
    + apply lookup_ge_None in Hk. by rewrite lookup_seq_ge.
  - intros k t Hk Hb. rewrite Hlook, Hk.
    cbn [fmap option_fmap option_map pdf_page_chunk text].
    unfold page_text_or_placeholder. change (default [] (Some t)) with t.
    by rewrite (nonblank_strip t Hb).
Qed.

Lemma renumber_from_lookup record_id g l k :
  renumber_from xxh64_hexdigest record_id g l !! k
  = renumbered xxh64_hexdigest record_id (g + Z.of_nat k) <$> l !! k.
Proof. unfold renumber_from. by rewrite list_lookup_imap. Qed.

Lemma renumber_from_length record_id g l :
  length (renumber_from xxh64_hexdigest record_id g l) = length l.
Proof. apply length_imap. Qed.

Local Abbreviation fine_pages :=
  (fine_loop unicode_decimal xxh64_hexdigest chunker rag_chunk_size rag_chunk_overlap).

Lemma fine_loop_numbered record_id clock page_texts page_index g k c :
  fine_pages record_id clock page_texts page_index g !! k = Some c →
  ordinal c = g + Z.of_nat k
  ∧ chunk_id c = _chunk_id_for_section xxh64_hexdigest record_id (ordinal c)
                   (section_path c) None
  ∧ file_id c = record_id.
Proof.
  revert page_index g k.
  induction page_texts as [|page rest IH]; intros page_index g k; [done|].
  cbn [fine_loop]. destruct (negb (nonempty (strip (default [] page)))); [apply IH|].
  set (snaps := _build_chunk_snapshots _ _ _ _ _ _ _ _ _).
  intros Hc. apply lookup_app_Some in Hc as [Hc|[Hlen Hc]].
  - rewrite renumber_from_lookup in Hc.
    destruct (snaps !! k) as [c0|] eqn:Hc0; [|done]. apply (inj Some) in Hc. subst c.
    cbn [renumbered ordinal chunk_id section_path file_id]. split_and!; [done|done|].
    destruct (build_snapshots_shape record_id (clock page_index)
                (strip (default [] page))
                (Some [(0, len (strip (default [] page)), page_index)]))
      as (_ & Hfile & _).
    eapply (proj1 (Forall_forall _ _) Hfile). by eapply list_elem_of_lookup_2.
  - rewrite renumber_from_length in Hlen, Hc.
    apply IH in Hc as (Ho & Hid & Hf). split_and!; [lia|done|done].
Qed.

(** X13. In the [fine] mode of
    [_build_pdf_multi_chunk_snapshots_from_pages] the ordinals count 0, 1,
    2, ... through the whole document, over the page boundaries and the
    skipped pages; the id of every chunk is the section id of its own
    ordinal and section path, and every chunk carries the id of the
    record. *)
Theorem pdf_fine_chunks_numbered_across_pages (record_id : str) (clock : Z → Z * Z)
    (page_texts : list (option str)) :
  let out := _build_pdf_multi_chunk_snapshots_from_pages unicode_decimal
               xxh64_hexdigest chunker rag_chunk_size rag_chunk_overlap
               record_id clock page_texts fine in
  counts_up out
  ∧ Forall (fun c =>
              chunk_id c = _chunk_id_for_section xxh64_hexdigest record_id
                             (ordinal c) (section_path c) None
              ∧ file_id c = record_id) out.
Proof.
  intros out.
  assert (Hout : out = fine_pages record_id clock page_texts 1 0).
  { unfold out, _build_pdf_multi_chunk_snapshots_from_pages. by destruct page_texts. }
  rewrite Hout. split.
  - apply counts_up_lookup. intros k c Hc.
    apply fine_loop_numbered in Hc as (Ho & _). lia.
  - apply Forall_forall. intros c Hc. apply list_elem_of_lookup in Hc as [k Hk].
    by apply fine_loop_numbered in Hk as (_ & ? & ?).
Qed.

End SnapshotProps.

(** ** The page mapping of a combined PDF text *)

Lemma slice_app_l (s x : str) a b :
  0 ≤ a → a ≤ b → b ≤ len s → slice (s ++ x) a b = slice s a b.
Proof.
  intros Ha Hab Hb. unfold slice, clamp. rewrite len_app.
  pose proof (len_nonneg x).
  destruct (Z.ltb_spec a 0); [lia|]. destruct (Z.ltb_spec b 0); [lia|].
  rewrite !Z.min_l by lia. unfold len in *.
  rewrite drop_app_le by lia. rewrite take_app_le; [done|].
  rewrite length_drop. lia.
Qed.

Lemma slice_app_r (s x : str) :
  slice (s ++ x) (len s) (len (s ++ x)) = x.
Proof.
  unfold slice, clamp. rewrite len_app.
  pose proof (len_nonneg x). pose proof (len_nonneg s).
  destruct (Z.ltb_spec (len s) 0); [lia|].
  destruct (Z.ltb_spec (len s + len x) 0); [lia|].
  rewrite !Z.min_l by lia. unfold len.
  rewrite Nat2Z.id. rewrite drop_app_length.
  replace (Z.to_nat _) with (length x) by lia. apply firstn_all.
Qed.

(** An entry of the page mapping locates the stripped text of its page in
    the combined text. *)
Definition locates (page_texts : list (option str)) (combined_text : str)
    (entry : Z * Z * Z) : Prop :=
  let '(start, end_, page_index) := entry in
  0 ≤ start ∧ start < end_ ∧ end_ ≤ len combined_text ∧ 1 ≤ page_index
  ∧ ∃ page_text, page_texts !! Z.to_nat (page_index - 1) = Some page_text
                 ∧ slice combined_text start end_ = strip (default [] page_text).

Lemma locates_app pages combined x entry :
  locates pages combined entry → locates pages (combined ++ x) entry.
Proof.
  destruct entry as [[a b] i]. simpl. intros (? & ? & ? & ? & t & ? & ?).
  pose proof (len_nonneg x). rewrite len_app. split_and!; [lia..|].
  exists t. split; [done|]. rewrite slice_app_l by lia. done.
Qed.

Lemma combine_pages_locates done_ rest combined mapping :
  Forall (locates (done_ ++ rest) combined) mapping →
  let out := Snapshots.combine_pages rest (Z.of_nat (length done_) + 1) combined mapping in
  Forall (locates (done_ ++ rest) out.1) out.2.
Proof.
  revert done_ combined mapping.
  induction rest as [|page rest IH]; intros done_ combined mapping Hm; [done|].
  cbn [Snapshots.combine_pages].
  specialize (IH (done_ ++ [page])).
  rewrite length_app, <- app_assoc in IH. simpl in IH.
  replace (Z.of_nat (length done_ + 1) + 1) with (Z.of_nat (length done_) + 1 + 1) in IH by lia.
  destruct (negb (nonempty (strip (default [] page)))) eqn:Hbody; [by apply IH|].
  apply IH. apply Forall_app. split.
  - eapply Forall_impl; [exact Hm|]. intros entry He.
    apply locates_app. destruct (nonempty combined); [by apply locates_app|done].
  - apply Forall_singleton. set (sep := if nonempty combined then combined ++ sep2 else combined).
    pose proof (len_nonneg sep).
    assert (0 < len (strip (default [] page))).
    { destruct (strip (default [] page)); [done|]. unfold len. simpl. lia. }
    simpl. rewrite len_app. split_and!; [lia..|].
    exists page. split.
    + replace (Z.to_nat (Z.of_nat (length done_) + 1 - 1)) with (length done_) by lia.
      rewrite lookup_app_r by done. by rewrite Nat.sub_diag.
    + rewrite <- len_app. apply slice_app_r.
Qed.

(** X14. In the other mode of
    [_build_pdf_multi_chunk_snapshots_from_pages], every entry
    [(start, end, page)] of the page mapping is a range that is not empty
    and lies inside the combined text, and the combined text between
    [start] and [end] is the stripped text of page [page], pages counted
    from one. *)
Theorem combined_pages_mapping_locates (page_texts : list (option str)) :
  let out := Snapshots.combine_pages page_texts 1 [] [] in
  Forall (locates page_texts out.1) out.2.
Proof. apply (combine_pages_locates [] page_texts [] []). constructor. Qed.

(** * Properties of the folder selection, the stage events and the routes *)

Section TargetProps.

Import Targets.

Variable list_folders : list FolderRecord.
Variable resolve : str → str.
Variable parent : str → str.
Variable relative_to : str → str → bool.

Lemma select_folders_elem folder_ids include_manual f :
  f ∈ _select_folders list_folders folder_ids include_manual
  ↔ f ∈ list_folders ∧ enabled f = true
    ∧ match folder_ids with
      | Some ((_ :: _) as allowed) => id f ∈ allowed
      | _ => include_manual = true ∨ scan_mode f ≠ manual
      end.
Proof.
  unfold _select_folders.
  assert (Hauto : f ∈ (if negb include_manual
                       then filter (fun f => scan_mode f ≠ manual)
                              (filter (fun folder => enabled folder = true) list_folders)
                       else filter (fun folder => enabled folder = true) list_folders)
                  ↔ f ∈ list_folders ∧ enabled f = true
                    ∧ (include_manual = true ∨ scan_mode f ≠ manual)).
  { destruct include_manual; cbn [negb]; rewrite ?list_elem_of_filter.
    - split; [intros [? ?]; split_and!; auto|tauto].
    - split; [tauto|]. intros (? & ? & [?|?]); [done|tauto]. }
  destruct folder_ids as [[|x ids]|]; [exact Hauto| |exact Hauto].
  rewrite !list_elem_of_filter. tauto.
Qed.

(** X15. [_select_folders] returns exactly the enabled folders of the
    storage that are, when folder ids are given, among the given ids
    (manual or not), and otherwise not manual unless [include_manual] is
    set. *)
Theorem select_folders_selects (folder_ids : option (list str))
    (include_manual : bool) (f : FolderRecord) :
  f ∈ _select_folders list_folders folder_ids include_manual
  ↔ f ∈ list_folders ∧ enabled f = true
    ∧ match folder_ids with
      | Some ((_ :: _) as allowed) => id f ∈ allowed
      | _ => include_manual = true ∨ scan_mode f ≠ manual
      end.
Proof. apply select_folders_elem. Qed.

Lemma add_target_keys folder_id p d k :
  k ∈ (add_target folder_id p d).*1 ↔ k = folder_id ∨ k ∈ d.*1.
Proof.
  induction d as [|[k' v] d IH]; simpl.
  - rewrite list_elem_of_singleton, elem_of_nil. tauto.
  - case_bool_decide as Hk; simpl; rewrite !elem_of_cons.
    + subst k'. tauto.
    + rewrite IH. tauto.
Qed.

Lemma add_target_NoDup folder_id p d :
  NoDup d.*1 → NoDup (add_target folder_id p d).*1.
Proof.
  induction d as [|[k' v] d IH]; simpl; intros Hd.
  - apply NoDup_singleton.
  - case_bool_decide as Hk; simpl; [done|].
    apply NoDup_cons in Hd as [Hk' Hd]. apply NoDup_cons. split; [|by apply IH].
    rewrite add_target_keys. intros [?|?]; [by subst|done].
Qed.

Local Abbreviation folder_for := (folder_of list_folders parent relative_to).

Lemma group_files_keys files :
  NoDup (group_files list_folders resolve parent relative_to files).*1
  ∧ ∀ k, k ∈ (group_files list_folders resolve parent relative_to files).*1
         ↔ ∃ file g, file ∈ files ∧ folder_for (resolve file) = Some g ∧ id g = k.
Proof.
  unfold group_files.
  assert (Hgen : ∀ d seen,
    NoDup d.*1 →
    (∀ k, k ∈ d.*1 ↔ ∃ file g, file ∈ seen ∧ folder_for (resolve file) = Some g ∧ id g = k) →
    let d' := foldl (fun d file_path_str =>
                       let p := resolve file_path_str in
                       match folder_for p with
                       | Some folder => add_target (id folder) p d
                       | None => d
                       end) d files in
    NoDup d'.*1
    ∧ ∀ k, k ∈ d'.*1
           ↔ ∃ file g, file ∈ seen ++ files ∧ folder_for (resolve file) = Some g ∧ id g = k).
  { induction files as [|file files IH]; intros d seen Hd Hk; simpl.
    - split; [done|]. intros k. rewrite app_nil_r. apply Hk.
    - rewrite (app_assoc seen [file] files : seen ++ file :: files = (seen ++ [file]) ++ files).
      apply IH.
      + destruct (folder_for (resolve file)); [by apply add_target_NoDup|done].
      + intros k. destruct (folder_for (resolve file)) as [g|] eqn:Hg.
        * rewrite add_target_keys, Hk. split.
          -- intros [->|(f0 & g0 & Hin & ? & ?)].
             ++ exists file, g. split_and!; [|done|done].
                apply elem_of_app. right. apply list_elem_of_singleton. done.
             ++ exists f0, g0. split_and!; [|done|done]. apply elem_of_app. by left.
          -- intros (f0 & g0 & [Hin|Hin%list_elem_of_singleton]%elem_of_app & Hf & Hid).
             ++ right. by exists f0, g0.
             ++ subst f0. left. rewrite Hg in Hf. by simplify_eq.
        * rewrite Hk. split.
          -- intros (f0 & g0 & Hin & ? & ?). exists f0, g0. split_and!; [|done|done].
             apply elem_of_app. by left.
          -- intros (f0 & g0 & [Hin|Hin%list_elem_of_singleton]%elem_of_app & Hf & Hid).
             ++ by exists f0, g0.
             ++ subst f0. by rewrite Hg in Hf. }
  apply (Hgen [] []); [apply NoDup_nil_2|].
  intros k. simpl. rewrite elem_of_nil. split; [done|].
  intros (? & ? & H & _). by apply elem_of_nil in H.
Qed.

(** X16. [_resolve_targets] groups the files under distinct folder ids.
    When at least one file is matched to a folder, the targets are exactly
    the enabled folders that own one of the given files, whatever the
    [folders] argument says. A call with neither files nor folders selects
    enabled folders that are not manual. *)
Theorem resolve_targets_follow_files (folders files : option (list str)) :
  let out := _resolve_targets list_folders resolve parent relative_to folders files in
  NoDup out.2.*1
  ∧ (out.2 ≠ [] →
     ∀ f, f ∈ out.1
          ↔ f ∈ list_folders ∧ enabled f = true
            ∧ ∃ file g, file ∈ default [] files
                        ∧ folder_for (resolve file) = Some g ∧ id g = id f)
  ∧ (given files = false → given folders = false →
     ∀ f, f ∈ out.1 → enabled f = true ∧ scan_mode f ≠ manual).
Proof.
  unfold _resolve_targets. cbn [fst snd].
  set (d := match files with Some (_ :: _ as fs) => _ | _ => [] end).
  assert (Hd : NoDup d.*1
               ∧ ∀ k, k ∈ d.*1
                      ↔ ∃ file g, file ∈ default [] files
                                  ∧ folder_for (resolve file) = Some g ∧ id g = k).
  { unfold d. destruct files as [[|x fs]|].
    - split; [apply NoDup_nil_2|]. intros k. simpl. rewrite elem_of_nil.
      split; [done|]. intros (? & ? & H & _). by apply elem_of_nil in H.
    - apply group_files_keys.
    - split; [apply NoDup_nil_2|]. intros k. simpl. rewrite elem_of_nil.
      split; [done|]. intros (? & ? & H & _). by apply elem_of_nil in H. }
  destruct Hd as [Hnd Hkeys]. split_and!; [done| |].
  - intros Hne f. destruct d as [|e d']; [done|].
    rewrite select_folders_elem. pose proof (Hkeys (id f)) as Hk.
    split; intros (H1 & H2 & H3); (split_and!; [done|done|]); by apply Hk.
  - intros Hfiles Hfolders f.
    assert (d = []) as ->. { unfold d. by destruct files as [[|? ?]|]. }
    rewrite Hfiles, Hfolders. cbn [orb]. rewrite select_folders_elem.
    destruct folders as [[|? ?]|]; try done; intros (? & ? & [?|?]); done.
Qed.

End TargetProps.

(** ** The recent events of the file in flight *)

Lemma last_hundred_short {A} (l : list A) :
  (length l ≤ 100)%nat → Stage.last_hundred l = l.
Proof.
  intros H. unfold Stage.last_hundred.
  replace (length l - 100)%nat with 0%nat by lia. done.
Qed.

Lemma last_hundred_length {A} (l : list A) :
  (length (Stage.last_hundred l) ≤ 100)%nat.
Proof. unfold Stage.last_hundred. rewrite length_drop. lia. Qed.

Lemma last_hundred_snoc {A} (l : list A) x :
  (if (100 <? length (Stage.last_hundred l ++ [x]))%nat
   then Stage.last_hundred (Stage.last_hundred l ++ [x])
   else Stage.last_hundred l ++ [x])
  = Stage.last_hundred (l ++ [x]).
Proof.
  destruct (Nat.le_gt_cases 100 (length l)) as [Hlong|Hshort].
  - assert (Hlen : length (Stage.last_hundred l ++ [x]) = 101%nat).
    { unfold Stage.last_hundred. rewrite length_app, length_drop. simpl. lia. }
    rewrite Hlen. change (100 <? 101)%nat with true. cbv iota.
    unfold Stage.last_hundred at 1. rewrite Hlen.
    change (101 - 100)%nat with 1%nat.
    unfold Stage.last_hundred. rewrite length_app. simpl.
    rewrite drop_app_le by (rewrite length_drop; lia).
    rewrite drop_drop. rewrite (drop_app_le l) by lia.
    do 2 f_equal. lia.
  - rewrite (last_hundred_short l) by lia.
    rewrite (last_hundred_short (l ++ [x])) by (rewrite length_app; simpl; lia).
    destruct (Nat.ltb_spec 100 (length (l ++ [x]))) as [H|H]; [|done].
    rewrite length_app in H. simpl in H. lia.
Qed.

Section StageProps.

Import Stage.

Context {Progress : Type}.

(** The events a sequence of stage updates emits, oldest first *)
Definition emitted (updates : list (str * StageUpdate Progress))
    : list (gmap str Snapshots.Json) :=
  omap (fun tu : str * StageUpdate Progress => event_dict tu.1 tu.2 <$> event tu.2)
       updates.

Definition apply_updates (a : Active Progress)
    (updates : list (str * StageUpdate Progress)) : Active Progress :=
  foldl (fun a tu => _set_active_stage a tu.1 tu.2) a updates.

Lemma apply_updates_events a before updates :
  active_recent_events a = last_hundred before →
  active_recent_events (apply_updates a updates)
  = last_hundred (before ++ emitted updates).
Proof.
  revert a before. induction updates as [|[ts u] updates IH]; intros a before Ha; simpl.
  - by rewrite app_nil_r.
  - unfold emitted. cbn [omap list_omap fst snd].
    destruct (event u) as [message|] eqn:He; cbn [fmap option_fmap option_map].
    + rewrite (app_assoc before [_] _ :
                 before ++ event_dict ts u message :: _ = (before ++ [_]) ++ _).
      apply IH. cbn [_set_active_stage active_recent_events]. rewrite He, Ha.
      apply last_hundred_snoc.
    + apply IH. cbn [_set_active_stage active_recent_events]. by rewrite He.
Qed.

(** X17. Through any sequence of calls of [_set_active_stage] made after
    the start of a file, the recent events are the last hundred of the
    events emitted so far, oldest first; there are never more than a
    hundred. *)
Theorem recent_events_are_the_last_hundred (zero : Progress)
    (updates : list (str * StageUpdate Progress)) :
  let a := apply_updates (start_of_file zero) updates in
  active_recent_events a = last_hundred (emitted updates)
  ∧ (length (active_recent_events a) ≤ 100)%nat.
Proof.
  intros a.
  assert (H : active_recent_events a = last_hundred (emitted updates)).
  { apply (apply_updates_events (start_of_file zero) [] updates). done. }
  split; [done|]. rewrite H. apply last_hundred_length.
Qed.

End StageProps.

(** ** The requests that start a run *)

Section RouterProps.

Import Router.

(** Whether a request leads to a reindex: it says so, or drops the
    collection, or purges folders, or refreshes the embeddings of
    everything. *)
Definition reindexes (payload : IndexRequest) : bool :=
  drop_collection payload
  || bool_decide (mode payload = reindex)
  || nonempty_list (or_empty (purge_folders payload))
  || (refresh_embeddings payload && negb (nonempty_list (or_empty (folders payload)))).

(** X18. What [run_index] hands to [refresh], in closed form. The request
    is refused with 400 when it names no folder under a scope other than
    [global], or names folders together with [drop_collection]. Otherwise
    the named folders are the targets; a reindex (asked for, or implied by
    [drop_collection], by [purge_folders] or by [refresh_embeddings]
    without folders) refreshes the embeddings, drops the collection when
    no folder is named and purges the named folders when some are. The
    list [purge_folders] of the request is never passed on. *)
Theorem plan_closed_form (default_indexing_mode : Snapshots.IndexingMode)
    (payload : IndexRequest) :
  let named := or_empty (folders payload) in
  plan default_indexing_mode payload
  = if (nonempty_list named || bool_decide (scope payload = global))
       && negb (drop_collection payload && nonempty_list named)
    then Some {| arg_folders := if nonempty_list named then Some named else None;
                 arg_files := files payload;
                 arg_refresh_embeddings := reindexes payload || refresh_embeddings payload;
                 arg_drop_collection := reindexes payload && negb (nonempty_list named);
                 arg_purge_folders :=
                   if reindexes payload && nonempty_list named then named else [];
                 arg_indexing_mode :=
                   default default_indexing_mode (indexing_mode payload) |}
    else None.
Proof.
  destruct payload as [m sc re fo fi dr pu im].
  unfold plan, reindexes.
  cbn [mode scope refresh_embeddings folders files drop_collection purge_folders
       indexing_mode].
  destruct fo as [[|f fs]|], pu as [[|q qs]|], m, sc, re, dr; reflexivity.
Qed.

(** X19. A request that [run_index] accepts schedules one call of
    [refresh] and reports a running progress with nothing processed and
    nothing failed, without touching the lock; while that progress stands,
    every further request is refused and schedules nothing. A request that
    is refused leaves the orchestrator as it was. *)
Theorem accepted_run_blocks_the_next (default_indexing_mode : Snapshots.IndexingMode)
    (o : Indexer.Orchestrator) (now : Z) (payload : IndexRequest) :
  match run_index default_indexing_mode o now payload with
  | (o1, Ok reported, scheduled) =>
      is_Some scheduled
      ∧ Indexer.status reported = Indexer.running
      ∧ Indexer.processed reported = 0 ∧ Indexer.failed_count reported = 0
      ∧ Indexer.lock_locked o1 = Indexer.lock_locked o
      ∧ ∀ now' payload',
          (run_index default_indexing_mode o1 now' payload').2 = None
          ∧ ∀ p, (run_index default_indexing_mode o1 now' payload').1.2 ≠ Ok p
  | (o1, _, scheduled) => o1 = o ∧ scheduled = None
  end.
Proof.
  unfold run_index. destruct (plan default_indexing_mode payload) as [args|]; [|done].
  case_bool_decide as Hrun; [done|]. simpl. split_and!; try done.
  intros now' payload'. destruct (plan default_indexing_mode payload'); done.
Qed.

End RouterProps.

(** ** The run lock *)

Import Indexer.

Lemma pause_keeps_lock o : lock_locked (pause o).1 = lock_locked o.
Proof. unfold pause. by destruct (_ || _). Qed.

Lemma set_running_keeps_lock o m :
  lock_locked (_set_running_progress o m) = lock_locked o.
Proof. unfold _set_running_progress. by destruct (current_run_started o). Qed.

Lemma resume_keeps_lock o : lock_locked (resume o).1 = lock_locked o.
Proof.
  unfold resume. destruct (negb _); [done|]. cbn. by rewrite set_running_keeps_lock.
Qed.

(** Replacing one call changes the number of active runs by what the old
    and the new call count for. *)
Lemma active_runs_insert (l : list Call) i old new :
  l !! i = Some old →
  (length (filter (fun c => in_run c = true) (<[i := new]> l))
   + (if in_run old then 1 else 0)
   = length (filter (fun c => in_run c = true) l)
     + (if in_run new then 1 else 0))%nat.
Proof.
  revert i. induction l as [|c l IH]; intros [|i] Hi; simplify_eq/=.
  - rewrite !filter_cons. destruct (in_run old), (in_run new); repeat case_decide; simpl; try done; lia.
  - rewrite !filter_cons. specialize (IH _ Hi).
    destruct (decide (in_run c = true)); simpl; lia.
Qed.

(** The lock is held exactly while one call of [refresh] is inside the
    guarded body. *)
Lemma lock_counts_runs s :
  reachable s → active_runs s = if lock_locked (orch s) then 1%nat else 0%nat.
Proof.
  induction 1 as [o Ho | s s' Hr IH Hstep].
  - unfold active_runs. simpl. by rewrite Ho.
  - unfold active_runs in *. destruct Hstep as [s | s i Hi | s i o' Hi Hl | s | s | s i Hi]; simpl.
    + rewrite filter_app, length_app. simpl. lia.
    + pose proof (active_runs_insert (calls s) i Triggered) as Hins.
      unfold refresh_enter. destruct (lock_locked (orch s)) eqn:Hlock; simpl.
      * specialize (Hins (Returned (progress (orch s))) Hi). simpl in Hins.
        rewrite Hlock. lia.
      * specialize (Hins InRun Hi). simpl in Hins. lia.
    + rewrite Hl. exact IH.
    + rewrite pause_keeps_lock. exact IH.
    + rewrite resume_keeps_lock. exact IH.
    + pose proof (active_runs_insert (calls s) i InRun
                    (Returned (progress (orch s))) Hi) as Hins.
      simpl in Hins. destruct (lock_locked (orch s)); lia.
Qed.

Lemma at_most_one_run s : reachable s → (active_runs s ≤ 1)%nat.
Proof. intros H. rewrite (lock_counts_runs s H). destruct (lock_locked _); lia. Qed.

(** C5. A refresh request that arrives while a run holds the lock returns
    the progress snapshot of that run and changes nothing in the
    orchestrator; the request does not become a run, now or later: the
    process has exactly one active run, and at most one after any further
    step. *)
Theorem refresh_while_running_returns_snapshot (s : Process) :
  reachable s →
  lock_locked (orch s) = true →
  refresh_enter (orch s) = (orch s, Some (progress (orch s)))
  ∧ active_runs s = 1%nat
  ∧ (∀ i, calls s !! i = Some Triggered →
          ∀ s', s' = {| orch := (refresh_enter (orch s)).1;
                        calls := <[i := match (refresh_enter (orch s)).2 with
                                        | Some p => Returned p
                                        | None => InRun
                                        end]> (calls s) |} →
                orch s' = orch s
                ∧ calls s' !! i = Some (Returned (progress (orch s)))
                ∧ active_runs s' = 1%nat)
  ∧ (∀ s', step s s' → (active_runs s' ≤ 1)%nat).
Proof.
  intros Hr Hlock.
  assert (Henter : refresh_enter (orch s) = (orch s, Some (progress (orch s)))).
  { unfold refresh_enter. by rewrite Hlock. }
  pose proof (lock_counts_runs s Hr) as Hcount. rewrite Hlock in Hcount.
  split; [exact Henter|]. split; [exact Hcount|]. split.
  - intros i Hi s' ->. rewrite Henter. simpl. split; [done|]. split.
    + apply list_lookup_insert_eq. by eapply lookup_lt_Some.
    + unfold active_runs in *. simpl.
      pose proof (active_runs_insert (calls s) i Triggered
                    (Returned (progress (orch s))) Hi) as Hins.
      simpl in Hins. lia.
  - intros s' Hstep. apply at_most_one_run. by eapply reach_step.
Qed.

Definition idle_orchestrator : Orchestrator :=
  {| progress := {| status := idle; started_at := None; completed_at := None;
                    processed := 0; failed_count := 0; total := None;
                    message := None; last_error := None; failed_items := [] |};
     lock_locked := false; is_paused := false; pause_event := true;
     cancelled_folders := []; current_run_started := None;
     current_run_total := 0; current_processed := 0;
     pending_paths := []; active_path := None |}.

(** A process in which one request has become a run and a second request
    has just arrived *)
Definition one_run_one_request : Process :=
  {| orch := (refresh_enter idle_orchestrator).1; calls := [InRun; Triggered] |}.

Lemma one_run_one_request_reachable : reachable one_run_one_request.
Proof.
  eapply reach_step; [eapply reach_step; [eapply reach_step|]|].
  - by apply (reach_init idle_orchestrator).
  - apply step_trigger.
  - by apply (step_enter _ 0%nat).
  - apply step_trigger.
Qed.

Lemma refresh_while_running_witness :
  refresh_enter (orch one_run_one_request)
    = (orch one_run_one_request, Some (progress (orch one_run_one_request)))
  ∧ active_runs one_run_one_request = 1%nat.
Proof.
  destruct (refresh_while_running_returns_snapshot one_run_one_request
              one_run_one_request_reachable eq_refl) as (H1 & H2 & _).
  exact (conj H1 H2).
Defined.

(** ** Pause and resume *)

Lemma set_running_keeps_pause o m :
  is_paused (_set_running_progress o m) = is_paused o
  ∧ pause_event (_set_running_progress o m) = pause_event o
  ∧ cancelled_folders (_set_running_progress o m) = cancelled_folders o.
Proof. unfold _set_running_progress. by destruct (current_run_started o). Qed.

Lemma end_file_keeps_pause o ok ff :
  is_paused (end_file o ok ff) = is_paused o
  ∧ pause_event (end_file o ok ff) = pause_event o
  ∧ cancelled_folders (end_file o ok ff) = cancelled_folders o.
Proof.
  unfold end_file. destruct ok;
    match goal with |- context [_set_running_progress ?x ?m] =>
      destruct (set_running_keeps_pause x m) as (-> & -> & ->) end; done.
Qed.

(** [pause] on a running, not yet paused run reports [paused] and clears
    the event. *)
Lemma pause_reports_paused o :
  status (progress o) = running → is_paused o = false →
  status (pause o).2 = paused
  ∧ get_status (pause o).1 = (pause o).2
  ∧ is_paused (pause o).1 = true
  ∧ pause_event (pause o).1 = false.
Proof. intros Hs Hp. unfold pause. rewrite Hs, Hp. simpl. done. Qed.

(** Pausing does not touch the coroutine: a file in flight stays in
    flight, and its completion is an event that can still happen. *)
Lemma pause_leaves_file_in_flight folder o p rest ok reason now :
  run_event folder CallPause (o, InFile p rest) = Some ((pause o).1, InFile p rest)
  ∧ is_Some (run_event folder (FileDone ok reason now) ((pause o).1, InFile p rest)).
Proof. split; [done|]. simpl. eauto. Qed.

(** While the event is cleared, the file in flight completes and the loop
    then blocks before the next file; the wait cannot return, its future
    being pending. *)
Lemma paused_loop_waits folder o p q rest ok reason now :
  pause_event o = false → folder ∉ cancelled_folders o →
  ∃ o', run_event folder (FileDone ok reason now) (o, InFile p (q :: rest))
        = Some (o', Waiting q rest)
        ∧ active_path o' = None
        ∧ run_event folder Wake (o', Waiting q rest) = None.
Proof.
  intros He Hc. eexists. simpl.
  destruct (end_file_keeps_pause o ok
              {| ff_path := p; ff_reason := reason; ff_timestamp := now |})
    as (_ & Hev & Hca).
  rewrite Hca, Hev, He. rewrite bool_decide_eq_false_2 by done.
  split; [done|]. split; [|done].
  unfold end_file, _set_running_progress. by destruct ok, (current_run_started o).
Qed.

Lemma begin_file_active o q :
  active_path (begin_file o q) = Some q ∧ is_paused (begin_file o q) = is_paused o.
Proof.
  unfold begin_file, _set_running_progress. simpl.
  by destruct (current_run_started o).
Qed.

Lemma resume_sets_event o :
  is_paused o = true →
  is_paused (resume o).1 = false ∧ pause_event (resume o).1 = true.
Proof.
  intros Hp. unfold resume. rewrite Hp. simpl.
  destruct (set_running_keeps_pause (with_pause o false true)
              (Some resuming_message)) as (-> & -> & _).
  done.
Qed.

(** After [resume] the wait returns and the loop goes on with the file it
    was blocked before. *)
Lemma resume_continues_with_next folder o q rest :
  is_paused o = true → pause_event o = false →
  ∃ o', run_events folder [CallResume; Wake] (o, Waiting q rest)
        = Some (o', InFile q rest)
        ∧ active_path o' = Some q ∧ is_paused o' = false.
Proof.
  intros Hp He. destruct (resume_sets_event o Hp) as (Hpa & Hev).
  exists (begin_file (resume o).1 q). cbn [run_events run_event resumed].
  rewrite Hp, He. cbn [andb negb mbind option_bind run_event].
  destruct (begin_file_active (resume o).1 q) as (-> & ->). done.
Qed.

(** A wait whose future [resume] has resolved returns although [pause] has
    cleared the event again: the next file begins on a paused run. *)
Lemma woken_loop_starts_file_while_paused folder o q rest :
  is_paused o = true → pause_event o = false →
  status (progress (resume o).1) = running →
  ∃ o', run_events folder [CallResume; CallPause; Wake] (o, Waiting q rest)
        = Some (o', InFile q rest)
        ∧ active_path o' = Some q ∧ is_paused o' = true ∧ pause_event o' = false.
Proof.
  intros Hp He Hs. destruct (resume_sets_event o Hp) as (Hpa & Hev).
  destruct (pause_reports_paused (resume o).1 Hs Hpa) as (_ & _ & Hpa' & Hev').
  exists (begin_file (pause (resume o).1).1 q). cbn [run_events run_event resumed].
  rewrite Hp, He. cbn [andb negb mbind option_bind run_event].
  destruct (begin_file_active (pause (resume o).1).1 q) as (-> & ->).
  split; [done|]. split; [done|]. split; [done|].
  unfold begin_file.
  match goal with |- context [_set_running_progress ?x ?m] =>
    destruct (set_running_keeps_pause x m) as (_ & -> & _) end.
  done.
Qed.

Lemma end_file_reports_running o ok ff t :
  current_run_started o = Some t → status (progress (end_file o ok ff)) = running.
Proof.
  intros Ht. unfold end_file, _set_running_progress. destruct ok; simpl; by rewrite Ht.
Qed.

Lemma pause_keeps_run o :
  current_run_started (pause o).1 = current_run_started o
  ∧ cancelled_folders (pause o).1 = cancelled_folders o.
Proof. unfold pause. by destruct (_ || _). Qed.

(** The completion of the file in flight rewrites the status: on a run
    that [pause] has just paused, [status] reports [running] again although
    the run is still paused and blocked. *)
Lemma file_completion_overwrites_paused folder o p q rest ok reason now t :
  status (progress o) = running → is_paused o = false →
  current_run_started o = Some t → folder ∉ cancelled_folders o →
  ∃ o', run_events folder [CallPause; FileDone ok reason now] (o, InFile p (q :: rest))
        = Some (o', Waiting q rest)
        ∧ is_paused o' = true ∧ pause_event o' = false
        ∧ status (get_status o') = running.
Proof.
  intros Hs Hp Ht Hc.
  destruct (pause_reports_paused o Hs Hp) as (_ & _ & Hpa & Hev).
  destruct (pause_keeps_run o) as (Hst & Hca).
  set (ff := {| ff_path := p; ff_reason := reason; ff_timestamp := now |}).
  destruct (end_file_keeps_pause (pause o).1 ok ff) as (Hpa' & Hev' & Hca').
  exists (end_file (pause o).1 ok ff). simpl. fold ff.
  rewrite Hca', Hca, Hev', Hev, Hpa', Hpa.
  rewrite bool_decide_eq_false_2 by done.
  repeat split. unfold get_status. apply (end_file_reports_running _ _ _ t).
  by rewrite Hst.
Qed.

Definition docs : str := of_string "docs".
Definition a_txt : str := of_string "/docs/a.txt".
Definition b_txt : str := of_string "/docs/b.txt".

(** A run over [a.txt] and [b.txt] that is inside [a.txt] *)
Definition mid_run : Orchestrator :=
  {| progress := {| status := running; started_at := Some 1; completed_at := None;
                    processed := 0; failed_count := 0; total := Some 2;
                    message := Some (of_string "Indexing a.txt");
                    last_error := None; failed_items := [] |};
     lock_locked := true; is_paused := false; pause_event := true;
     cancelled_folders := []; current_run_started := Some 1;
     current_run_total := 2; current_processed := 0;
     pending_paths := [b_txt]; active_path := Some a_txt |}.

(** C9, at the failing input. [pause] is called while [a.txt] is in flight
    and reports [paused]; [a.txt] then completes; the loop is blocked before
    [b.txt], the run is still paused and [resume] has not been called, yet
    [status] reports [running]. *)
Theorem pause_status_lost_when_file_completes :
  status (pause mid_run).2 = paused
  ∧ ∃ o, run_events docs [CallPause; FileDone true [] 2] (mid_run, InFile a_txt [b_txt])
         = Some (o, Waiting b_txt [])
         ∧ is_paused o = true
         ∧ pause_event o = false
         ∧ current_processed o = 1
         ∧ status (get_status o) = running.
Proof. split; [reflexivity|]. eexists. repeat split; reflexivity. Qed.

(** On the same run: [resume] resolves the wait of the loop, and a
    [pause] that follows before the loop runs does not hold it back;
    [b.txt] begins while the run is paused. *)
Example resume_then_pause_still_wakes :
  ∃ o, run_events docs [CallPause; FileDone true [] 2; CallResume; CallPause; Wake]
         (mid_run, InFile a_txt [b_txt])
       = Some (o, InFile b_txt [])
       ∧ is_paused o = true ∧ pause_event o = false
       ∧ active_path o = Some b_txt.
Proof. eexists. repeat split; reflexivity. Qed.

(** ** Change detection *)

Section ChangeDetection.

Context {Vector : Type}.
Variable fingerprint : str → str.
Variable stat : str → option Stat.

Definition checksum_missing (e : FileRecord Vector) : Prop :=
  match checksum_sha256 e with
  | Some (_ :: _) => False
  | _ => True
  end.

(** The five conditions under which the specification selects a candidate *)
Definition selected_by_spec (w : World Vector) (failed_paths : list str) (p : str)
    : Prop :=
  p ∈ failed_paths
  ∨ get_file w (fingerprint p) = None
  ∨ (∃ e st, get_file w (fingerprint p) = Some e ∧ stat p = Some st
             ∧ second ≤ Z.abs (st_mtime st - modified_at e))
  ∨ (∃ e st, get_file w (fingerprint p) = Some e ∧ stat p = Some st
             ∧ size e ≠ st_size st)
  ∨ (∃ e, get_file w (fingerprint p) = Some e ∧ checksum_missing e).

(** The sixth condition of the code: a stored file that cannot be stat'ed *)
Definition unreadable (w : World Vector) (p : str) : Prop :=
  is_Some (get_file w (fingerprint p)) ∧ stat p = None.

Lemma changed_iff w failed_paths p :
  changed fingerprint stat w failed_paths p = true
  ↔ selected_by_spec w failed_paths p ∨ unreadable w p.
Proof.
  unfold changed, selected_by_spec, unreadable, checksum_missing.
  case_bool_decide as Hf; [naive_solver|].
  destruct (get_file w (fingerprint p)) as [e|] eqn:He; [|naive_solver].
  destruct (stat p) as [st|] eqn:Hst; [|naive_solver].
  destruct (Z.leb_spec second (Z.abs (st_mtime st - modified_at e))) as [Hm|Hm].
  { split; [|done]. intros _. left. right. right. left. eauto. }
  destruct (Z.eqb_spec (size e) (st_size st)) as [Hs|Hs]; simpl.
  - destruct (checksum_sha256 e) as [[|c cs]|] eqn:Hc.
    + split; [|done]. intros _. left. do 4 right. exists e. by rewrite Hc.
    + split; [done|]. intros [[?|[?|[(e' & st' & ? & ? & ?)|[(e' & st' & ? & ? & ?)|(e' & ? & Hm')]]]]|[_ ?]];
        simplify_eq; try done; try lia. by rewrite Hc in Hm'.
    + split; [|done]. intros _. left. do 4 right. exists e. by rewrite Hc.
  - split; [|done]. intros _. left. do 3 right. left. eauto.
Qed.


End ChangeDetection.

(** A folder with one candidate whose record is stored with a checksum, is
    not in the failed list, and has vanished from the file system. *)
Definition gone_file_record : FileRecord unit :=
  {| id := a_txt; folder_id := docs; path := a_txt; size := 10;
     modified_at := 5 * second; checksum_sha256 := Some (of_string "c0ffee");
     summary := None; preview_image := None; metadata := ∅;
     embedding_vector := None; embedding_determined_at := None;
     index_status := indexed; error_reason := None; error_at := None |}.

Definition gone_file_world : World unit :=
  {| files := {[ a_txt := gone_file_record ]}; stored_chunks := ∅;
     vs_calls := []; embed_calls := [] |}.


(** ** Batching *)

(** The batches of [_embed_chunks] are the texts, in order, none left out:
    the loop over [range(0, len(l), batch_size)] has fuel for all of them. *)
Lemma batches_of_concat {A} (fuel batch_size : nat) (l : list A) :
  (0 < batch_size)%nat → (length l ≤ fuel)%nat →
  concat (batches_of fuel batch_size l) = l.
Proof.
  intros Hb. revert l. induction fuel as [|f IH]; intros l Hl.
  - destruct l; [done|]. simpl in Hl. lia.
  - destruct l as [|x l]; [done|].
    change (batches_of (S f) batch_size (x :: l))
      with (take batch_size (x :: l) :: batches_of f batch_size (drop batch_size (x :: l))).
    rewrite concat_cons, IH; [apply take_drop|].
    rewrite length_drop. simpl in *. lia.
Qed.

(** ** The store stage *)

Section StoreProps.

Context {Vector : Type}.
Variable encode : nat → list str → Exn + list Vector.
Variable vs_raises : list (VsCall Vector) → VsCall Vector → bool.
Variable settings : Settings.

Local Abbreviation store := (_store_artifact encode vs_raises settings).
Local Abbreviation process := (_process_single_file encode vs_raises settings).
Local Abbreviation embed := (_embed_chunks encode settings).

(** The [n]-th call of the client answers a batch with as many vectors as
    it has texts, or with another number of vectors. *)
Definition answered (n : nat) (batch : list str) : Prop :=
  ∃ vs, encode n (batch_texts settings batch) = inr vs ∧ length vs = length batch.

Definition miscounted (n : nat) (batch : list str) : Prop :=
  ∃ vs, encode n (batch_texts settings batch) = inr vs ∧ length vs ≠ length batch.

(** The embedding loop only talks to the client. *)
Lemma embed_loop_frame (w : World Vector) batches vectors :
  let w' := (embed_loop encode settings w batches vectors).1 in
  files w' = files w ∧ stored_chunks w' = stored_chunks w ∧ vs_calls w' = vs_calls w.
Proof.
  revert w vectors. induction batches as [|b rest IH]; intros w vectors; simpl; [done|].
  destruct (encode _ _) as [e|resp]; simpl; [done|].
  case_bool_decide; simpl; [|done].
  specialize (IH (call_encode encode w (batch_texts settings b)).1 (vectors ++ resp)).
  simpl in IH. exact IH.
Qed.

Lemma embed_frame (w : World Vector) cs :
  files (embed w cs).1 = files w
  ∧ stored_chunks (embed w cs).1 = stored_chunks w
  ∧ vs_calls (embed w cs).1 = vs_calls w.
Proof.
  unfold _embed_chunks. destruct (chunk_payloads cs); [done|].
  apply embed_loop_frame.
Qed.

(** A batch answered with the wrong number of vectors, after batches
    answered well, makes the loop raise. *)
Lemma embed_loop_raises (w : World Vector) pre bad post vectors :
  (∀ j b, pre !! j = Some b → answered (length (embed_calls w) + j) b) →
  miscounted (length (embed_calls w) + length pre) bad →
  ∃ n, (embed_loop encode settings w (pre ++ bad :: post) vectors).2
       = inl (RuntimeError n (length bad)) ∧ n ≠ length bad.
Proof.
  revert w vectors. induction pre as [|b pre IH]; intros w vectors Hpre Hbad; simpl.
  - destruct Hbad as (vs & Hvs & Hlen). rewrite Nat.add_0_r in Hvs. rewrite Hvs.
    rewrite bool_decide_eq_false_2 by done. eauto.
  - destruct (Hpre 0%nat b eq_refl) as (vs & Hvs & Hlen).
    rewrite Nat.add_0_r in Hvs. rewrite Hvs, bool_decide_eq_true_2 by done.
    apply IH; simpl; rewrite length_app; simpl.
    + intros j b' Hj. specialize (Hpre (S j) b' Hj).
      by replace (length (embed_calls w) + 1 + j)%nat
        with (length (embed_calls w) + S j)%nat by lia.
    + by replace (length (embed_calls w) + 1 + length pre)%nat
        with (length (embed_calls w) + S (length pre))%nat by lia.
Qed.

(** [_embed_chunks] raises on a miscounted batch. *)
Lemma embed_chunks_raises (w : World Vector) cs pre bad post :
  embed_batches settings cs = pre ++ bad :: post →
  (∀ j b, pre !! j = Some b → answered (length (embed_calls w) + j) b) →
  miscounted (length (embed_calls w) + length pre) bad →
  ∃ n, (embed w cs).2 = inl (RuntimeError n (length bad)) ∧ n ≠ length bad.
Proof.
  intros Hb Hpre Hbad. unfold _embed_chunks.
  destruct (chunk_payloads cs) as [|t ts] eqn:Hp.
  - unfold embed_batches in Hb. rewrite Hp in Hb. simpl in Hb.
    by destruct pre.
  - rewrite Hb. by apply embed_loop_raises.
Qed.

(** What the full path leaves behind when no vector came back *)
Lemma store_full_without_vectors (w : World Vector) a previous now :
  (∃ e, (embed w (chunks a)).2 = inl e) →
  let w' := store_full encode vs_raises settings w a previous now in
  vs_calls w' = vs_calls w ++ (if truthy previous then [VsDelete previous] else [])
  ∧ files w' = <[id (record a) := stored_record (record a) [] [] now]> (files w).
Proof.
  intros [e He]. unfold store_full.
  destruct (embed_frame w (chunks a)) as (Hf & _ & Hv).
  destruct (embed w (chunks a)) as [w1 r] eqn:Hw. simpl in *. subst r.
  rewrite zip_with_nil_r. simpl.
  destruct (truthy previous); simpl; rewrite ?Hf, ?Hv; by rewrite ?app_nil_r.
Qed.

(** C1, as the code has it. If the client answers one batch of a file with
    the wrong number of vectors, [_embed_chunks] raises; [_store_artifact]
    catches that and goes on without vectors: the vector store receives
    no upsert for the file (at most the deletion of the previous entries),
    the file counts as processed, and its record is stored with status
    [indexed] and an empty list of vector chunks. *)
Theorem embedding_mismatch_stores_no_vectors
    (w : World Vector) (a : IngestArtifact Vector) (refresh : bool) (now : Z)
    (pre post : list (list str)) (bad : list str) :
  reuse_vectors settings (get_file w (id (record a))) a refresh = None →
  embed_batches settings (chunks a) = pre ++ bad :: post →
  (∀ j b, pre !! j = Some b → answered (length (embed_calls w) + j) b) →
  miscounted (length (embed_calls w) + length pre) bad →
  let previous := previous_chunk_ids (get_file w (id (record a))) in
  let '(w', ok) := process w (id (record a)) (inr a) refresh now in
  (∃ n, (embed w (chunks a)).2 = inl (RuntimeError n (length bad)) ∧ n ≠ length bad)
  ∧ ok = true
  ∧ vs_calls w' = vs_calls w ++ (if truthy previous then [VsDelete previous] else [])
  ∧ (∀ docs : list (VectorDocument Vector),
       VsUpsert docs ∈ vs_calls w' → VsUpsert docs ∈ vs_calls w)
  ∧ ∃ r, files w' !! id (record a) = Some r
         ∧ index_status r = indexed
         ∧ metadata r !! key_vector_chunks = Some (VList []).
Proof.
  intros Hreuse Hb Hpre Hbad previous. simpl.
  destruct (embed_chunks_raises w (chunks a) pre bad post Hb Hpre Hbad) as (n & Hn & Hne).
  split; [eauto|]. split; [done|].
  unfold _store_artifact. rewrite Hreuse.
  destruct (store_full_without_vectors w a previous now) as (Hv & Hf); [eauto|].
  fold previous. split; [exact Hv|]. split.
  - intros docs. simpl. rewrite Hv, elem_of_app. intros [Hin|Hin]; [done|].
    destruct (truthy previous); [|by apply elem_of_nil in Hin].
    apply list_elem_of_singleton in Hin. discriminate.
  - unfold mark_file_indexed. simpl. rewrite Hf.
    rewrite lookup_alter_eq, lookup_insert_eq. simpl.
    eexists. split; [done|]. split; [done|]. simpl. apply lookup_insert_eq.
Qed.

(** C2. For a file whose stored record has the same checksum and the same
    chunk-strategy tag, an embedding vector and recorded chunk ids, with
    reuse enabled and refresh not forced, the store stage calls neither the
    embedding client nor the vector store and leaves the stored chunks
    alone; it only writes the file record, with status [indexed], the
    error fields cleared, and the stored embedding and vector-chunk ids.
    The scan builds the metadata of the new record afresh, so it carries no
    vector-chunk entry of its own when the store stage runs. *)
Theorem reuse_fast_path_only_refreshes_record
    (w : World Vector) (a : IngestArtifact Vector) (e : FileRecord Vector)
    (v : Vector) (ids : list str) (now : Z) :
  get_file w (id (record a)) = Some e →
  checksum_sha256 e = checksum_sha256 (record a) →
  metadata e !! key_chunk_strategy = metadata (record a) !! key_chunk_strategy →
  embedding_vector e = Some v →
  metadata e !! key_vector_chunks = Some (VList ids) → ids ≠ [] →
  reuse_embeddings settings = true →
  metadata (record a) !! key_vector_chunks = None →
  let w' := store w a false now in
  embed_calls w' = embed_calls w
  ∧ vs_calls w' = vs_calls w
  ∧ stored_chunks w' = stored_chunks w
  ∧ ∃ r, files w' = <[id (record a) := r]> (files w)
         ∧ index_status r = indexed
         ∧ error_reason r = None ∧ error_at r = None
         ∧ embedding_vector r = Some v
         ∧ embedding_determined_at r = embedding_determined_at e
         ∧ metadata r !! key_vector_chunks = Some (VList ids).
Proof.
  intros He Hsum Htag Hvec Hids Hne Hreuse Hfresh. simpl.
  unfold _store_artifact. rewrite He.
  assert (Hr : reuse_vectors settings (Some e) a false = Some e).
  { unfold reuse_vectors, previous_chunk_ids. rewrite Hids, Hreuse. simpl.
    rewrite !bool_decide_eq_true_2; [|done|by rewrite Hvec|done].
    by destruct ids. }
  rewrite Hr. simpl. repeat split.
  eexists. split; [done|]. simpl. repeat split; try done.
  unfold setdefault, previous_chunk_ids. rewrite Hfresh, Hids. simpl.
  apply lookup_insert_eq.
Qed.

End StoreProps.

(** *** The store stage on concrete files *)

Definition demo_settings : Settings :=
  {| reuse_embeddings := true; embed_batch_size := 8; embed_max_chars := 2000 |}.

(** A client that answers every batch with no vector at all *)
Definition silent_client (_ : nat) (_ : list str) : Exn + list (list Z) := inr [].

Definition calm_store (_ : list (VsCall (list Z))) (_ : VsCall (list Z)) : bool := false.

Definition hello : str := of_string "hello".

Definition fresh_record : FileRecord (list Z) :=
  {| id := a_txt; folder_id := docs; path := a_txt; size := 5;
     modified_at := 7 * second; checksum_sha256 := Some (of_string "c0ffee");
     summary := Some hello; preview_image := None;
     metadata := {[ key_chunk_strategy := VStr (of_string "chunker_v1_fast") ]};
     embedding_vector := None; embedding_determined_at := None;
     index_status := pending; error_reason := None; error_at := None |}.

Definition fresh_artifact : IngestArtifact (list Z) :=
  {| record := fresh_record;
     chunks := [{| chunk_id := of_string "k0"; text := hello; snippet := hello;
                   section_path := None |}] |}.

Definition empty_world : World (list Z) :=
  {| files := ∅; stored_chunks := ∅; vs_calls := []; embed_calls := [] |}.

(** C1 as stated fails on the code: the client answers the only batch of
    the file, one text, with no vector; the file is then stored with status
    [indexed], not [error]. *)
Lemma embedding_mismatch_counterexample :
  miscounted silent_client demo_settings 0 [hello]
  ∧ ¬ (∃ r, files (_process_single_file silent_client calm_store demo_settings
                     empty_world a_txt (inr fresh_artifact) false 9).1 !! a_txt = Some r
            ∧ index_status r = error).
Proof.
  split.
  - exists []. split; [reflexivity|discriminate].
  - intros (r & Hr & Hs). vm_compute in Hr. injection Hr as <-. discriminate.
Qed.

Lemma embedding_mismatch_witness :
  miscounted silent_client demo_settings 0 [hello]
  ∧ (_process_single_file silent_client calm_store demo_settings
       empty_world a_txt (inr fresh_artifact) false 9).2 = true
  ∧ vs_calls (_process_single_file silent_client calm_store demo_settings
                empty_world a_txt (inr fresh_artifact) false 9).1 = [].
Proof.
  assert (Hbad : miscounted silent_client demo_settings 0 [hello]).
  { exists []. split; [reflexivity|discriminate]. }
  assert (Hpre : ∀ j b, ([] : list (list str)) !! j = Some b →
                        answered silent_client demo_settings (0 + j) b).
  { intros j b Hj. rewrite lookup_nil in Hj. discriminate. }
  pose proof (embedding_mismatch_stores_no_vectors silent_client calm_store
                demo_settings empty_world fresh_artifact false 9 [] [] [hello]
                eq_refl eq_refl Hpre Hbad) as H.
  unfold _process_single_file in H. destruct H as (_ & Hok & Hv & _).
  split; [exact Hbad|]. split; [exact Hok|exact Hv].
Defined.

(** A file indexed before, with one vector stored under [k0] *)
Definition known_record : FileRecord (list Z) :=
  {| id := a_txt; folder_id := docs; path := a_txt; size := 5;
     modified_at := 7 * second; checksum_sha256 := Some (of_string "c0ffee");
     summary := Some hello; preview_image := None;
     metadata := {[ key_chunk_strategy := VStr (of_string "chunker_v1_fast");
                    key_vector_chunks := VList [of_string "k0"] ]};
     embedding_vector := Some [1; 0]; embedding_determined_at := Some 3;
     index_status := error; error_reason := Some (of_string "timeout");
     error_at := Some 4 |}.

Definition known_world : World (list Z) :=
  {| files := {[ a_txt := known_record ]}; stored_chunks := ∅;
     vs_calls := []; embed_calls := [] |}.

Lemma reuse_fast_path_witness :
  get_file known_world (id (record fresh_artifact)) = Some known_record
  ∧ embed_calls (_store_artifact silent_client calm_store demo_settings
                   known_world fresh_artifact false 9) = []
  ∧ vs_calls (_store_artifact silent_client calm_store demo_settings
                known_world fresh_artifact false 9) = []
  ∧ ∃ r, files (_store_artifact silent_client calm_store demo_settings
                  known_world fresh_artifact false 9)
         = <[a_txt := r]> (files known_world)
         ∧ index_status r = indexed
         ∧ embedding_vector r = Some [1; 0]
         ∧ metadata r !! key_vector_chunks = Some (VList [of_string "k0"]).
Proof.
  assert (He : get_file known_world (id (record fresh_artifact)) = Some known_record)
    by reflexivity.
  assert (Hne : [of_string "k0"] ≠ []) by discriminate.
  pose proof (reuse_fast_path_only_refreshes_record silent_client calm_store
                demo_settings known_world fresh_artifact known_record [1; 0]
                [of_string "k0"] 9 He eq_refl eq_refl eq_refl eq_refl Hne
                eq_refl eq_refl) as H.
  destruct H as (Hc & Hv & _ & r & Hf & Hs & _ & _ & Hvec & _ & Hids).
  split; [exact He|]. split; [exact Hc|]. split; [exact Hv|].
  exists r. split; [exact Hf|]. split; [exact Hs|]. split; [exact Hvec|exact Hids].
Defined.

(** * Further properties of the run *)

(** ** The counters of a run *)

Definition succeeded (ev : Event) : bool :=
  match ev with FileDone true _ _ => true | _ => false end.

Definition failed_file (ev : Event) : bool :=
  match ev with FileDone false _ _ => true | _ => false end.

Fixpoint tally (f : Event → bool) (evs : list Event) : Z :=
  match evs with
  | [] => 0
  | ev :: rest => (if f ev then 1 else 0) + tally f rest
  end.

(** The counters of a run: the files processed, the files failed, and how
    many failures are listed *)
Definition counters (o : Orchestrator) : Z * Z * Z :=
  (current_processed o, failed_count (progress o),
   Z.of_nat (length (failed_items (progress o)))).

Lemma set_running_counters o m : counters (_set_running_progress o m) = counters o.
Proof. unfold _set_running_progress. by destruct (current_run_started o). Qed.

Lemma pause_counters o : counters (pause o).1 = counters o.
Proof. unfold pause. by destruct (_ || _). Qed.

Lemma resume_counters o : counters (resume o).1 = counters o.
Proof.
  unfold resume. destruct (negb (is_paused o)); [done|]. simpl.
  by rewrite set_running_counters.
Qed.

Lemma begin_file_counters o p : counters (begin_file o p) = counters o.
Proof. unfold begin_file. by rewrite set_running_counters. Qed.

Lemma loop_head_counters o folder l : counters (loop_head o folder l).1 = counters o.
Proof.
  unfold loop_head. destruct l as [|p rest]; [done|].
  case_bool_decide; [done|]. destruct (pause_event o); [|done].
  apply begin_file_counters.
Qed.

Lemma end_file_counters o ok ff :
  counters (end_file o ok ff)
  = (current_processed o + (if ok then 1 else 0),
     failed_count (progress o) + (if ok then 0 else 1),
     Z.of_nat (length (failed_items (progress o))) + (if ok then 0 else 1)).
Proof.
  unfold end_file. destruct ok; rewrite set_running_counters; unfold counters; simpl.
  - by rewrite !Z.add_0_r.
  - rewrite length_app, Z.add_0_r. simpl. do 2 f_equal. lia.
Qed.

Lemma cancel_folder_counters o f : counters (cancel_folder o f) = counters o.
Proof. done. Qed.

Lemma run_event_counters folder ev st st' :
  run_event folder ev st = Some st' →
  counters st'.1
  = ((counters st.1).1.1 + (if succeeded ev then 1 else 0),
     (counters st.1).1.2 + (if failed_file ev then 1 else 0),
     (counters st.1).2 + (if failed_file ev then 1 else 0)).
Proof.
  destruct st as [o l]. unfold run_event.
  destruct ev as [| |f|ok reason now|].
  - intros [= <-]. cbn [fst]. rewrite pause_counters. unfold counters. simpl.
    by rewrite !Z.add_0_r.
  - intros [= <-]. cbn [fst]. rewrite resume_counters. unfold counters. simpl.
    by rewrite !Z.add_0_r.
  - intros [= <-]. cbn [fst]. rewrite cancel_folder_counters. unfold counters. simpl.
    by rewrite !Z.add_0_r.
  - destruct l as [| |p rest|]; try done. intros [= <-].
    rewrite loop_head_counters, end_file_counters. by destruct ok.
  - destruct l as [|p rest| |]; try done.
    intros [= <-]. cbn [fst]. rewrite begin_file_counters. unfold counters. simpl.
    by rewrite !Z.add_0_r.
Qed.

Lemma run_events_counters folder evs st :
  match run_events folder evs st with
  | Some st' =>
      counters st'.1
      = ((counters st.1).1.1 + tally succeeded evs,
         (counters st.1).1.2 + tally failed_file evs,
         (counters st.1).2 + tally failed_file evs)
  | None => True
  end.
Proof.
  revert st. induction evs as [|ev evs IH]; intros st.
  - simpl. by rewrite !Z.add_0_r.
  - cbn [run_events]. destruct (run_event folder ev st) as [st1|] eqn:Hev; [|done].
    cbn [mbind option_bind]. specialize (IH st1).
    destruct (run_events folder evs st1) as [st'|]; [|done].
    rewrite IH, (run_event_counters _ _ _ _ Hev). cbn [tally fst snd].
    f_equal; [f_equal|]; lia.
Qed.

(** X20. Over any course of a run through the loop of [_process_folder],
    with calls of [pause], [resume] and [cancel_folder] in between and
    with waits that return after the event has been cleared again, the
    processed counter grows by the number of files that succeeded, and the
    failed counter and the list of failed items both grow by the number of
    files that failed. *)
Theorem run_counts_every_finished_file (folder : str) (evs : list Event)
    (st st' : Orchestrator * Loop) :
  run_events folder evs st = Some st' →
  current_processed st'.1 = current_processed st.1 + tally succeeded evs
  ∧ failed_count (progress st'.1)
    = failed_count (progress st.1) + tally failed_file evs
  ∧ Z.of_nat (length (failed_items (progress st'.1)))
    = Z.of_nat (length (failed_items (progress st.1))) + tally failed_file evs.
Proof.
  intros Hrun. pose proof (run_events_counters folder evs st) as H.
  rewrite Hrun in H. unfold counters in H. cbn [fst snd] in H.
  by injection H as -> -> ->.
Qed.

(** ** Cancelling a folder *)

Lemma set_running_cancelled o m :
  cancelled_folders (_set_running_progress o m) = cancelled_folders o.
Proof. unfold _set_running_progress. by destruct (current_run_started o). Qed.

Lemma pause_cancelled o : cancelled_folders (pause o).1 = cancelled_folders o.
Proof. unfold pause. by destruct (_ || _). Qed.

Lemma resume_cancelled o : cancelled_folders (resume o).1 = cancelled_folders o.
Proof.
  unfold resume. destruct (negb (is_paused o)); [done|]. simpl.
  by rewrite set_running_cancelled.
Qed.

Lemma begin_file_cancelled o p : cancelled_folders (begin_file o p) = cancelled_folders o.
Proof. unfold begin_file. by rewrite set_running_cancelled. Qed.

Lemma end_file_cancelled o ok ff :
  cancelled_folders (end_file o ok ff) = cancelled_folders o.
Proof. unfold end_file. destruct ok; by rewrite set_running_cancelled. Qed.

Lemma cancel_folder_cancelled o f folder :
  folder ∈ cancelled_folders o → folder ∈ cancelled_folders (cancel_folder o f).
Proof.
  intros H. unfold cancel_folder. simpl. case_bool_decide; [done|].
  by apply list_elem_of_further.
Qed.

(** The loop has started no file beyond the one it was at: it is where it
    was, or further on with the file whose wait it had already reached
    (woken, or inside the file), or past the loop. *)
Definition no_new_file (l l' : Loop) : Prop :=
  l' = Finished ∨ l' = l
  ∨ ∃ p rest, (l = Waiting p rest ∧ (l' = Woken p rest ∨ l' = InFile p rest))
              ∨ (l = Woken p rest ∧ l' = InFile p rest).

Lemma no_new_file_trans l1 l2 l3 :
  no_new_file l1 l2 → no_new_file l2 l3 → no_new_file l1 l3.
Proof.
  unfold no_new_file.
  intros [->|[->|(p & rest & [[-> [->| ->]]|[-> ->]])]]
         [->|[->|(p' & rest' & [[? [->| ->]]|[? ->]])]];
    simplify_eq; eauto 10.
Qed.

Lemma run_event_cancelled folder ev o l o' l' :
  folder ∈ cancelled_folders o →
  run_event folder ev (o, l) = Some (o', l') →
  folder ∈ cancelled_folders o' ∧ no_new_file l l'.
Proof.
  intros Hc. unfold run_event, no_new_file. destruct ev as [| |f|ok reason now|].
  - intros [= <- <-]. rewrite pause_cancelled. auto.
  - intros [= <- <-]. rewrite resume_cancelled. split; [done|].
    destruct l as [p rest|p rest|p rest|]; cbn [resumed]; auto.
    destruct (is_paused o && negb (pause_event o)); eauto 10.
  - intros [= <- <-]. split; [by apply cancel_folder_cancelled|auto].
  - destruct l as [| |p rest|]; try done. unfold loop_head.
    destruct rest as [|q rest].
    + intros [= <- <-]. rewrite end_file_cancelled. auto.
    + rewrite end_file_cancelled. rewrite bool_decide_true by done.
      intros [= <- <-]. rewrite end_file_cancelled. auto.
  - destruct l as [|p rest| |]; try done.
    intros [= <- <-]. rewrite begin_file_cancelled. split; [done|]. eauto 10.
Qed.

Lemma run_events_cancelled folder evs o l :
  folder ∈ cancelled_folders o →
  match run_events folder evs (o, l) with
  | Some (o', l') => folder ∈ cancelled_folders o' ∧ no_new_file l l'
  | None => True
  end.
Proof.
  revert o l. induction evs as [|ev evs IH]; intros o l Hc.
  - simpl. split; [done|]. right. by left.
  - cbn [run_events]. destruct (run_event folder ev (o, l)) as [[o1 l1]|] eqn:Hev; [|done].
    cbn [mbind option_bind].
    destruct (run_event_cancelled _ _ _ _ _ _ Hc Hev) as [Hc1 Hl1].
    specialize (IH o1 l1 Hc1).
    destruct (run_events folder evs (o1, l1)) as [[o' l']|]; [|done].
    destruct IH as [Hc' Hl']. split; [done|]. by eapply no_new_file_trans.
Qed.

(** X21. After [cancel_folder], the folder stays cancelled for the rest of
    the run, whatever calls of [pause], [resume] and [cancel_folder]
    follow, and the loop of [_process_folder] takes up no further file: it
    is where it was, or further on with the file whose wait it had already
    reached, or past the loop. *)
Theorem cancelled_folder_starts_no_new_file (folder : str) (evs : list Event)
    (o o' : Orchestrator) (l l' : Loop) :
  run_events folder evs (cancel_folder o folder, l) = Some (o', l') →
  folder ∈ cancelled_folders o' ∧ no_new_file l l'.
Proof.
  intros Hrun.
  assert (Hc : folder ∈ cancelled_folders (cancel_folder o folder)).
  { unfold cancel_folder. simpl. case_bool_decide; [done|]. apply list_elem_of_here. }
  pose proof (run_events_cancelled folder evs _ l Hc) as H.
  by rewrite Hrun in H.
Qed.

(** ** The store stage when the client and the vector store behave *)

Lemma batches_of_sizes {A} (fuel batch_size : nat) (l : list A) :
  (0 < batch_size)%nat →
  Forall (fun b => (0 < length b ≤ batch_size)%nat) (batches_of fuel batch_size l).
Proof.
  intros Hb. revert l. induction fuel as [|f IH]; intros l; [done|].
  destruct l as [|x l]; [done|].
  change (batches_of (S f) batch_size (x :: l))
    with (take batch_size (x :: l) :: batches_of f batch_size (drop batch_size (x :: l))).
  constructor; [|apply IH]. rewrite length_take. simpl. lia.
Qed.

Lemma concat_fmap_fmap {A B} (f : A → B) (ls : list (list A)) :
  concat ((fun l : list A => f <$> l) <$> ls) = f <$> concat ls.
Proof.
  induction ls as [|l ls IH]; [done|]. cbn [fmap list_fmap concat].
  rewrite fmap_app. f_equal. exact IH.
Qed.

Lemma filter_all {A} (P : A → Prop) `{∀ x, Decision (P x)} (l : list A) :
  Forall P l → filter P l = l.
Proof.
  induction 1 as [|x l Hx Hl IH]; [done|].
  rewrite filter_cons, decide_True by done. by rewrite IH.
Qed.

Section StoreSuccess.

Context {Vector : Type}.
Variable encode : nat → list str → Exn + list Vector.
Variable vs_raises : list (VsCall Vector) → VsCall Vector → bool.
Variable settings : Settings.

(** The client answers every batch with as many vectors as it has texts. *)
Hypothesis client_answers :
  ∀ n texts, ∃ vs, encode n texts = inr vs ∧ length vs = length texts.

Lemma embed_loop_answers (w : World Vector) batches vectors :
  ∃ w' vs, embed_loop encode settings w batches vectors = (w', inr (vectors ++ vs))
           ∧ length vs = length (concat batches)
           ∧ embed_calls w' = embed_calls w ++ (batch_texts settings <$> batches).
Proof.
  revert w vectors. induction batches as [|b rest IH]; intros w vectors.
  - exists w, []. simpl. by rewrite !app_nil_r.
  - cbn [embed_loop]. unfold call_encode.
    destruct (client_answers (length (embed_calls w)) (batch_texts settings b))
      as (resp & Henc & Hlen).
    rewrite Henc. unfold batch_texts in Hlen. rewrite length_fmap in Hlen.
    rewrite bool_decide_eq_true_2 by done.
    match goal with
    | |- context [embed_loop encode settings ?w1 rest ?v1] =>
        destruct (IH w1 v1) as (w' & vs & Heq & Hl & Hc); rewrite Heq
    end.
    exists w', (resp ++ vs). simpl in Hc. rewrite Hc. split_and!.
    + by rewrite app_assoc.
    + simpl. rewrite !length_app. lia.
    + rewrite fmap_cons. by rewrite <- app_assoc.
Qed.

Lemma embed_chunks_answers (w : World Vector) (cs : list ChunkSnapshot) :
  ∃ w' vs, _embed_chunks encode settings w cs = (w', inr vs)
           ∧ length vs = length (chunk_payloads cs)
           ∧ embed_calls w'
             = embed_calls w ++ match chunk_payloads cs with
                                | [] => []
                                | _ => batch_texts settings <$> embed_batches settings cs
                                end.
Proof.
  unfold _embed_chunks. destruct (chunk_payloads cs) as [|t ts] eqn:Hp.
  - exists w, []. by rewrite app_nil_r.
  - destruct (embed_loop_answers w (embed_batches settings cs) [])
      as (w' & vs & Heq & Hl & Hc).
    exists w', vs. split_and!; [done| |done].
    rewrite Hl. unfold embed_batches. rewrite batches_of_concat; [by rewrite Hp|lia|done].
Qed.

(** X22. With a client that answers every batch with one vector per text,
    [_embed_chunks] returns one vector per chunk text that is not blank.
    The batches it sends are appended to the calls made before; put end to
    end they are the stripped texts, each cut to [embed_max_chars], in the
    order of the chunks; no batch is empty and none is larger than the
    batch size. *)
Theorem embed_chunks_one_vector_per_text (w : World Vector)
    (cs : list (ChunkSnapshot)) :
  let out := _embed_chunks encode settings w cs in
  let sent := drop (length (embed_calls w)) (embed_calls out.1) in
  (∃ vs, out.2 = inr vs ∧ length vs = length (chunk_payloads cs))
  ∧ embed_calls out.1 = embed_calls w ++ sent
  ∧ concat sent
    = (fun t => slice_to t (embed_max_chars settings)) <$> chunk_payloads cs
  ∧ Forall (fun b => (0 < length b
                      ≤ Z.to_nat (Z.max (embed_batch_size settings) 1))%nat) sent.
Proof.
  destruct (embed_chunks_answers w cs) as (w' & vs & Heq & Hl & Hc).
  rewrite Heq. cbn [fst snd]. rewrite Hc, drop_app_length.
  split_and!; [by exists vs|done| |].
  - destruct (chunk_payloads cs) as [|t ts] eqn:Hp; [done|].
    unfold batch_texts. rewrite concat_fmap_fmap. unfold embed_batches.
    rewrite batches_of_concat; [by rewrite Hp|lia|done].
  - destruct (chunk_payloads cs) as [|t ts] eqn:Hp; [done|].
    apply Forall_fmap. eapply Forall_impl; [apply batches_of_sizes; lia|].
    intros b Hb. simpl. unfold batch_texts. by rewrite length_fmap.
Qed.

Lemma chunk_payloads_all (cs : list ChunkSnapshot) :
  Forall (fun c => nonblank (text c) = true) cs →
  chunk_payloads cs = (fun c => strip (text c)) <$> cs.
Proof.
  intros H. unfold chunk_payloads. apply filter_all.
  apply Forall_fmap. eapply Forall_impl; [exact H|].
  intros c Hc. simpl. by apply nonblank_strip.
Qed.

(** X23. When the vector store raises nothing, no chunk text is blank and
    no vectors are reused, [_store_artifact] upserts one document per
    chunk, with the id of the chunk and the id of the file, after deleting
    the chunk ids the file had before; it replaces the stored chunks of
    the file by the new ones and leaves the file [indexed], with all the
    chunk ids listed under [vector_chunks]. *)
Theorem store_lists_every_chunk (w : World Vector) (a : IngestArtifact Vector)
    (refresh : bool) (now : Z) :
  (∀ calls c, vs_raises calls c = false) →
  Forall (fun c => nonblank (text c) = true) (chunks a) →
  reuse_vectors settings (get_file w (id (record a))) a refresh = None →
  let previous := previous_chunk_ids (get_file w (id (record a))) in
  let w' := _store_artifact encode vs_raises settings w a refresh now in
  ∃ docs : list (VectorDocument Vector),
    doc_id <$> docs = chunk_id <$> chunks a
    ∧ Forall (fun d => doc_file_id d = id (record a)) docs
    ∧ vs_calls w'
      = vs_calls w ++ (if truthy previous then [VsDelete previous] else [])
        ++ match docs with [] => [] | _ => [VsUpsert docs; VsFlush] end
    ∧ stored_chunks w' !! id (record a) = Some (chunks a)
    ∧ ∃ r, files w' !! id (record a) = Some r
           ∧ index_status r = indexed
           ∧ metadata r !! key_vector_chunks = Some (VList (chunk_id <$> chunks a)).
Proof.
  intros Hcalm Hnb Hreuse previous. cbn zeta.
  unfold _store_artifact. rewrite Hreuse. fold previous. unfold store_full.
  destruct (embed_chunks_answers w (chunks a)) as (w1 & vs & Heq & Hl & _).
  destruct (embed_frame encode settings w (chunks a)) as (Hf & Hs & Hv).
  rewrite Heq in Hf, Hs, Hv. cbn [fst] in Hf, Hs, Hv. rewrite Heq.
  rewrite chunk_payloads_all, length_fmap in Hl by done.
  set (docs := (fun cv : ChunkSnapshot * Vector =>
                  {| doc_id := chunk_id cv.1; vector := cv.2;
                     doc_file_id := id (record a) |}) <$> zip (chunks a) vs).
  assert (Hids : doc_id <$> docs = chunk_id <$> chunks a).
  { unfold docs. rewrite <- list_fmap_compose.
    rewrite <- (fst_zip (chunks a) vs) at 2 by lia.
    by rewrite <- list_fmap_compose. }
  exists docs. split; [done|]. split.
  { unfold docs. apply Forall_fmap, Forall_true. done. }
  unfold vs_call. rewrite ?Hcalm. fold docs.
  destruct docs as [|d ds] eqn:Hd; destruct (truthy previous);
    cbn -[stored_record key_vector_chunks];
    rewrite ?Hcalm; cbn -[stored_record key_vector_chunks];
    rewrite ?Hv, ?Hf;
    (split; [by rewrite <- ?app_assoc, ?app_nil_r|]);
    rewrite !lookup_insert_eq;
    (split; [done|]);
    (eexists; split; [reflexivity|]; split; [done|]);
    unfold stored_record; cbn [metadata]; rewrite lookup_insert_eq, <- Hids; done.
Qed.

End StoreSuccess.

(** X22 at a client that answers each text with a vector of its own *)
Definition echo_client (_ : nat) (texts : list str) : Exn + list str := inr texts.

Lemma echo_client_answers n texts :
  ∃ vs, echo_client n texts = inr vs ∧ length vs = length texts.
Proof. by exists texts. Defined.

Definition never_raises (_ : list (VsCall str)) (_ : VsCall str) : bool := false.

Definition small_batches : Settings :=
  {| reuse_embeddings := true; embed_batch_size := 2; embed_max_chars := 5 |}.

Definition note_chunks : list ChunkSnapshot :=
  [{| chunk_id := of_string "c0"; text := of_string "first chunk";
      snippet := of_string "first chunk"; section_path := None |};
   {| chunk_id := of_string "c1"; text := of_string "second";
      snippet := of_string "second"; section_path := None |};
   {| chunk_id := of_string "c2"; text := of_string "third";
      snippet := of_string "third"; section_path := None |}].

Definition note_record : FileRecord str :=
  {| id := of_string "n1"; folder_id := of_string "notes";
     path := of_string "/notes/n1.md"; size := 23; modified_at := 5;
     checksum_sha256 := Some (of_string "abc"); summary := None;
     preview_image := None; metadata := ∅; embedding_vector := None;
     embedding_determined_at := None; index_status := pending;
     error_reason := None; error_at := None |}.

Definition note_artifact : IngestArtifact str :=
  {| record := note_record; chunks := note_chunks |}.

Definition no_files : World str :=
  {| files := ∅; stored_chunks := ∅; vs_calls := []; embed_calls := [] |}.

Lemma embed_chunks_one_vector_per_text_witness :
  let out := _embed_chunks echo_client small_batches no_files note_chunks in
  (∃ vs, out.2 = inr vs ∧ length vs = 3%nat)
  ∧ embed_calls out.1
    = [[of_string "first"; of_string "secon"]; [of_string "third"]].
Proof.
  pose proof (embed_chunks_one_vector_per_text echo_client small_batches
                echo_client_answers no_files note_chunks) as (H1 & H2 & _).
  split; [exact H1|]. vm_compute. reflexivity.
Defined.

Lemma store_lists_every_chunk_witness :
  ∃ r, files (_store_artifact echo_client never_raises small_batches no_files
                note_artifact false 9) !! of_string "n1" = Some r
       ∧ index_status r = indexed
       ∧ metadata r !! key_vector_chunks
         = Some (VList [of_string "c0"; of_string "c1"; of_string "c2"]).
Proof.
  destruct (store_lists_every_chunk echo_client never_raises small_batches
              echo_client_answers no_files note_artifact false 9)
    as (docs & _ & _ & _ & _ & Hr).
  - reflexivity.
  - repeat constructor.
  - reflexivity.
  - exact Hr.
Defined.

(** ** Pause and resume through the routes *)

(** X24. The routes [pause_index] and [resume_index] on a run that is in
    progress: the pause is accepted and reports [paused] with the event
    cleared; a second pause is refused with 409; the resume is then
    accepted and reports [running] with the count of processed files; a
    second resume is refused with 409. *)
Theorem pause_then_resume_through_routes (o : Orchestrator) (t : Z) :
  status (progress o) = running → is_paused o = false →
  current_run_started o = Some t →
  ∃ o1 p1 o2 p2,
    Router.pause_index o = (o1, Router.Ok p1)
    ∧ status p1 = paused ∧ is_paused o1 = true ∧ pause_event o1 = false
    ∧ (Router.pause_index o1).2 = Router.Conflict
    ∧ Router.resume_index o1 = (o2, Router.Ok p2)
    ∧ status p2 = running ∧ processed p2 = current_processed o
    ∧ is_paused o2 = false ∧ pause_event o2 = true
    ∧ (Router.resume_index o2).2 = Router.Conflict.
Proof.
  intros Hrun Hp Hstart.
  destruct o as [p lk ip pe cf crs crt cp pp ap]. destruct p.
  cbn [progress status is_paused current_run_started current_processed] in *.
  subst.
  unfold Router.pause_index, Router.resume_index, get_status, pause, resume,
    _set_running_progress.
  cbn [progress status is_paused current_run_started current_processed
       with_progress with_pause pause_event negb orb].
  cbn [bool_decide decide_rel negb orb].
  eexists _, _, _, _. split; [reflexivity|].
  cbn [progress status is_paused current_run_started current_processed
       with_progress with_pause pause_event negb orb snd].
  split_and!; reflexivity.
Qed.

Definition busy_orchestrator : Orchestrator :=
  {| progress := {| status := running; started_at := Some 3; completed_at := None;
                    processed := 4; failed_count := 0; total := Some 9;
                    message := None; last_error := None; failed_items := [] |};
     lock_locked := true; is_paused := false; pause_event := true;
     cancelled_folders := []; current_run_started := Some 3;
     current_run_total := 9; current_processed := 4;
     pending_paths := []; active_path := None |}.

Lemma pause_then_resume_through_routes_witness :
  ∃ o1 p1 o2 p2,
    Router.pause_index busy_orchestrator = (o1, Router.Ok p1)
    ∧ status p1 = paused ∧ is_paused o1 = true ∧ pause_event o1 = false
    ∧ (Router.pause_index o1).2 = Router.Conflict
    ∧ Router.resume_index o1 = (o2, Router.Ok p2)
    ∧ status p2 = running ∧ processed p2 = 4
    ∧ is_paused o2 = false ∧ pause_event o2 = true
    ∧ (Router.resume_index o2).2 = Router.Conflict.
Proof.
  apply (pause_then_resume_through_routes busy_orchestrator 3); reflexivity.
Defined.

(** ** A run over two files *)

Definition two_files : Loop :=
  InFile (of_string "/docs/a.txt") [of_string "/docs/b.txt"].

(** The first file ends while the run is paused; [resume] wakes the loop
    and [pause] is called again before the loop runs; the second file is
    processed all the same, and fails. *)
Definition one_good_one_bad : list Event :=
  [CallPause; FileDone true [] 5; CallResume; CallPause; Wake;
   CallCancel (of_string "photos"); FileDone false (of_string "unreadable") 6].

Lemma run_counts_every_finished_file_witness :
  ∃ st', run_events (of_string "docs") one_good_one_bad (busy_orchestrator, two_files)
         = Some st'
         ∧ current_processed st'.1 = 5
         ∧ failed_count (progress st'.1) = 1
         ∧ length (failed_items (progress st'.1)) = 1%nat.
Proof.
  eexists. split; [vm_compute; reflexivity|].
  match goal with
  | |- current_processed ?s.1 = _ ∧ _ =>
      destruct (run_counts_every_finished_file (of_string "docs") one_good_one_bad
                  (busy_orchestrator, two_files) s) as (H1 & H2 & H3)
  end.
  - vm_compute. reflexivity.
  - split; [exact H1|]. split; [exact H2|]. vm_compute. reflexivity.
Defined.

Lemma cancelled_folder_starts_no_new_file_witness :
  ∃ o', run_events (of_string "docs") [CallPause; CallResume; FileDone true [] 5]
          (cancel_folder busy_orchestrator (of_string "docs"), two_files)
        = Some (o', Finished)
        ∧ of_string "docs" ∈ cancelled_folders o'.
Proof.
  eexists. split; [vm_compute; reflexivity|].
  match goal with
  | |- _ ∈ cancelled_folders ?o' =>
      apply (cancelled_folder_starts_no_new_file (of_string "docs")
               [CallPause; CallResume; FileDone true [] 5] busy_orchestrator o'
               two_files Finished)
  end.
  vm_compute. reflexivity.
Defined.
